(** * Cold e-mail generator client: request lifecycle, staged reveal, text clean-up

    A shallow embedding of the TypeScript client
    ([utils/textProcessing.ts], [hooks/useEmailGeneration.ts],
    [hooks/useCopyToClipboard.ts], [components/CanvasFlow.tsx],
    [components/AgentCard.tsx], [components/FinalEmailCard.tsx],
    [pages/Index.tsx]) and the properties its specification states about
    it, followed by further properties read off the code.

    - [Js]         JavaScript strings as sequences of UTF-16 code units, the
                   platform functions the sources call on them ([trim], the
                   regular expressions, [JSON.parse]) and completions
                   (normal or thrown).
    - [Text]       [removeThinkTags], [stripMarkdownCodeBlocks],
                   [parseJsonWrapper].
    - [Hook]       [useEmailGeneration] as a transition system over the
                   hook's state, its timers and its suspended [await]s.
    - [Canvas]     the two effects of [CanvasFlow] as a transition system.
    - [Cards]      what [AgentCard] and [FinalEmailCard] compute from their
                   props.
    - [CanvasView] what a render of [CanvasFlow] shows, and
                   [handleCopyFinal].
    - [Clipboard]  [useCopyToClipboard] as a transition system.
    - [Page]       which of the hook's actions the [Index] page offers. *)

From Stdlib Require Import String Ascii.
From Stdlib Require Import List NArith ZArith QArith Qminmax Bool Lia Lqa.
Import ListNotations.

Set Implicit Arguments.
Set Warnings "-register-all".

(* ================================================================== *)
(** * JavaScript strings *)
(* ================================================================== *)

Module Js.

(** A JavaScript string is a finite sequence of 16-bit code units. *)
Definition jsstring := list N.

(** An ASCII literal as a JavaScript string. *)
Definition lit (s : string) : jsstring :=
  map N_of_ascii (list_ascii_of_string s).

(** The code unit of the double quote, of the backslash and of the line feed. *)
Definition dquote : N := 34%N.
Definition backslash : N := 92%N.
Definition LF : N := 10%N.

(** WhiteSpace and LineTerminator of ECMAScript: what [String.prototype.trim]
    removes and what [\s] matches. *)
Definition isWhiteSpace (c : N) : bool :=
  ((c =? 9) || (c =? 10) || (c =? 11) || (c =? 12) || (c =? 13) || (c =? 32)
   || (c =? 160) || (c =? 5760) || ((8192 <=? c) && (c <=? 8202))
   || (c =? 8232) || (c =? 8233) || (c =? 8239) || (c =? 8287)
   || (c =? 12288) || (c =? 65279))%N.

Fixpoint trimStart (s : jsstring) : jsstring :=
  match s with
  | [] => []
  | c :: s' => if isWhiteSpace c then trimStart s' else s
  end.

Definition trimEnd (s : jsstring) : jsstring := rev (trimStart (rev s)).

(** [String.prototype.trim]. *)
Definition trim (s : jsstring) : jsstring := trimEnd (trimStart s).

(** Canonicalize of a regular expression with the [i] flag and without the
    [u] flag, on the code units that can match an ASCII pattern character:
    ASCII letters fold to upper case; a code unit of 128 or more never folds
    to an ASCII one, it is kept. *)
Definition canon (c : N) : N :=
  if ((97 <=? c) && (c <=? 122))%N then (c - 32)%N else c.

(** Match the literal [pat] at the start of [s], ignoring ASCII case; the
    rest of [s] after the match. *)
Fixpoint match_ci (pat s : jsstring) : option jsstring :=
  match pat with
  | [] => Some s
  | p :: pat' =>
      match s with
      | [] => None
      | c :: s' => if (canon c =? canon p)%N then match_ci pat' s' else None
      end
  end.

(** Strict equality [===] of two strings. *)
Definition jsstring_eqb (a b : jsstring) : bool :=
  if list_eq_dec N.eq_dec a b then true else false.

(** A string is falsy when it is empty. *)
Definition truthy (s : jsstring) : bool :=
  match s with [] => false | _ :: _ => true end.

(** ** Completions *)

(** A thrown value: an [Error] object with its name and message, or anything
    else. *)
Inductive Thrown : Type :=
| ErrorObj (name message : jsstring)
| OtherValue.

(** The outcome of evaluating a block: a value, or a throw. *)
Inductive Completion (A : Type) : Type :=
| Normal (a : A)
| Throw (e : Thrown).
Arguments Normal {A} a.
Arguments Throw {A} e.

Definition bind {A B} (c : Completion A) (k : A -> Completion B) : Completion B :=
  match c with
  | Normal a => k a
  | Throw e => Throw e
  end.

(** [try { body } catch { handler }] with a handler that ignores or uses the
    thrown value. *)
Definition try_catch {A} (body : Completion A) (handler : Thrown -> Completion A)
  : Completion A :=
  match body with
  | Normal a => Normal a
  | Throw e => handler e
  end.

End Js.

(* ================================================================== *)
(** * utils/textProcessing.ts *)
(* ================================================================== *)

Module Text.
Import Js.

(** ** removeThinkTags *)

Definition open_tag : jsstring := lit "<think>".
Definition close_tag : jsstring := lit "</think>".

(** [[\s\S]*?<\/think>] at the start of [s]: the lazy star takes as few code
    units as possible, so the match ends with the first closing tag; its
    length. *)
Fixpoint find_close (s : jsstring) : option nat :=
  match s with
  | [] => None
  | _ :: s' =>
      match match_ci close_tag s with
      | Some _ => Some (length close_tag)
      | None => option_map S (find_close s')
      end
  end.

(** [/<think>[\s\S]*?<\/think>/i] at the start of [s]: the length of the
    match, if it matches there. *)
Definition match_think (s : jsstring) : option nat :=
  match match_ci open_tag s with
  | Some r => option_map (fun n => length open_tag + n)%nat (find_close r)
  | None => None
  end.

(** [text.replace(/<think>[\s\S]*?<\/think>/gi, '')]: from left to right,
    the leftmost match from the current position on is removed and the search
    goes on after it; [skip] counts the code units of the current match still
    to drop. *)
Fixpoint replace_think (skip : nat) (s : jsstring) : jsstring :=
  match s with
  | [] => []
  | c :: s' =>
      match skip with
      | S k => replace_think k s'
      | O =>
          match match_think s with
          | Some (S k) => replace_think k s'
          | _ => c :: replace_think 0 s'
          end
      end
  end.

Definition removeThinkTags (text : jsstring) : jsstring :=
  trim (replace_think 0 text).

(** ** stripMarkdownCodeBlocks *)

Definition fence_json : jsstring := lit "```json".
Definition fence : jsstring := lit "```".

(** [.replace(/^```json\s*\n?/i, '')]: anchored at the start; the greedy
    [\s*] takes every white-space unit that follows, then [\n?] one line feed
    if one is next. *)
Definition strip_open (text : jsstring) : jsstring :=
  match match_ci fence_json text with
  | Some r =>
      let r1 := trimStart r in
      match r1 with
      | c :: r2 => if (c =? LF)%N then r2 else r1
      | [] => []
      end
  | None => text
  end.

(** [```\s*$] at the start of [s]: three backticks, then white space up to
    the end of the input. *)
Definition fence_to_end (s : jsstring) : bool :=
  match match_ci fence s with
  | Some r => forallb isWhiteSpace r
  | None => false
  end.

(** [\n?```\s*$] at the start of [s]: with the line feed if one is there,
    otherwise (backtracking) without it. *)
Definition close_here (s : jsstring) : bool :=
  match s with
  | c :: s' => ((c =? LF)%N && fence_to_end s') || fence_to_end s
  | [] => false
  end.

(** [.replace(/\n?```\s*$/i, '')]: the leftmost match is removed; it runs to
    the end of the text. *)
Fixpoint strip_close (s : jsstring) : jsstring :=
  if close_here s then []
  else match s with
       | [] => []
       | c :: s' => c :: strip_close s'
       end.

Definition stripMarkdownCodeBlocks (text : jsstring) : jsstring :=
  trim (strip_close (strip_open text)).

End Text.

(* ================================================================== *)
(** * JSON.parse *)
(* ================================================================== *)

Module Json.
Import Js.

(** A parsed JSON value. A number keeps its source text (its value as a
    double is not needed here); an object keeps its members in source order,
    a repeated key included. *)
Inductive JValue : Type :=
| JNull
| JBool (b : bool)
| JNumber (lexeme : jsstring)
| JString (s : jsstring)
| JArray (items : list JValue)
| JObject (members : list (jsstring * JValue)).

Inductive Token : Type :=
| TLBrace | TRBrace | TLBracket | TRBracket | TColon | TComma
| TString (s : jsstring)
| TNumber (lexeme : jsstring)
| TTrue | TFalse | TNull.

(** Where the scanner is inside a number: an optional minus, then 0 or a
    digit 1-9 and more digits, then optionally a dot and one or more digits,
    then optionally e or E, an optional sign and one or more digits. *)
Inductive NumState : Type :=
| NMinus | NZero | NInt | NDot | NFrac | NExp | NExpSign | NExpDigits.

Definition num_accepting (st : NumState) : bool :=
  match st with
  | NZero | NInt | NFrac | NExpDigits => true
  | NMinus | NDot | NExp | NExpSign => false
  end.

Definition isDigit (c : N) : bool := ((48 <=? c) && (c <=? 57))%N.

Definition num_step (st : NumState) (c : N) : option NumState :=
  match st with
  | NMinus =>
      if (c =? 48)%N then Some NZero
      else if isDigit c then Some NInt else None
  | NZero =>
      if (c =? 46)%N then Some NDot
      else if ((c =? 101) || (c =? 69))%N then Some NExp else None
  | NInt =>
      if isDigit c then Some NInt
      else if (c =? 46)%N then Some NDot
      else if ((c =? 101) || (c =? 69))%N then Some NExp else None
  | NDot => if isDigit c then Some NFrac else None
  | NFrac =>
      if isDigit c then Some NFrac
      else if ((c =? 101) || (c =? 69))%N then Some NExp else None
  | NExp =>
      if ((c =? 43) || (c =? 45))%N then Some NExpSign
      else if isDigit c then Some NExpDigits else None
  | NExpSign => if isDigit c then Some NExpDigits else None
  | NExpDigits => if isDigit c then Some NExpDigits else None
  end.

Definition hex_value (c : N) : option N :=
  if isDigit c then Some (c - 48)%N
  else if ((97 <=? c) && (c <=? 102))%N then Some (c - 87)%N
  else if ((65 <=? c) && (c <=? 70))%N then Some (c - 55)%N
  else None.

(** The scanner's mode; accumulators are kept reversed. *)
Inductive LexMode : Type :=
| LTop
| LStr (acc : jsstring)
| LEsc (acc : jsstring)
| LHex (acc : jsstring) (todo : nat) (v : N)
| LNum (st : NumState) (acc : jsstring)
| LWord (rest : jsstring) (t : Token).

(** JSON white space: tab, line feed, carriage return, space. *)
Definition isJsonSpace (c : N) : bool :=
  ((c =? 9) || (c =? 10) || (c =? 13) || (c =? 32))%N.

(** One code unit between tokens. *)
Definition top_step (c : N) (out : list Token) : option (LexMode * list Token) :=
  if isJsonSpace c then Some (LTop, out)
  else if (c =? 123)%N then Some (LTop, TLBrace :: out)
  else if (c =? 125)%N then Some (LTop, TRBrace :: out)
  else if (c =? 91)%N then Some (LTop, TLBracket :: out)
  else if (c =? 93)%N then Some (LTop, TRBracket :: out)
  else if (c =? 58)%N then Some (LTop, TColon :: out)
  else if (c =? 44)%N then Some (LTop, TComma :: out)
  else if (c =? dquote)%N then Some (LStr [], out)
  else if (c =? 45)%N then Some (LNum NMinus [c], out)
  else if (c =? 48)%N then Some (LNum NZero [c], out)
  else if isDigit c then Some (LNum NInt [c], out)
  else if (c =? 116)%N then Some (LWord (lit "rue") TTrue, out)
  else if (c =? 102)%N then Some (LWord (lit "alse") TFalse, out)
  else if (c =? 110)%N then Some (LWord (lit "ull") TNull, out)
  else None.

Definition lex_step (m : LexMode) (out : list Token) (c : N)
  : option (LexMode * list Token) :=
  match m with
  | LTop => top_step c out
  | LStr acc =>
      if (c =? dquote)%N then Some (LTop, TString (rev acc) :: out)
      else if (c =? backslash)%N then Some (LEsc acc, out)
      else if (c <? 32)%N then None
      else Some (LStr (c :: acc), out)
  | LEsc acc =>
      if (c =? dquote)%N then Some (LStr (dquote :: acc), out)
      else if (c =? backslash)%N then Some (LStr (backslash :: acc), out)
      else if (c =? 47)%N then Some (LStr (47%N :: acc), out)
      else if (c =? 98)%N then Some (LStr (8%N :: acc), out)
      else if (c =? 102)%N then Some (LStr (12%N :: acc), out)
      else if (c =? 110)%N then Some (LStr (10%N :: acc), out)
      else if (c =? 114)%N then Some (LStr (13%N :: acc), out)
      else if (c =? 116)%N then Some (LStr (9%N :: acc), out)
      else if (c =? 117)%N then Some (LHex acc 4 0%N, out)
      else None
  | LHex acc todo v =>
      match hex_value c with
      | Some d =>
          let v' := (v * 16 + d)%N in
          match todo with
          | S (S k) => Some (LHex acc (S k) v', out)
          | _ => Some (LStr (v' :: acc), out)
          end
      | None => None
      end
  | LNum st acc =>
      match num_step st c with
      | Some st' => Some (LNum st' (c :: acc), out)
      | None =>
          if num_accepting st then top_step c (TNumber (rev acc) :: out)
          else None
      end
  | LWord rest t =>
      match rest with
      | e :: rest' =>
          if (c =? e)%N
          then match rest' with
               | [] => Some (LTop, t :: out)
               | _ => Some (LWord rest' t, out)
               end
          else None
      | [] => None
      end
  end.

(** The tokens of a text, or [None] where no token fits. *)
Fixpoint lex (m : LexMode) (out : list Token) (s : jsstring) : option (list Token) :=
  match s with
  | c :: s' =>
      match lex_step m out c with
      | Some (m', out') => lex m' out' s'
      | None => None
      end
  | [] =>
      match m with
      | LTop => Some (rev out)
      | LNum st acc =>
          if num_accepting st then Some (rev (TNumber (rev acc) :: out)) else None
      | _ => None
      end
  end.

(** An array or object under construction (members reversed); an object
    frame holds the key whose value is being read. *)
Inductive Frame : Type :=
| InArray (acc : list JValue)
| InObject (acc : list (jsstring * JValue)) (key : jsstring).

Inductive PState : Type :=
| WantValue (stk : list Frame)
| WantValueOrClose (stk : list Frame)
| WantKeyOrClose (stk : list Frame)
| WantKey (acc : list (jsstring * JValue)) (stk : list Frame)
| WantColon (acc : list (jsstring * JValue)) (key : jsstring) (stk : list Frame)
| Have (v : JValue) (stk : list Frame).

(** A token where a value may start. *)
Definition value_start (t : Token) (stk : list Frame) : option PState :=
  match t with
  | TLBrace => Some (WantKeyOrClose stk)
  | TLBracket => Some (WantValueOrClose stk)
  | TString s => Some (Have (JString s) stk)
  | TNumber n => Some (Have (JNumber n) stk)
  | TTrue => Some (Have (JBool true) stk)
  | TFalse => Some (Have (JBool false) stk)
  | TNull => Some (Have JNull stk)
  | TRBrace | TRBracket | TColon | TComma => None
  end.

Definition parse_step (st : PState) (t : Token) : option PState :=
  match st with
  | WantValue stk => value_start t stk
  | WantValueOrClose stk =>
      match t with
      | TRBracket => Some (Have (JArray []) stk)
      | _ => value_start t (InArray [] :: stk)
      end
  | WantKeyOrClose stk =>
      match t with
      | TRBrace => Some (Have (JObject []) stk)
      | TString k => Some (WantColon [] k stk)
      | _ => None
      end
  | WantKey acc stk =>
      match t with
      | TString k => Some (WantColon acc k stk)
      | _ => None
      end
  | WantColon acc k stk =>
      match t with
      | TColon => Some (WantValue (InObject acc k :: stk))
      | _ => None
      end
  | Have v stk =>
      match stk with
      | InArray acc :: stk' =>
          match t with
          | TComma => Some (WantValue (InArray (v :: acc) :: stk'))
          | TRBracket => Some (Have (JArray (rev (v :: acc))) stk')
          | _ => None
          end
      | InObject acc k :: stk' =>
          match t with
          | TComma => Some (WantKey ((k, v) :: acc) stk')
          | TRBrace => Some (Have (JObject (rev ((k, v) :: acc))) stk')
          | _ => None
          end
      | [] => None
      end
  end.

Fixpoint parse_tokens (st : PState) (ts : list Token) : option JValue :=
  match ts with
  | t :: ts' =>
      match parse_step st t with
      | Some st' => parse_tokens st' ts'
      | None => None
      end
  | [] =>
      match st with
      | Have v [] => Some v
      | _ => None
      end
  end.

(** The [SyntaxError] of [JSON.parse] and the [TypeError] of a property read
    on [null]; the message texts are the engine's and nothing here reads
    them. *)
Definition syntaxError : Thrown := ErrorObj (lit "SyntaxError") (lit "Unexpected token").
Definition typeError : Thrown :=
  ErrorObj (lit "TypeError") (lit "Cannot read properties of null").

(** [JSON.parse(text)] without a reviver. *)
Definition JSON_parse (text : jsstring) : Completion JValue :=
  match lex LTop [] text with
  | Some ts =>
      match parse_tokens (WantValue []) ts with
      | Some v => Normal v
      | None => Throw syntaxError
      end
  | None => Throw syntaxError
  end.

(** The value of the last member named [key]: a later member replaces an
    earlier one of the same name. *)
Fixpoint member (key : jsstring) (ms : list (jsstring * JValue)) : option JValue :=
  match ms with
  | [] => None
  | (k, v) :: ms' =>
      match member key ms' with
      | Some v' => Some v'
      | None => if jsstring_eqb key k then Some v else None
      end
  end.

(** [v.key] for a key that no prototype defines and that is no array index
    ([final_email], [reasoning]): [undefined] ([None]) unless [v] is an
    object with that member; a [TypeError] on [null]. *)
Definition get (v : JValue) (key : jsstring) : Completion (option JValue) :=
  match v with
  | JNull => Throw typeError
  | JObject ms => Normal (member key ms)
  | JBool _ | JNumber _ | JString _ | JArray _ => Normal None
  end.

End Json.

Module Wrapper.
Import Js Text Json.

(** ** parseJsonWrapper *)

(** The returned object; an absent or [undefined] property is [None]. *)
Record Parsed : Type := {
  email : option JValue;
  reasoning : option JValue;
  parsed : bool
}.

Definition parseJsonWrapper (content : jsstring) : Completion Parsed :=
  let cleanContent := stripMarkdownCodeBlocks content in
  try_catch
    (bind (JSON_parse cleanContent) (fun p =>
     bind (get p (lit "final_email")) (fun e =>
     bind (get p (lit "reasoning")) (fun r =>
     Normal {| email := e; reasoning := r; parsed := true |}))))
    (fun _ =>
     Normal {| email := Some (JString cleanContent); reasoning := None;
               parsed := false |}).

End Wrapper.

(* ================================================================== *)
(** * types/api.ts *)
(* ================================================================== *)

Module Api.
Import Js.

Inductive Status : Type := Complete | Processing | Failed.
Inductive Position : Type := Left | Center | Right.

Record JobMetadata : Type := {
  title : jsstring;
  company : jsstring;
  location : option jsstring
}.

Record InputContext : Type := {
  resume_text : jsstring;
  job_description : jsstring;
  job_url : jsstring;
  job_metadata : JobMetadata
}.

Record UIMetadata : Type := {
  color : jsstring;
  position : Position;
  emoji : jsstring
}.

Record AgentMetadata : Type := {
  agent_word_count : Q;
  agent_generation_time_ms : Q;
  temperature : Q
}.

Record AgentDraft : Type := {
  agent_name : jsstring;
  model : jsstring;
  draft : jsstring;
  agent_status : Status;
  agent_metadata : AgentMetadata;
  agent_ui_metadata : UIMetadata
}.

Record AggregationMetadata : Type := {
  word_count : Q;
  generation_time_ms : Q;
  quality_score : Q
}.

Record AggregationResult : Type := {
  final_email : jsstring;
  reasoning : jsstring;
  metadata : AggregationMetadata;
  ui_metadata : UIMetadata
}.

Record EmailGenerationResponse : Type := {
  request_id : jsstring;
  status : Status;
  created_at : jsstring;
  inputs : InputContext;
  agent_drafts : list AgentDraft;
  aggregation : AggregationResult
}.

End Api.

(* ================================================================== *)
(** * hooks/useEmailGeneration.ts *)
(* ================================================================== *)

Module Hook.
Import Js.

(** ** Configuration *)

Definition API_ENDPOINT : jsstring := lit "http://localhost:8000/generate-email".
Definition REQUEST_TIMEOUT : Z := 120000.
Definition PROGRESS_UPDATE_INTERVAL : Z := 500.
Definition ESTIMATED_PROCESSING_TIME : Z := 45000.

Definition PREPARE : Q := 5.
Definition SEND : Q := 10.
Definition SEND_COMPLETE : Q := 20.
Definition PROCESSING_START : Q := 20.
Definition PROCESSING_END : Q := 80.
Definition RESPONSE_RECEIVED : Q := 85.
Definition PARSING : Q := 90.
Definition PRE_COMPLETE : Q := 95.
Definition COMPLETE : Q := 100.

(** ** Data *)

(** A [File] of the file input: what [handleFileChange] reads of it. *)
Record File : Type := {
  file_name : jsstring;
  file_type : jsstring;
  file_size : N
}.

Inductive Variant : Type := Default | Destructive.

(** An argument of [toast]. *)
Record Toast : Type := {
  toast_title : jsstring;
  toast_description : jsstring;
  variant : Variant
}.

(** The five [useState] values the hook returns. The progress is a number;
    it is kept exact, as a rational. *)
Record HookState : Type := {
  jobUrl : jsstring;
  resume : option File;
  isGenerating : bool;
  result : option Api.EmailGenerationResponse;
  progress : Q
}.

(** What a timer runs. *)
Inductive Callback : Type :=
| AbortRequest (controller : nat)
| TrackProgress (startTime : Z)
| ShowComplete.

(** A pending [setTimeout] or [setInterval]. *)
Record Timer : Type := {
  tid : nat;
  armedAt : Z;
  delay : Z;
  repeating : bool;
  callback : Callback
}.

(** A call of [handleGenerate] suspended at one of its two [await]s, with
    the locals the rest of the call reads. *)
Inductive Suspended : Type :=
| AwaitResponse (controller timeoutId progressInterval : nat)
| AwaitJson (controller progressInterval : nat).

(** A [fetch] that was issued: its URL, its controller and the two form
    fields of its body. *)
Record Request : Type := {
  req_url : jsstring;
  req_controller : nat;
  req_job_url : jsstring;
  req_resume : File
}.

(** The event loop: the clock ([Date.now()], in ms), the pending timers, the
    suspended calls, the controllers whose signal is aborted, and the next
    fresh identifier. *)
Record Loop : Type := {
  now : Z;
  timers : list Timer;
  awaiting : list Suspended;
  aborted : list nat;
  nextId : nat
}.

(** What the hook did to the outside, latest first: the notices, the network
    calls, and every value passed to [setProgress]. *)
Record Trace : Type := {
  toasts : list Toast;
  requests : list Request;
  shown : list Q
}.

Record World : Type := {
  hook : HookState;
  loop : Loop;
  trace : Trace
}.

(** ** The monad of the handlers: state, and a completion *)

Definition M (A : Type) : Type := World -> Completion A * World.

Definition ret {A} (a : A) : M A := fun w => (Normal a, w).

Definition mbind {A B} (c : M A) (k : A -> M B) : M B :=
  fun w =>
    match c w with
    | (Normal a, w') => k a w'
    | (Throw e, w') => (Throw e, w')
    end.

Definition throw {A} (e : Thrown) : M A := fun w => (Throw e, w).

Declare Scope hook_scope.
Delimit Scope hook_scope with hook.
Notation "x <- c ;; k" := (mbind c (fun x => k))
  (at level 61, c at next level, right associativity) : hook_scope.
Notation "c ;; k" := (mbind c (fun _ => k))
  (at level 61, right associativity) : hook_scope.
Local Open Scope hook_scope.

Definition gets {A} (f : World -> A) : M A := fun w => (Normal (f w), w).
Definition modify (f : World -> World) : M unit := fun w => (Normal tt, f w).

Definition on_hook (f : HookState -> HookState) (w : World) : World :=
  {| hook := f (hook w); loop := loop w; trace := trace w |}.
Definition on_loop (f : Loop -> Loop) (w : World) : World :=
  {| hook := hook w; loop := f (loop w); trace := trace w |}.
Definition on_trace (f : Trace -> Trace) (w : World) : World :=
  {| hook := hook w; loop := loop w; trace := f (trace w) |}.

(** *** The state setters *)

Definition setJobUrl (v : jsstring) : M unit :=
  modify (on_hook (fun h =>
    {| jobUrl := v; resume := resume h; isGenerating := isGenerating h;
       result := result h; progress := progress h |})).

Definition setResume (v : option File) : M unit :=
  modify (on_hook (fun h =>
    {| jobUrl := jobUrl h; resume := v; isGenerating := isGenerating h;
       result := result h; progress := progress h |})).

Definition setIsGenerating (v : bool) : M unit :=
  modify (on_hook (fun h =>
    {| jobUrl := jobUrl h; resume := resume h; isGenerating := v;
       result := result h; progress := progress h |})).

Definition setResult (v : option Api.EmailGenerationResponse) : M unit :=
  modify (on_hook (fun h =>
    {| jobUrl := jobUrl h; resume := resume h; isGenerating := isGenerating h;
       result := v; progress := progress h |})).

Definition setProgress (v : Q) : M unit :=
  modify (fun w =>
    on_trace (fun t =>
      {| toasts := toasts t; requests := requests t; shown := v :: shown t |})
    (on_hook (fun h =>
      {| jobUrl := jobUrl h; resume := resume h; isGenerating := isGenerating h;
         result := result h; progress := v |}) w)).

(** *** The platform *)

Definition toast (t : Toast) : M unit :=
  modify (on_trace (fun tr =>
    {| toasts := t :: toasts tr; requests := requests tr; shown := shown tr |})).

Definition Date_now : M Z := gets (fun w => now (loop w)).

Definition fresh : M nat :=
  fun w =>
    (Normal (nextId (loop w)),
     on_loop (fun l =>
       {| now := now l; timers := timers l; awaiting := awaiting l;
          aborted := aborted l; nextId := S (nextId l) |}) w).

Definition set_timers (f : list Timer -> list Timer) : M unit :=
  modify (on_loop (fun l =>
    {| now := now l; timers := f (timers l); awaiting := awaiting l;
       aborted := aborted l; nextId := nextId l |})).

Definition set_awaiting (f : list Suspended -> list Suspended) : M unit :=
  modify (on_loop (fun l =>
    {| now := now l; timers := timers l; awaiting := f (awaiting l);
       aborted := aborted l; nextId := nextId l |})).

Definition arm (rep : bool) (cb : Callback) (ms : Z) : M nat :=
  id <- fresh ;;
  t <- Date_now ;;
  set_timers (fun ts =>
    {| tid := id; armedAt := t; delay := ms; repeating := rep; callback := cb |}
    :: ts) ;;
  ret id.

Definition setTimeout (cb : Callback) (ms : Z) : M nat := arm false cb ms.
Definition setInterval (cb : Callback) (ms : Z) : M nat := arm true cb ms.

(** [clearTimeout] and [clearInterval]: the timer of that identifier, if one
    is pending, is dropped. *)
Definition clearTimer (id : nat) : M unit :=
  set_timers (filter (fun t => negb (Nat.eqb (tid t) id))).
Definition clearTimeout := clearTimer.
Definition clearInterval := clearTimer.

(** [new AbortController()]. *)
Definition newAbortController : M nat := fresh.

(** [controller.abort()]: the signal is aborted from now on. *)
Definition abort (controller : nat) : M unit :=
  modify (on_loop (fun l =>
    {| now := now l; timers := timers l; awaiting := awaiting l;
       aborted := controller :: aborted l; nextId := nextId l |})).

(** [fetch(API_ENDPOINT, { method, body, signal })]: the call is issued. *)
Definition fetch (controller : nat) (url : jsstring) (file : File) : M unit :=
  modify (on_trace (fun tr =>
    {| toasts := toasts tr;
       requests := {| req_url := API_ENDPOINT; req_controller := controller;
                      req_job_url := url; req_resume := file |} :: requests tr;
       shown := shown tr |})).

(** ** handleFileChange *)

Definition validTypes : list jsstring :=
  [ lit "application/pdf";
    lit "application/vnd.openxmlformats-officedocument.wordprocessingml.document" ].

Definition includes (l : list jsstring) (x : jsstring) : bool :=
  existsb (jsstring_eqb x) l.

Definition invalidTypeToast : Toast :=
  {| toast_title := lit "Invalid file type";
     toast_description := lit "Please upload a PDF or DOCX file";
     variant := Destructive |}.

Definition tooLargeToast : Toast :=
  {| toast_title := lit "File too large";
     toast_description := lit "Maximum file size is 20MB";
     variant := Destructive |}.

(** The argument is [e.target.files?.[0]]. *)
Definition handleFileChange (file0 : option File) : M unit :=
  match file0 with
  | None => ret tt
  | Some file =>
      if negb (includes validTypes (file_type file)) then
        toast invalidTypeToast
      else if (20 * 1024 * 1024 <? file_size file)%N then
        toast tooLargeToast
      else
        setResume (Some file)
  end.

(** ** handleClear *)

Definition handleClear : M unit :=
  setJobUrl [] ;;
  setResume None ;;
  setResult None ;;
  setProgress 0.

(** ** startProgressTracking *)

(** [Math.min(PROCESSING_END, PROCESSING_START + (elapsed /
    ESTIMATED_PROCESSING_TIME) * (PROCESSING_END - PROCESSING_START))]. *)
Definition calculatedProgress (elapsed : Z) : Q :=
  Qmin PROCESSING_END
       (PROCESSING_START
        + (inject_Z elapsed / inject_Z ESTIMATED_PROCESSING_TIME)
          * (PROCESSING_END - PROCESSING_START)).

(** The body of the interval's callback. *)
Definition trackProgress (startTime : Z) : M unit :=
  t <- Date_now ;;
  let elapsed := (t - startTime)%Z in
  setProgress (calculatedProgress elapsed).

Definition startProgressTracking (startTime : Z) : M nat :=
  setInterval (TrackProgress startTime) PROGRESS_UPDATE_INTERVAL.

(** ** handleGenerate *)

Definition missingToast : Toast :=
  {| toast_title := lit "Missing information";
     toast_description := lit "Please provide both job URL and resume";
     variant := Destructive |}.

Definition successToast : Toast :=
  {| toast_title := lit "Email generated!";
     toast_description := lit "Your personalized cold email is ready";
     variant := Default |}.

(** [error instanceof Error ? error.message : "Please try again"]. *)
Definition failureToast (error : Thrown) : Toast :=
  {| toast_title := lit "Generation failed";
     toast_description :=
       match error with
       | ErrorObj _ message => message
       | OtherValue => lit "Please try again"
       end;
     variant := Destructive |}.

(** A timer identifier is truthy unless it is 0. *)
Definition truthy_id (id : nat) : bool := negb (Nat.eqb id 0).

(** [if (progressInterval) clearInterval(progressInterval)], on a variable
    that is [null] ([None]) or a timer identifier. *)
Definition clearIfSet (progressInterval : option nat) : M unit :=
  match progressInterval with
  | Some id => if truthy_id id then clearInterval id else ret tt
  | None => ret tt
  end.

Definition catchBlock (progressInterval : option nat) (error : Thrown) : M unit :=
  clearIfSet progressInterval ;;
  setProgress 0 ;;
  toast (failureToast error).

Definition finallyBlock : M unit := setIsGenerating false.

(** How a stretch of the [try] block ends: at an [await], or at the end of
    the block. *)
Inductive Flow : Type := Awaiting | Finished.

Definition suspend (k : Suspended) : M Flow :=
  set_awaiting (cons k) ;; ret Awaiting.

(** A stretch of the [try] block, from the start or an [await] to the next
    [await] or the end, under the block's [catch] and [finally]:
    [progressInterval] is the variable's value during the stretch. *)
Definition inTry (progressInterval : option nat) (stretch : M Flow) : M unit :=
  fun w =>
    match stretch w with
    | (Normal Awaiting, w') => (Normal tt, w')
    | (Normal Finished, w') => finallyBlock w'
    | (Throw e, w') => (catchBlock progressInterval e ;; finallyBlock) w'
    end.

(** The call up to [await responsePromise]. Nothing in the first stretch
    throws; [progressInterval] is assigned last in it. *)
Definition handleGenerate : M unit :=
  url <- gets (fun w => jobUrl (hook w)) ;;
  file0 <- gets (fun w => resume (hook w)) ;;
  match file0 with
  | Some file =>
      if negb (truthy url) then toast missingToast
      else
        setIsGenerating true ;;
        setResult None ;;
        setProgress 0 ;;
        startTime <- Date_now ;;
        inTry None
          (setProgress PREPARE ;;
           setProgress SEND ;;
           controller <- newAbortController ;;
           timeoutId <- setTimeout (AbortRequest controller) REQUEST_TIMEOUT ;;
           fetch controller url file ;;
           setProgress SEND_COMPLETE ;;
           progressInterval <- startProgressTracking startTime ;;
           suspend (AwaitResponse controller timeoutId progressInterval))
  | None => toast missingToast
  end.

(** How [responsePromise] settles: a response with its [ok] flag, or a
    rejection. *)
Inductive ResponseOutcome : Type :=
| Fulfilled (ok : bool)
| Rejected (error : Thrown).

(** How [response.json()] settles. *)
Inductive BodyOutcome : Type :=
| Decoded (data : Api.EmailGenerationResponse)
| Undecodable (error : Thrown).

(** From [await responsePromise] to [await response.json()]. *)
Definition afterResponse (controller timeoutId progressInterval : nat)
    (r : ResponseOutcome) : M unit :=
  inTry (Some progressInterval)
    match r with
    | Rejected error => throw error
    | Fulfilled ok =>
        clearTimeout timeoutId ;;
        clearIfSet (Some progressInterval) ;;
        setProgress RESPONSE_RECEIVED ;;
        (if negb ok
         then throw (ErrorObj (lit "Error") (lit "Failed to generate email"))
         else ret tt) ;;
        setProgress PARSING ;;
        suspend (AwaitJson controller progressInterval)
    end.

(** From [await response.json()] to the end of the [try] block. *)
Definition afterJson (progressInterval : nat) (r : BodyOutcome) : M unit :=
  inTry (Some progressInterval)
    match r with
    | Undecodable error => throw error
    | Decoded data =>
        setProgress PRE_COMPLETE ;;
        setResult (Some data) ;;
        _ <- setTimeout ShowComplete 300 ;;
        ret Finished
    end.

(** ** Timers *)

Definition run_callback (cb : Callback) : M unit :=
  match cb with
  | AbortRequest controller => abort controller
  | TrackProgress startTime => trackProgress startTime
  | ShowComplete => setProgress COMPLETE ;; toast successToast
  end.

Definition has_id (id : nat) (t : Timer) : bool := Nat.eqb (tid t) id.

Definition due (t : Timer) : Z := (armedAt t + delay t)%Z.

Definition rearm (t : Timer) (at_ : Z) : Timer :=
  {| tid := tid t; armedAt := at_; delay := delay t; repeating := repeating t;
     callback := callback t |}.

(** A pending timer that is due runs: a timeout leaves the list, an interval
    is armed again. *)
Definition fire (id : nat) (w : World) : option World :=
  match find (has_id id) (timers (loop w)) with
  | Some t =>
      if (due t <=? now (loop w))%Z then
        let reschedule :=
          if repeating t
          then set_timers (map (fun u => if has_id id u then rearm u (now (loop w)) else u))
          else clearTimer id in
        Some (snd ((reschedule ;; run_callback (callback t)) w))
      else None
  | None => None
  end.

(** ** The transition system *)

Inductive Event : Type :=
| SetJobUrl (v : jsstring)
| FileChange (file0 : option File)
| Clear
| Generate
| Elapse (t : Z)
| Fire (id : nat)
| ResponseSettled (controller : nat) (r : ResponseOutcome)
| BodySettled (controller : nat) (r : BodyOutcome).

Definition awaits_response (c : nat) (k : Suspended) : bool :=
  match k with
  | AwaitResponse c' _ _ => Nat.eqb c' c
  | AwaitJson _ _ => false
  end.

Definition awaits_json (c : nat) (k : Suspended) : bool :=
  match k with
  | AwaitJson c' _ => Nat.eqb c' c
  | AwaitResponse _ _ _ => false
  end.

Definition advance (t : Z) (w : World) : World :=
  on_loop (fun l =>
    {| now := t; timers := timers l; awaiting := awaiting l;
       aborted := aborted l; nextId := nextId l |}) w.

(** One event; [None] where the event cannot happen: time does not go back,
    only a pending timer that is due fires, only a suspended call is resumed,
    and an aborted [fetch] does not fulfil. *)
Definition step (e : Event) (w : World) : option World :=
  match e with
  | SetJobUrl v => Some (snd (setJobUrl v w))
  | FileChange f => Some (snd (handleFileChange f w))
  | Clear => Some (snd (handleClear w))
  | Generate => Some (snd (handleGenerate w))
  | Elapse t => if (now (loop w) <=? t)%Z then Some (advance t w) else None
  | Fire id => fire id w
  | ResponseSettled c r =>
      match find (awaits_response c) (awaiting (loop w)) with
      | Some (AwaitResponse _ timeoutId progressInterval) =>
          match r with
          | Fulfilled _ =>
              if existsb (Nat.eqb c) (aborted (loop w)) then None
              else Some (snd ((set_awaiting (filter (fun k => negb (awaits_response c k))) ;;
                               afterResponse c timeoutId progressInterval r) w))
          | Rejected _ =>
              Some (snd ((set_awaiting (filter (fun k => negb (awaits_response c k))) ;;
                          afterResponse c timeoutId progressInterval r) w))
          end
      | _ => None
      end
  | BodySettled c r =>
      match find (awaits_json c) (awaiting (loop w)) with
      | Some (AwaitJson _ progressInterval) =>
          Some (snd ((set_awaiting (filter (fun k => negb (awaits_json c k))) ;;
                      afterJson progressInterval r) w))
      | _ => None
      end
  end.

Fixpoint run (es : list Event) (w : World) : option World :=
  match es with
  | [] => Some w
  | e :: es' =>
      match step e w with
      | Some w' => run es' w'
      | None => None
      end
  end.

(** The hook before any event: the initial [useState] values, nothing
    pending. Timer identifiers are positive. *)
Definition initial : World :=
  {| hook := {| jobUrl := []; resume := None; isGenerating := false;
                result := None; progress := 0 |};
     loop := {| now := 0; timers := []; awaiting := []; aborted := [];
                nextId := 1 |};
     trace := {| toasts := []; requests := []; shown := [] |} |}.

End Hook.

(* ================================================================== *)
(** * components/CanvasFlow.tsx: the two reveal effects *)
(* ================================================================== *)

Module Canvas.
Import Js.

(** The [result] prop is [null] or an object. React compares a dependency
    with [Object.is], by the object's identity, so a result is held as a
    reference; nothing mutates a response once it is decoded, so a reference
    stands for one value, given by [heap]. *)
Definition Ref := nat.

Record Props : Type := {
  isGenerating : bool;
  result : option Ref;
  progress : Q
}.

(** [() => setShowAgents(true)] and [() => setShowFinal(true)]. *)
Inductive Callback : Type := ShowAgents | ShowFinal.

Record Timer : Type := {
  tid : nat;
  armedAt : Z;
  delay : Z;
  callback : Callback
}.

(** A component instance: its two [useState] values, the props of its last
    render, the clean-up each effect returned at its last run (the timer it
    would clear, [None] when the effect returned nothing), whether it is
    mounted, the clock and the timers. *)
Record State : Type := {
  showAgents : bool;
  showFinal : bool;
  props : Props;
  cleanupAgents : option nat;
  cleanupFinal : option nat;
  mounted : bool;
  now : Z;
  timers : list Timer;
  nextId : nat
}.

Definition setShowAgents (v : bool) (s : State) : State :=
  {| showAgents := v; showFinal := showFinal s; props := props s;
     cleanupAgents := cleanupAgents s; cleanupFinal := cleanupFinal s;
     mounted := mounted s; now := now s; timers := timers s; nextId := nextId s |}.

Definition setShowFinal (v : bool) (s : State) : State :=
  {| showAgents := showAgents s; showFinal := v; props := props s;
     cleanupAgents := cleanupAgents s; cleanupFinal := cleanupFinal s;
     mounted := mounted s; now := now s; timers := timers s; nextId := nextId s |}.

Definition setTimeout (cb : Callback) (ms : Z) (s : State) : nat * State :=
  (nextId s,
   {| showAgents := showAgents s; showFinal := showFinal s; props := props s;
      cleanupAgents := cleanupAgents s; cleanupFinal := cleanupFinal s;
      mounted := mounted s; now := now s;
      timers := {| tid := nextId s; armedAt := now s; delay := ms; callback := cb |}
                :: timers s;
      nextId := S (nextId s) |}).

Definition clearTimeout (id : nat) (s : State) : State :=
  {| showAgents := showAgents s; showFinal := showFinal s; props := props s;
     cleanupAgents := cleanupAgents s; cleanupFinal := cleanupFinal s;
     mounted := mounted s; now := now s;
     timers := filter (fun t => negb (Nat.eqb (tid t) id)) (timers s);
     nextId := nextId s |}.

Definition with_cleanups (a f : option nat) (s : State) : State :=
  {| showAgents := showAgents s; showFinal := showFinal s; props := props s;
     cleanupAgents := a; cleanupFinal := f;
     mounted := mounted s; now := now s; timers := timers s; nextId := nextId s |}.

Definition with_props (p : Props) (s : State) : State :=
  {| showAgents := showAgents s; showFinal := showFinal s; props := p;
     cleanupAgents := cleanupAgents s; cleanupFinal := cleanupFinal s;
     mounted := mounted s; now := now s; timers := timers s; nextId := nextId s |}.

Definition is_complete (st : Api.Status) : bool :=
  match st with
  | Api.Complete => true
  | Api.Processing | Api.Failed => false
  end.

(** Run a clean-up: [() => clearTimeout(timer)], or nothing. *)
Definition run_cleanup (c : option nat) (s : State) : State :=
  match c with
  | Some timer => clearTimeout timer s
  | None => s
  end.

(** [Object.is] on the [result] dependency. *)
Definition same_result (a b : option Ref) : bool :=
  match a, b with
  | None, None => true
  | Some x, Some y => Nat.eqb x y
  | _, _ => false
  end.

Definition run_callback (cb : Callback) (s : State) : State :=
  match cb with
  | ShowAgents => setShowAgents true s
  | ShowFinal => setShowFinal true s
  end.

Definition due (t : Timer) : Z := (armedAt t + delay t)%Z.

Definition advance (t : Z) (s : State) : State :=
  {| showAgents := showAgents s; showFinal := showFinal s; props := props s;
     cleanupAgents := cleanupAgents s; cleanupFinal := cleanupFinal s;
     mounted := mounted s; now := t; timers := timers s; nextId := nextId s |}.

(** The component leaves the page: both clean-ups run. *)
Definition unmount (s : State) : State :=
  let s1 := run_cleanup (cleanupFinal s) (run_cleanup (cleanupAgents s) s) in
  {| showAgents := showAgents s1; showFinal := showFinal s1; props := props s1;
     cleanupAgents := None; cleanupFinal := None;
     mounted := false; now := now s1; timers := timers s1; nextId := nextId s1 |}.

Inductive Event : Type :=
| Render (p : Props)
| Elapse (t : Z)
| Fire (id : nat)
| Unmount.

(** What the hook's [handleGenerate] makes of the props when a request
    starts: [setIsGenerating(true)], [setResult(null)]. *)
Definition requestStarted (pr : Q) : Props :=
  {| isGenerating := true; result := None; progress := pr |}.

Section WithHeap.

(** The response each reference stands for. *)
Variable heap : Ref -> Api.EmailGenerationResponse.

(** The first effect, on [isGenerating]; the clean-up it returns. *)
Definition effectAgents (p : Props) (s : State) : option nat * State :=
  if isGenerating p then
    let s1 := setShowAgents false s in
    let s2 := setShowFinal false s1 in
    let (timer, s3) := setTimeout ShowAgents 300 s2 in
    (Some timer, s3)
  else (None, s).

(** The second effect, on [result]; the clean-up it returns. *)
Definition effectFinal (p : Props) (s : State) : option nat * State :=
  match result p with
  | Some r =>
      if is_complete (Api.status (heap r)) then
        let (timer, s1) := setTimeout ShowFinal 600 s in
        (Some timer, s1)
      else (None, s)
  | None => (None, s)
  end.

(** The first render of a new instance, at time [t]: both effects run. *)
Definition mount (p : Props) (t : Z) : State :=
  let s0 := {| showAgents := false; showFinal := false; props := p;
               cleanupAgents := None; cleanupFinal := None;
               mounted := true; now := t; timers := []; nextId := 1 |} in
  let (ca, s1) := effectAgents p s0 in
  let (cf, s2) := effectFinal p s1 in
  with_cleanups ca cf s2.

(** A later render with props [p]: of the effects whose dependency changed,
    first the clean-ups of their previous run, then the effects. *)
Definition render (p : Props) (s : State) : State :=
  let changedA := negb (Bool.eqb (isGenerating (props s)) (isGenerating p)) in
  let changedF := negb (same_result (result (props s)) (result p)) in
  let s1 := if changedA then run_cleanup (cleanupAgents s) s else s in
  let s2 := if changedF then run_cleanup (cleanupFinal s) s1 else s1 in
  let (ca, s3) := if changedA then effectAgents p s2 else (cleanupAgents s, s2) in
  let (cf, s4) := if changedF then effectFinal p s3 else (cleanupFinal s, s3) in
  with_props p (with_cleanups ca cf s4).

(** One event; [None] where it cannot happen: only a mounted component
    renders or unmounts, time does not go back, and only a pending timer that
    is due fires (once: a timeout leaves the list). *)
Definition step (e : Event) (s : State) : option State :=
  match e with
  | Render p => if mounted s then Some (render p s) else None
  | Unmount => if mounted s then Some (unmount s) else None
  | Elapse t => if (now s <=? t)%Z then Some (advance t s) else None
  | Fire id =>
      match find (fun t => Nat.eqb (tid t) id) (timers s) with
      | Some t =>
          if (due t <=? now s)%Z
          then Some (run_callback (callback t) (clearTimeout id s))
          else None
      | None => None
      end
  end.

Fixpoint run (es : list Event) (s : State) : option State :=
  match es with
  | [] => Some s
  | e :: es' =>
      match step e s with
      | Some s' => run es' s'
      | None => None
      end
  end.

(** The states a component instance can be in. *)
Inductive reachable : State -> Prop :=
| reach_mount : forall p t, reachable (mount p t)
| reach_step : forall s e s', reachable s -> step e s = Some s' -> reachable s'.

(** Every pending timer belongs to the props of the last render: a pending
    [ShowAgents] timer is the one the first effect's clean-up would clear,
    was armed for 300 ms, and [isGenerating] is set; a pending [ShowFinal]
    timer is the one the second effect's clean-up would clear, was armed for
    600 ms, and the result is a complete one. *)
Definition current (s : State) : Prop :=
  forall t, In t (timers s) ->
    match callback t with
    | ShowAgents =>
        cleanupAgents s = Some (tid t) /\ delay t = 300%Z /\
        isGenerating (props s) = true
    | ShowFinal =>
        cleanupFinal s = Some (tid t) /\ delay t = 600%Z /\
        exists r, result (props s) = Some r /\
                  Api.status (heap r) = Api.Complete
    end.

End WithHeap.

End Canvas.

(* ================================================================== *)
(** * Properties of the text functions, as the specification words them *)
(* ================================================================== *)

Module TextSpec.
Import Js Text Json Wrapper.

(** Equal up to the case of ASCII letters. *)
Definition ci_eq (a b : jsstring) : Prop := map canon a = map canon b.

(** Only white space. *)
Definition all_space (w : jsstring) : Prop :=
  Forall (fun c => isWhiteSpace c = true) w.

(** [s] has neither leading nor trailing white space. *)
Definition trimmed (s : jsstring) : Prop :=
  (forall c r, s = c :: r -> isWhiteSpace c = false) /\
  (forall c r, s = r ++ [c] -> isWhiteSpace c = false).

Definition is_open (o : jsstring) : Prop := ci_eq o open_tag.
Definition is_close (c : jsstring) : Prop := ci_eq c close_tag.

(** A span starts at position [p] of [s] and is [n] code units long: an
    opening tag there, and the first closing tag after it (the shortest
    span: non-greedy). *)
Definition span_at (s : jsstring) (p n : nat) : Prop :=
  exists a o x c b,
    s = a ++ o ++ x ++ c ++ b /\
    length a = p /\
    is_open o /\ is_close c /\
    n = length (o ++ x ++ c) /\
    (forall x' c' b',
        x ++ c ++ b = x' ++ c' ++ b' -> is_close c' ->
        (length x <= length x')%nat).

(** [r] is [s] with every span removed, from left to right: the leftmost
    span goes, and the rest after it is treated the same way. *)
Inductive Stripped : jsstring -> jsstring -> Prop :=
| stripped_none : forall s,
    (forall p n, ~ span_at s p n) ->
    Stripped s s
| stripped_span : forall a m b b',
    span_at (a ++ m ++ b) (length a) (length m) ->
    (forall p n, span_at (a ++ m ++ b) p n -> (length a <= p)%nat) ->
    Stripped b b' ->
    Stripped (a ++ m ++ b) (a ++ b').

(** [s] ends with a closing fence: three backticks, then only white
    space. *)
Definition ends_with_fence (s : jsstring) : Prop :=
  exists r w, s = r ++ fence ++ w /\ all_space w.

(** [s] without one trailing line feed, if it has one. *)
Fixpoint chop_lf (s : jsstring) : jsstring :=
  match s with
  | [] => []
  | [c] => if (c =? LF)%N then [] else [c]
  | c :: s' => c :: chop_lf s'
  end.

(** ** Sample texts *)

(** What the [catch] branch of [parseJsonWrapper] returns. *)
Definition fallback (content : jsstring) : Parsed :=
  {| email := Some (JString (stripMarkdownCodeBlocks content));
     reasoning := None;
     parsed := false |}.

(** A text that is no JSON and has no fence. *)
Definition plain_text : jsstring := lit "plain text, no fences".

(** The text of the specification's example: a fenced object with the two
    fields. *)
Definition fenced_example : jsstring :=
  lit "```json" ++ [LF]
  ++ lit "{" ++ [dquote] ++ lit "final_email" ++ [dquote] ++ lit ":"
  ++ [dquote] ++ lit "Hi" ++ [dquote] ++ lit ","
  ++ [dquote] ++ lit "reasoning" ++ [dquote] ++ lit ":"
  ++ [dquote] ++ lit "why" ++ [dquote] ++ lit "}"
  ++ [LF] ++ lit "```".

(** The object between its fences. *)
Definition example_body : jsstring :=
  lit "{" ++ [dquote] ++ lit "final_email" ++ [dquote] ++ lit ":"
  ++ [dquote] ++ lit "Hi" ++ [dquote] ++ lit ","
  ++ [dquote] ++ lit "reasoning" ++ [dquote] ++ lit ":"
  ++ [dquote] ++ lit "why" ++ [dquote] ++ lit "}".

(** The regular expression does not match at position [i] of [s]. *)
Definition no_match_from (s : jsstring) (i : nat) : bool :=
  match match_think (skipn i s) with
  | Some _ => false
  | None => true
  end.

(** An opening tag that is never closed. *)
Definition untagged_text : jsstring := lit "  <think> never closed, no span  ".

End TextSpec.

(* ================================================================== *)
(** * Properties of the hook, as the specification words them *)
(* ================================================================== *)

Module HookSpec.
Import Js Hook.

(** The worlds the hook can be in. *)
Inductive reachable : World -> Prop :=
| reach_initial : reachable initial
| reach_step : forall w e w', reachable w -> step e w = Some w' -> reachable w'.

(** An event of the environment (the clock, a timer, the network), as
    opposed to a call of one of the hook's actions. *)
Definition environment (e : Event) : bool :=
  match e with
  | Elapse _ | Fire _ | ResponseSettled _ _ | BodySettled _ _ => true
  | SetJobUrl _ | FileChange _ | Clear | Generate => false
  end.

(** Any event but [clear()] and [submit()]. *)
Definition passive (e : Event) : bool :=
  match e with
  | Clear | Generate => false
  | _ => true
  end.

Definition is_abort (t : Timer) : bool :=
  match callback t with
  | AbortRequest _ => true
  | TrackProgress _ | ShowComplete => false
  end.

Definition is_complete (t : Timer) : bool :=
  match callback t with
  | ShowComplete => true
  | AbortRequest _ | TrackProgress _ => false
  end.

(** No request is in flight: no call is suspended and no progress or
    completion timer is pending (an abort timer may be left over). *)
Definition quiet (w : World) : bool :=
  match awaiting (loop w) with
  | [] => forallb is_abort (timers (loop w))
  | _ :: _ => false
  end.

(** Timer identifiers are positive, distinct, and below the next fresh
    one. *)
Definition fresh_ids (w : World) : Prop :=
  (0 < nextId (loop w))%nat /\
  NoDup (map tid (timers (loop w))) /\
  Forall (fun t => (tid t < nextId (loop w))%nat) (timers (loop w)).

(** Every controller an abort timer names, and every aborted one, was made
    before: its identifier is below the next fresh one. *)
Definition known_controllers (w : World) : Prop :=
  Forall (fun t => match callback t with
                   | AbortRequest c => (c < nextId (loop w))%nat
                   | TrackProgress _ | ShowComplete => True
                   end) (timers (loop w)) /\
  Forall (fun c => (c < nextId (loop w))%nat) (aborted (loop w)).


(** The same on a list that has the latest value first. *)
Fixpoint descending (d : list Q) : Prop :=
  match d with
  | [] => True
  | a :: r => hd a r <= a /\ descending r
  end.

(** What the progress, the timers and the suspended calls of a world are:
    the values emitted, the current progress, the suspended calls, the
    timers, the clock, [isGenerating], the result, the next identifier, the
    aborted controllers. *)
Definition view (w : World) :=
  (shown (trace w), progress (hook w), awaiting (loop w), timers (loop w),
   now (loop w), isGenerating (hook w), result (hook w), nextId (loop w),
   aborted (loop w)).

(** The timers once timer [id] ran: an interval is armed again at [at_], a
    timeout is dropped. *)
Definition rescheduled (id : nat) (rep : bool) (at_ : Z) (ts : list Timer) : list Timer :=
  if rep then map (fun u => if has_id id u then rearm u at_ else u) ts
  else filter (fun u => negb (Nat.eqb (tid u) id)) ts.

(** A request's lifetime, from its [submit()] in a world that had emitted
    [s0]: the call is suspended at the response, or at the body, or it
    succeeded and the completion timer is pending, or that timer ran, or it
    failed. [d] holds the values emitted since the initial 0, latest
    first. *)
Inductive lifetime (s0 : list Q) (w : World) : Prop :=
| lt_sending : forall d c tmo iv start,
    shown (trace w) = d ++ 0 :: s0 ->
    descending (d ++ [0]) ->
    progress (hook w) = hd 0 (d ++ [0]) ->
    awaiting (loop w) = [AwaitResponse c tmo iv] ->
    iv <> 0%nat ->
    Forall (fun t => is_abort t = true \/
                     (tid t = iv /\ callback t = TrackProgress start))
           (timers (loop w)) ->
    (start <= now (loop w))%Z ->
    progress (hook w) <= calculatedProgress (now (loop w) - start) ->
    isGenerating (hook w) = true ->
    result (hook w) = None ->
    lifetime s0 w
| lt_decoding : forall d c iv,
    shown (trace w) = d ++ 0 :: s0 ->
    descending (d ++ [0]) ->
    progress (hook w) = hd 0 (d ++ [0]) ->
    awaiting (loop w) = [AwaitJson c iv] ->
    iv <> 0%nat ->
    forallb is_abort (timers (loop w)) = true ->
    progress (hook w) = PARSING ->
    isGenerating (hook w) = true ->
    result (hook w) = None ->
    lifetime s0 w
| lt_completing : forall d data t,
    shown (trace w) = d ++ 0 :: s0 ->
    descending (d ++ [0]) ->
    progress (hook w) = hd 0 (d ++ [0]) ->
    awaiting (loop w) = [] ->
    In t (timers (loop w)) ->
    callback t = ShowComplete ->
    repeating t = false ->
    Forall (fun u => is_abort u = true \/ u = t) (timers (loop w)) ->
    progress (hook w) = PRE_COMPLETE ->
    isGenerating (hook w) = false ->
    result (hook w) = Some data ->
    lifetime s0 w
| lt_completed : forall d data,
    shown (trace w) = d ++ 0 :: s0 ->
    descending (d ++ [0]) ->
    progress (hook w) = hd 0 (d ++ [0]) ->
    awaiting (loop w) = [] ->
    forallb is_abort (timers (loop w)) = true ->
    progress (hook w) = COMPLETE ->
    isGenerating (hook w) = false ->
    result (hook w) = Some data ->
    lifetime s0 w
| lt_failed : forall d,
    shown (trace w) = 0 :: d ++ 0 :: s0 ->
    descending (d ++ [0]) ->
    progress (hook w) = 0 ->
    awaiting (loop w) = [] ->
    forallb is_abort (timers (loop w)) = true ->
    isGenerating (hook w) = false ->
    result (hook w) = None ->
    lifetime s0 w.





(** ** Sample worlds *)

(** A PDF of 1000 bytes and a job URL. *)
Definition sample_pdf : File :=
  {| file_name := lit "cv.pdf"; file_type := lit "application/pdf";
     file_size := 1000 |}.

Definition sample_url : jsstring := lit "https://jobs.example/1".

(** A request in flight: the form is filled and [submit()] was called. *)
Definition in_flight_world : World :=
  match run [SetJobUrl sample_url; FileChange (Some sample_pdf); Generate] initial with
  | Some w => w
  | None => initial
  end.

(** A file of a type that is not accepted. *)
Definition text_file : File :=
  {| file_name := lit "notes.txt"; file_type := lit "text/plain"; file_size := 10 |}.

(** The error of a [fetch] that fails at the transport level, and the world
    after the request of [in_flight_world] (controller 1, abort timer 2,
    progress interval 3) was rejected with it. *)
Definition fetch_failed : Thrown := ErrorObj (lit "TypeError") (lit "Failed to fetch").


(** The abort timer of that request. *)
Definition abort_timer : Timer :=
  {| tid := 2; armedAt := 0; delay := REQUEST_TIMEOUT; repeating := false;
     callback := AbortRequest 1 |}.

(** [fresh_ids] and [known_controllers] on the timers, the aborted
    controllers and the next identifier of a world. *)
Definition fresh_timers (ts : list Timer) (n : nat) : Prop :=
  (0 < n)%nat /\ NoDup (map tid ts) /\ Forall (fun t => (tid t < n)%nat) ts.

Definition known (ts : list Timer) (ab : list nat) (n : nat) : Prop :=
  Forall (fun t => match callback t with
                   | AbortRequest c => (c < n)%nat
                   | TrackProgress _ | ShowComplete => True
                   end) ts /\
  Forall (fun c => (c < n)%nat) ab.

(** The form is filled; nothing was submitted yet. *)
Definition ready_world : World :=
  match run [SetJobUrl sample_url; FileChange (Some sample_pdf)] initial with
  | Some w => w
  | None => initial
  end.

(** A complete response with no agent draft. *)
Definition sample_ui : Api.UIMetadata :=
  {| Api.color := lit "#fff"; Api.position := Api.Center; Api.emoji := lit "*" |}.

Definition sample_response : Api.EmailGenerationResponse :=
  {| Api.request_id := lit "r1";
     Api.status := Api.Complete;
     Api.created_at := lit "2025-01-01";
     Api.inputs :=
       {| Api.resume_text := lit "cv"; Api.job_description := lit "job";
          Api.job_url := sample_url;
          Api.job_metadata :=
            {| Api.title := lit "Engineer"; Api.company := lit "Acme";
               Api.location := None |} |};
     Api.agent_drafts := [];
     Api.aggregation :=
       {| Api.final_email := lit "Hi"; Api.reasoning := lit "why";
          Api.metadata := {| Api.word_count := 1; Api.generation_time_ms := 10;
                             Api.quality_score := 9 |};
          Api.ui_metadata := sample_ui |} |}.

(** The world after a request from [ready_world] succeeded and its
    completion timer ran. *)
Definition succeeded_world : World :=
  match run [Generate; ResponseSettled 1 (Fulfilled true);
             BodySettled 1 (Decoded sample_response); Elapse 300; Fire 4]
            ready_world with
  | Some w => w
  | None => initial
  end.

End HookSpec.

(* ================================================================== *)
(** * Sample states of the staged reveal *)
(* ================================================================== *)

Module CanvasSpec.
Import Js Canvas.

(** Every reference stands for the same complete response. *)
Definition sample_heap (r : Ref) : Api.EmailGenerationResponse :=
  HookSpec.sample_response.

(** A request starts at time 0, the agents appear after 300 ms, the result
    (reference 7) arrives at that time, and 600 ms later the final timer is
    due. *)
Definition revealing_state : State :=
  match run sample_heap
          [Elapse 300; Fire 1;
           Render {| isGenerating := false; result := Some 7%nat; progress := 95 |};
           Elapse 900]
          (mount sample_heap (requestStarted 0) 0) with
  | Some s => s
  | None => mount sample_heap (requestStarted 0) 0
  end.

End CanvasSpec.

(* ================================================================== *)
(** * components/AgentCard.tsx, components/FinalEmailCard.tsx *)
(* ================================================================== *)

Module Cards.
Import Js Text Json.

(** ** AgentCard *)

(** What the card shows in place of the draft. *)
Inductive CardBody : Type :=
| Loader
| FailureNotice
| DraftText (text : jsstring).

(** The parts of the card that depend on the draft: the arguments its copy
    button passes to [copyToClipboard] (the text and the label; [None] when
    there is no button), the body, and whether the metadata badges are
    there. *)
Record CardView : Type := {
  copyButton : option (jsstring * jsstring);
  body : CardBody;
  badges : bool
}.

Definition AgentCard (draft : Api.AgentDraft) (isGenerating : bool) : CardView :=
  let cleanDraft := removeThinkTags (Api.draft draft) in
  let handleCopy := (cleanDraft, Api.agent_name draft ++ lit " draft") in
  {| copyButton :=
       match Api.agent_status draft with
       | Api.Complete => Some handleCopy
       | Api.Processing | Api.Failed => None
       end;
     body :=
       if isGenerating
          || match Api.agent_status draft with
             | Api.Processing => true
             | Api.Complete | Api.Failed => false
             end
       then Loader
       else match Api.agent_status draft with
            | Api.Failed => FailureNotice
            | Api.Complete | Api.Processing => DraftText cleanDraft
            end;
     badges :=
       match Api.agent_status draft with
       | Api.Complete => true
       | Api.Processing | Api.Failed => false
       end |}.

(** ** FinalEmailCard *)

Section WithNumbers.

(** Whether a number of a JSON text is zero once it is read as a double.
    The platform decides (a lexeme such as 1e-400 underflows to 0); nothing
    below depends on how. *)
Variable isZero : jsstring -> bool.





End WithNumbers.

End Cards.

(* ================================================================== *)
(** * components/CanvasFlow.tsx: what a render shows *)
(* ================================================================== *)

Module CanvasView.
Import Js Json.

(** [a < b] and [a >= b] on numbers. *)
Definition lt (a b : Q) : bool := negb (Qle_bool b a).
Definition ge (a b : Q) : bool := Qle_bool b a.

(** [{cond && 'text'}]: the text when the condition holds; React renders
    nothing for [false]. *)
Definition shows (cond : bool) (text : jsstring) : list jsstring :=
  if cond then [text] else [].

(** [progress < 100 ? 'Processing' : 'Complete']. *)
Definition progressHeader (progress : Q) : jsstring :=
  if lt progress 100 then lit "Processing" else lit "Complete".

(** The five conditional texts of the status line, in source order. *)
Definition statusMessage (progress : Q) : list jsstring :=
  shows (lt progress 30) (lit "Analyzing resume & job description...")
  ++ shows (ge progress 30 && lt progress 60)
           (lit "Agents crafting personalized emails...")
  ++ shows (ge progress 60 && lt progress 90) (lit "Synthesizing final output...")
  ++ shows (ge progress 90 && lt progress 100) (lit "Almost there...")
  ++ shows (Qeq_bool progress 100) (lit "Generation complete!").

(** An object is truthy, [null] is not. *)
Definition isSome {A} (o : option A) : bool :=
  match o with Some _ => true | None => false end.

(** [if (!isGenerating && !result) return null]. *)
Definition rendersNothing (isGenerating : bool)
    (result : option Api.EmailGenerationResponse) : bool :=
  negb isGenerating && negb (isSome result).

(** [useMemo(() => result?.agent_drafts || [], [result])]: an array is
    truthy, so the empty list stands in only for a missing result. *)
Definition agents (result : option Api.EmailGenerationResponse) : list Api.AgentDraft :=
  match result with
  | Some r => Api.agent_drafts r
  | None => []
  end.

(** The grid: one [AgentCard] per draft, with
    [isGenerating={isGenerating && !result}]. *)
Definition agentGrid (isGenerating : bool)
    (result : option Api.EmailGenerationResponse) : list Cards.CardView :=
  map (fun draft => Cards.AgentCard draft (isGenerating && negb (isSome result)))
      (agents result).

Section WithNumbers.

Variable isZero : jsstring -> bool.


End WithNumbers.

End CanvasView.

(* ================================================================== *)
(** * hooks/useCopyToClipboard.ts *)
(* ================================================================== *)

Module Clipboard.
Import Js.

Definition RESET_DELAY : Z := 2000.

(** The [TypeError] of reading [writeText] of an undefined
    [navigator.clipboard]. *)
Definition noClipboard : Thrown :=
  ErrorObj (lit "TypeError") (lit "Cannot read properties of undefined").

(** [label ? `${label} copied successfully` : "Content copied successfully"]
    in the notice; the notice has no variant of its own. *)
Definition copiedToast (label : option jsstring) : Hook.Toast :=
  {| Hook.toast_title := lit "Copied to clipboard";
     Hook.toast_description :=
       match label with
       | Some l => if truthy l then l ++ lit " copied successfully"
                   else lit "Content copied successfully"
       | None => lit "Content copied successfully"
       end;
     Hook.variant := Hook.Default |}.

(** A pending [setTimeout(() => setCopied(false), RESET_DELAY)]. *)
Record Timer : Type := {
  tid : nat;
  armedAt : Z
}.

Definition due (t : Timer) : Z := (armedAt t + RESET_DELAY)%Z.

Section WithText.

(** What callers hand over as [text]. *)
Variable V : Type.

(** Whether [navigator.clipboard] is defined (a secure context). *)
Variable secureContext : bool.

(** The hook's [copied] value, the texts handed to [writeText] and the
    notices (latest first), the clock and the pending timers. *)
Record State : Type := {
  copied : bool;
  written : list V;
  toasts : list Hook.Toast;
  now : Z;
  timers : list Timer;
  nextId : nat
}.

(** The promise [writeText] returns is dropped: whether the write succeeds
    has no effect on what follows. *)
Definition copyToClipboard (text : V) (label : option jsstring) (s : State)
  : Completion unit * State :=
  if secureContext then
    (Normal tt,
     {| copied := true;
        written := text :: written s;
        toasts := copiedToast label :: toasts s;
        now := now s;
        timers := {| tid := nextId s; armedAt := now s |} :: timers s;
        nextId := S (nextId s) |})
  else (Throw noClipboard, s).

Inductive Event : Type :=
| Copy (text : V) (label : option jsstring)
| Elapse (t : Z)
| Fire (id : nat).

(** One event; [None] where it cannot happen: time does not go back and only
    a pending timer that is due fires. *)
Definition step (e : Event) (s : State) : option State :=
  match e with
  | Copy text label => Some (snd (copyToClipboard text label s))
  | Elapse t =>
      if (now s <=? t)%Z
      then Some {| copied := copied s; written := written s; toasts := toasts s;
                   now := t; timers := timers s; nextId := nextId s |}
      else None
  | Fire id =>
      match find (fun t => Nat.eqb (tid t) id) (timers s) with
      | Some t =>
          if (due t <=? now s)%Z
          then Some {| copied := false; written := written s; toasts := toasts s;
                       now := now s;
                       timers := filter (fun u => negb (Nat.eqb (tid u) id)) (timers s);
                       nextId := nextId s |}
          else None
      | None => None
      end
  end.

Fixpoint run (es : list Event) (s : State) : option State :=
  match es with
  | [] => Some s
  | e :: es' =>
      match step e s with
      | Some s' => run es' s'
      | None => None
      end
  end.

(** The hook of a component that was just mounted, at time [t]. *)
Definition initial (t : Z) : State :=
  {| copied := false; written := []; toasts := []; now := t; timers := [];
     nextId := 1 |}.

Inductive reachable : State -> Prop :=
| reach_initial : forall t, reachable (initial t)
| reach_step : forall s e s', reachable s -> step e s = Some s' -> reachable s'.

(** What holds of the hook: [copied] is set only while a timer is pending;
    the timers' identifiers are distinct and below the next fresh one; and
    without a clipboard nothing was ever written or shown. *)
Definition clip_inv (s : State) : Prop :=
  (copied s = true -> timers s <> []) /\
  NoDup (map tid (timers s)) /\
  Forall (fun t => (tid t < nextId s)%nat) (timers s) /\
  (secureContext = false -> copied s = false /\ written s = [] /\ toasts s = []).

(** One copy at the start, and [t] ms later: its reset timer is pending. *)
Definition twice_copied (text : V) (t : Z) : State :=
  match run [Copy text None; Elapse t] (initial 0) with
  | Some s => s
  | None => initial 0
  end.

End WithText.

End Clipboard.

(* ================================================================== *)
(** * pages/Index.tsx: which actions the page offers *)
(* ================================================================== *)

Module Page.
Import Js Hook.

(** [{!result && (...)}]: the form with the two inputs and the two
    buttons. *)
Definition formShown (h : HookState) : bool :=
  negb (CanvasView.isSome (result h)).

(** The Clear button: [disabled={isGenerating}]. *)
Definition clearEnabled (h : HookState) : bool := negb (isGenerating h).

(** The Generate button: [disabled={isGenerating || !jobUrl || !resume}]. *)
Definition generateEnabled (h : HookState) : bool :=
  negb (isGenerating h || negb (truthy (jobUrl h))
        || negb (CanvasView.isSome (resume h))).

(** [{(isGenerating || result) && <CanvasFlow ... />}]. *)
Definition canvasShown (h : HookState) : bool :=
  isGenerating h || CanvasView.isSome (result h).

(** The props the page hands to [CanvasFlow]. *)
Definition canvasProps (h : HookState)
  : bool * option Api.EmailGenerationResponse * Q :=
  (isGenerating h, result h, progress h).

(** Whether the page lets an event through: an input or a button acts only
    while it is rendered and enabled; the clock, the timers and the network
    are not the page's to hold back. *)
Definition offered (w : World) (e : Event) : bool :=
  match e with
  | SetJobUrl _ | FileChange _ => formShown (hook w)
  | Clear => formShown (hook w) && clearEnabled (hook w)
  | Generate => formShown (hook w) && generateEnabled (hook w)
  | Elapse _ | Fire _ | ResponseSettled _ _ | BodySettled _ _ => true
  end.

Definition step (e : Event) (w : World) : option World :=
  if offered w e then Hook.step e w else None.

Fixpoint run (es : list Event) (w : World) : option World :=
  match es with
  | [] => Some w
  | e :: es' =>
      match step e w with
      | Some w' => run es' w'
      | None => None
      end
  end.

(** The worlds the hook can be in when it is driven through the page. *)
Inductive reachable : World -> Prop :=
| reach_initial : reachable initial
| reach_step : forall w e w', reachable w -> step e w = Some w' -> reachable w'.

End Page.

(* ================================================================== *)
(** * Shapes of texts *)
(* ================================================================== *)

Module TextShape.
Import Js Json.

(** [r] is [s] with some code units left out. *)
Inductive Subseq : jsstring -> jsstring -> Prop :=
| subseq_nil : Subseq [] []
| subseq_keep : forall c r s, Subseq r s -> Subseq (c :: r) (c :: s)
| subseq_drop : forall c r s, Subseq r s -> Subseq r (c :: s).

(** [r] is a contiguous piece of [s]. *)
Definition Infix (r s : jsstring) : Prop := exists a b, s = a ++ r ++ b.

(** Only JSON white space (tab, line feed, carriage return, space). *)
Definition json_space (w : jsstring) : Prop :=
  Forall (fun c => isJsonSpace c = true) w.

(** The two-character escapes of a JSON string: the character after the
    backslash and the code unit it stands for. *)
Definition short_escapes : list (N * N) :=
  [ (34, 34); (92, 92); (47, 47); (98, 8); (102, 12); (110, 10); (114, 13);
    (116, 9) ]%N.

(** [Literal l s]: between its quotes, the JSON string literal [l] denotes
    the string [s]. A code unit from 32 on other than the quote and the
    backslash stands for itself; a backslash starts a two-character escape
    or a [u] escape of four hexadecimal digits. *)
Inductive Literal : jsstring -> jsstring -> Prop :=
| literal_end : Literal [] []
| literal_raw : forall c l s,
    (32 <= c)%N -> c <> dquote -> c <> backslash ->
    Literal l s -> Literal (c :: l) (c :: s)
| literal_short : forall x v l s,
    In (x, v) short_escapes ->
    Literal l s -> Literal (backslash :: x :: l) (v :: s)
| literal_hex : forall h1 h2 h3 h4 d1 d2 d3 d4 l s,
    hex_value h1 = Some d1 -> hex_value h2 = Some d2 ->
    hex_value h3 = Some d3 -> hex_value h4 = Some d4 ->
    Literal l s ->
    Literal (backslash :: 117%N :: h1 :: h2 :: h3 :: h4 :: l)
            ((d1 * 4096 + d2 * 256 + d3 * 16 + d4)%N :: s).

Definition quoted (l : jsstring) : jsstring := dquote :: l ++ [dquote].

(** A code unit that stands for itself in a string literal. *)
Definition plain (c : N) : bool :=
  ((32 <=? c) && negb (c =? dquote) && negb (c =? backslash))%N.

(** What stands between the braces of an object with the two members the
    wrapper reads, their values given as string literals, with any JSON white
    space [g 0] to [g 7] between the tokens. *)
Definition wrapper_body (g : nat -> jsstring) (le lr : jsstring) : jsstring :=
  g 0%nat ++ quoted (lit "final_email") ++ g 1%nat ++ lit ":"
  ++ g 2%nat ++ quoted le ++ g 3%nat ++ lit "," ++ g 4%nat
  ++ quoted (lit "reasoning") ++ g 5%nat ++ lit ":" ++ g 6%nat ++ quoted lr
  ++ g 7%nat.

Definition wrapper_text (g : nat -> jsstring) (le lr : jsstring) : jsstring :=
  lit "{" ++ wrapper_body g le lr ++ lit "}".

(** [text] is [body] between the json fences: the opener in any case, white
    space, the body, an optional line feed, the closing fence, white
    space. *)
Definition Fenced (text body : jsstring) : Prop :=
  exists f w1 nl w2,
    TextSpec.ci_eq f Text.fence_json /\
    TextSpec.all_space w1 /\ TextSpec.all_space w2 /\
    (nl = [] \/ nl = [LF]) /\
    text = f ++ w1 ++ body ++ nl ++ Text.fence ++ w2.

(** [text] is a JSON encoding, fenced or not, of an object whose
    [final_email] is the string [e] and whose [reasoning] is the string
    [r]. *)
Definition Encoded (text e r : jsstring) : Prop :=
  exists g le lr,
    (forall i, json_space (g i)) /\ Literal le e /\ Literal lr r /\
    (text = wrapper_text g le lr \/ Fenced text (wrapper_text g le lr)).

(** What the wrapper makes of a text it cannot use: the cleaned text is
    empty. *)
Definition empty_fallback : Wrapper.Parsed :=
  {| Wrapper.email := Some (JString []); Wrapper.reasoning := None;
     Wrapper.parsed := false |}.

(** A text that still holds a span after one pass of [removeThinkTags]: the
    inner span goes and its neighbours close up into a new one. *)
Definition nested_think : jsstring := lit "<thi<think></think>nk>hidden</think>shown".

(** A literal with each kind of escape, and the string it denotes. *)
Definition sample_literal : jsstring :=
  lit "Hi" ++ [backslash] ++ lit "n" ++ [backslash] ++ lit "u00e9"
  ++ [backslash; dquote] ++ lit "!".
Definition sample_string : jsstring :=
  lit "Hi" ++ [10; 233; 34]%N ++ lit "!".

(** One space after each colon and comma, as a pretty-printer leaves
    them. *)
Definition sample_gaps (i : nat) : jsstring :=
  match i with
  | 2%nat | 4%nat | 6%nat => lit " "
  | _ => []
  end.

(** A response whose final e-mail came wrapped in a fenced JSON object. *)
Definition wrapped_email : jsstring :=
  lit "```json" ++ [LF] ++ wrapper_text sample_gaps sample_literal (lit "why")
  ++ [LF] ++ lit "```".


End TextShape.

(* ================================================================== *)
(** * What the hook keeps true *)
(* ================================================================== *)

Module HookInv.
Import Js Hook.

(** A file that passed [handleFileChange]: one of the two accepted types, at
    most 20 MiB. *)
Definition valid_file (f : File) : Prop :=
  In (file_type f) validTypes /\ (file_size f <= 20 * 1024 * 1024)%N.

(** A request as [handleGenerate] is meant to send it. *)
Definition well_formed (r : Request) : Prop :=
  req_url r = API_ENDPOINT /\ req_job_url r <> [] /\ valid_file (req_resume r).

Definition in_range (v : Q) : Prop := 0 <= v /\ v <= 100.

(** Every progress interval in [ts] was started at or before time [n]. *)
Definition started_before (n : Z) (ts : list Timer) : Prop :=
  Forall (fun t => match callback t with
                   | TrackProgress startTime => (startTime <= n)%Z
                   | AbortRequest _ | ShowComplete => True
                   end) ts.

(** The progress and every value emitted are in range, and the progress
    intervals were started in the past. *)
Definition range_inv (w : World) : Prop :=
  in_range (progress (hook w)) /\
  Forall in_range (shown (trace w)) /\
  started_before (now (loop w)) (timers (loop w)).

(** The stored document is a valid one and every request sent is well
    formed. *)
Definition form_inv (w : World) : Prop :=
  (forall f, resume (hook w) = Some f -> valid_file f) /\
  Forall well_formed (requests (trace w)).

(** [isGenerating] is set only while a call is suspended. *)
Definition busy_inv (w : World) : Prop :=
  isGenerating (hook w) = true -> awaiting (loop w) <> [].

(** The identifiers the suspended calls [ks] hold are those of timers made
    before [n]: positive and below it. *)
Definition held (n : nat) (ks : list Suspended) : Prop :=
  Forall (fun k => match k with
                   | AwaitResponse c tmo iv =>
                       (0 < tmo < n)%nat /\ (0 < iv < n)%nat /\ tmo <> iv
                   | AwaitJson c iv => (0 < iv < n)%nat
                   end) ks.

Definition held_ids (w : World) : Prop :=
  held (nextId (loop w)) (awaiting (loop w)).

(** While [isGenerating] is set there is no result. *)
Definition generating_inv (w : World) : Prop :=
  isGenerating (hook w) = true -> result (hook w) = None.

(** An abort timer of controller [c] in [ts] is the one-shot timer armed at
    [T] for [REQUEST_TIMEOUT]. *)
Definition abort_timers (c : nat) (T : Z) (ts : list Timer) : Prop :=
  Forall (fun t => callback t = AbortRequest c ->
                   armedAt t = T /\ delay t = REQUEST_TIMEOUT /\ repeating t = false)
         ts.

(** The controller [c] of a request submitted at time [T]: no later timer
    will name it, its abort timer is as it was armed, and it is aborted only
    once the time-out has passed. *)
Definition abort_inv (c : nat) (T : Z) (w : World) : Prop :=
  (c < nextId (loop w))%nat /\
  abort_timers c T (timers (loop w)) /\
  (In c (aborted (loop w)) -> (T + REQUEST_TIMEOUT <= now (loop w))%Z).

(** No timer of identifier [id] is pending, and none will get it. *)
Definition gone (id : nat) (w : World) : Prop :=
  find (has_id id) (timers (loop w)) = None /\ (id < nextId (loop w))%nat.

(** A DOCX of exactly 20 MiB. *)
Definition largest_docx : File :=
  {| file_name := lit "cv.docx";
     file_type :=
       lit "application/vnd.openxmlformats-officedocument.wordprocessingml.document";
     file_size := 20 * 1024 * 1024 |}.

End HookInv.

(* ================================================================== *)
(** * What the page keeps true *)
(* ================================================================== *)

Module PageInv.
Import Js Hook HookSpec.

(** Nothing is in flight and nothing is shown: the page is ready for a
    submit. *)
Definition idle (w : World) : Prop :=
  quiet w = true /\ result (hook w) = None /\ isGenerating (hook w) = false.

(** What holds of the hook behind the page: it is idle, or it is somewhere
    in the lifetime of one request. *)
Definition page_inv (w : World) : Prop :=
  fresh_ids w /\ (idle w \/ exists s0, lifetime s0 w).

(** The result is shown and no call is suspended. *)
Definition showing (data : Api.EmailGenerationResponse) (w : World) : Prop :=
  result (hook w) = Some data /\ isGenerating (hook w) = false /\
  awaiting (loop w) = [].

End PageInv.

(* ================================================================== *)
(** * Events of the staged reveal *)
(* ================================================================== *)

Module RevealSpec.
Import Js Canvas.

(** Any event but a render that sets [isGenerating]. *)
Definition not_generating (e : Event) : bool :=
  match e with
  | Render p => negb (isGenerating p)
  | Elapse _ | Fire _ | Unmount => true
  end.

(** A request starts at time 0 and 300 ms pass: the agents timer is due. *)
Definition agents_due_state : State :=
  match run CanvasSpec.sample_heap [Elapse 300]
          (mount CanvasSpec.sample_heap (requestStarted 0) 0) with
  | Some s => s
  | None => mount CanvasSpec.sample_heap (requestStarted 0) 0
  end.

End RevealSpec.


(* ================================================================== *)
(** * Facts about the hook *)
(* ================================================================== *)

Module HookFacts.
Import Js Hook HookSpec.
Local Open Scope hook_scope.

Ltac run_hook :=
  unfold handleFileChange, handleClear, handleGenerate, afterResponse, afterJson,
    inTry, catchBlock, finallyBlock, clearIfSet, suspend, trackProgress,
    startProgressTracking, run_callback, setTimeout, setInterval, arm, clearTimeout,
    clearInterval, clearTimer, newAbortController, abort, fetch, fresh, Date_now,
    toast, setJobUrl, setResume, setIsGenerating, setResult, setProgress,
    set_timers, set_awaiting, throw, modify, gets, mbind, ret,
    on_hook, on_loop, on_trace in *;
  cbn [fst snd hook loop trace jobUrl resume isGenerating result progress
       now timers awaiting aborted nextId toasts requests shown] in *.

Lemma includes_In (l : list jsstring) (x : jsstring) :
  includes l x = true <-> In x l.
Proof.
  unfold includes. rewrite existsb_exists. split.
  - intros [y [Hy E]]. unfold jsstring_eqb in E.
    destruct (list_eq_dec N.eq_dec x y); [subst; assumption | discriminate].
  - intros H. exists x. split; [assumption |].
    unfold jsstring_eqb. destruct (list_eq_dec N.eq_dec x x); congruence.
Qed.

(** ** Validation *)

(** Claim C8. A file whose media type is neither of the two accepted ones
    (PDF, DOCX) or whose size is above 20 MiB is rejected: [handleFileChange]
    returns normally, leaves the document and every other value of the hook
    as they were, starts nothing, and emits one destructive notice. *)
Theorem handleFileChange_rejects (file : File) (w : World) :
  ~ In (file_type file) validTypes \/ (20 * 1024 * 1024 < file_size file)%N ->
  let w' := snd (handleFileChange (Some file) w) in
  fst (handleFileChange (Some file) w) = Normal tt /\
  hook w' = hook w /\
  loop w' = loop w /\
  requests (trace w') = requests (trace w) /\
  shown (trace w') = shown (trace w) /\
  exists notice,
    toasts (trace w') = notice :: toasts (trace w) /\
    variant notice = Destructive /\
    (notice = invalidTypeToast \/ notice = tooLargeToast).
Proof.
  intros H. unfold handleFileChange.
  destruct (includes validTypes (file_type file)) eqn:Ety; cbn [negb].
  - destruct H as [H | H].
    + exfalso. apply H. apply includes_In. exact Ety.
    + apply N.ltb_lt in H. rewrite H. run_hook.
      repeat split. exists tooLargeToast. auto.
  - run_hook. repeat split. exists invalidTypeToast. auto.
Qed.

Lemma handleFileChange_rejects_witness :
  hook (snd (handleFileChange (Some text_file) initial)) = hook initial /\
  toasts (trace (snd (handleFileChange (Some text_file) initial))) = [invalidTypeToast].
Proof.
  assert (H : ~ In (file_type text_file) validTypes \/
              (20 * 1024 * 1024 < file_size text_file)%N).
  { left. intros [E | [E | []]]; vm_compute in E; discriminate. }
  destruct (handleFileChange_rejects text_file initial H) as (_ & Hh & _).
  split; [exact Hh | reflexivity].
Defined.

(** Claim C9. With an empty URL or no document, [handleGenerate] only emits
    the Missing information notice and returns: the hook's values, the
    timers and suspended calls, the network calls issued and the progress
    values emitted are all as before. *)
Theorem handleGenerate_missing_input (w : World) :
  jobUrl (hook w) = [] \/ resume (hook w) = None ->
  let w' := snd (handleGenerate w) in
  fst (handleGenerate w) = Normal tt /\
  hook w' = hook w /\
  loop w' = loop w /\
  requests (trace w') = requests (trace w) /\
  shown (trace w') = shown (trace w) /\
  toasts (trace w') = missingToast :: toasts (trace w).
Proof.
  intros H. unfold handleGenerate, gets, mbind.
  destruct (resume (hook w)) as [file |] eqn:Er.
  - destruct H as [H | H]; [| discriminate].
    rewrite H. cbn [truthy negb]. run_hook. repeat split.
  - run_hook. repeat split.
Qed.

Lemma handleGenerate_missing_input_witness :
  requests (trace (snd (handleGenerate initial))) = [] /\
  hook (snd (handleGenerate initial)) = hook initial /\
  toasts (trace (snd (handleGenerate initial))) = [missingToast].
Proof.
  assert (H : jobUrl (hook initial) = [] \/ resume (hook initial) = None)
    by (left; reflexivity).
  destruct (handleGenerate_missing_input initial H) as (_ & Hh & _ & Hreq & _ & Hto).
  exact (conj Hreq (conj Hh Hto)).
Defined.

(** ** Worlds in which nothing is in flight *)

Lemma forallb_is_abort_filter (f : Timer -> bool) (ts : list Timer) :
  forallb is_abort ts = true -> forallb is_abort (filter f ts) = true.
Proof.
  induction ts as [| t ts IH]; cbn; [reflexivity |].
  intros H. apply andb_true_iff in H. destruct H as [Ht Hts].
  destruct (f t); cbn; [rewrite Ht |]; auto.
Qed.

Lemma forallb_is_abort_rearm (id : nat) (at_ : Z) (ts : list Timer) :
  forallb is_abort ts = true ->
  forallb is_abort (map (fun u => if has_id id u then rearm u at_ else u) ts) = true.
Proof.
  induction ts as [| t ts IH]; cbn; [reflexivity |].
  intros H. apply andb_true_iff in H. destruct H as [Ht Hts].
  rewrite (IH Hts), andb_true_r.
  destruct (has_id id t); [unfold is_abort, rearm; cbn; exact Ht | exact Ht].
Qed.

Lemma find_forallb {A} (f g : A -> bool) (l : list A) (x : A) :
  find f l = Some x -> forallb g l = true -> g x = true.
Proof.
  intros Hf Hg. apply find_some in Hf. destruct Hf as [Hin _].
  rewrite forallb_forall in Hg. auto.
Qed.

(** In a quiet world an event of the environment changes nothing the hook
    returns, and the world stays quiet. *)
Lemma quiet_environment_step (e : Event) (w w' : World) :
  quiet w = true -> environment e = true -> step e w = Some w' ->
  quiet w' = true /\ hook w' = hook w /\ trace w' = trace w.
Proof.
  unfold quiet. intros Hq He Hs.
  destruct (awaiting (loop w)) as [| k ks] eqn:Ea; [| discriminate].
  destruct e; try discriminate; cbn [step] in Hs.
  - destruct (now (loop w) <=? t)%Z; [| discriminate].
    injection Hs as <-. unfold advance, on_loop; cbn. rewrite Ea. auto.
  - unfold fire in Hs.
    destruct (find (has_id id) (timers (loop w))) as [t |] eqn:Ef; [| discriminate].
    destruct (due t <=? now (loop w))%Z; [| discriminate].
    pose proof (find_forallb _ is_abort _ Ef Hq) as Hab.
    unfold is_abort in Hab.
    destruct (callback t) as [c | st |] eqn:Ecb; try discriminate.
    injection Hs as <-.
    destruct (repeating t); run_hook; rewrite Ea; repeat split.
    + apply forallb_is_abort_rearm; assumption.
    + apply forallb_is_abort_filter; assumption.
  - rewrite Ea in Hs. discriminate.
  - rewrite Ea in Hs. discriminate.
Qed.

Lemma quiet_environment_run (es : list Event) :
  forall w w',
    quiet w = true -> forallb environment es = true -> run es w = Some w' ->
    quiet w' = true /\ hook w' = hook w /\ trace w' = trace w.
Proof.
  induction es as [| e es IH]; intros w w' Hq He Hr; cbn in *.
  - injection Hr as <-. auto.
  - apply andb_true_iff in He. destruct He as [He Hes].
    destruct (step e w) as [w1 |] eqn:Es; [| discriminate].
    destruct (quiet_environment_step _ _ Hq He Es) as (Hq1 & Hh1 & Ht1).
    destruct (IH _ _ Hq1 Hes Hr) as (Hq' & Hh' & Ht').
    split; [assumption |]. split; congruence.
Qed.

(** ** clear() *)

Lemma run_reachable (es : list Event) :
  forall w w', reachable w -> run es w = Some w' -> reachable w'.
Proof.
  induction es as [| e es IH]; intros w w' Hw Hr; cbn in Hr.
  - injection Hr as <-. exact Hw.
  - destruct (step e w) as [w1 |] eqn:Es; [| discriminate].
    eapply IH; [eapply reach_step; eassumption | exact Hr].
Qed.

Lemma in_flight_world_reachable : reachable in_flight_world.
Proof.
  apply (run_reachable
           [SetJobUrl sample_url; FileChange (Some sample_pdf); Generate]
           reach_initial).
  vm_compute. reflexivity.
Qed.





(** ** Lists of timers and of suspended calls *)

Lemma find_filter_neg {A} (f : A -> bool) (l : list A) :
  find f (filter (fun x => negb (f x)) l) = None.
Proof.
  induction l as [| x l IH]; cbn; [reflexivity |].
  destruct (f x) eqn:E; cbn; [exact IH | rewrite E; exact IH].
Qed.

Lemma find_filter_keep {A} (f g : A -> bool) (l : list A) :
  (forall x, f x = true -> g x = true) ->
  find f (filter g l) = find f l.
Proof.
  intros H. induction l as [| x l IH]; cbn; [reflexivity |].
  destruct (g x) eqn:Eg; cbn.
  - destruct (f x); [reflexivity | exact IH].
  - destruct (f x) eqn:Ef; [| exact IH].
    apply H in Ef. congruence.
Qed.

Lemma find_has_id_cleared (id : nat) (ts : list Timer) :
  find (has_id id) (filter (fun t => negb (Nat.eqb (tid t) id)) ts) = None.
Proof. exact (find_filter_neg (has_id id) ts). Qed.

Lemma find_has_id_other (id id' : nat) (ts : list Timer) :
  id <> id' ->
  find (has_id id) (filter (fun t => negb (Nat.eqb (tid t) id')) ts)
  = find (has_id id) ts.
Proof.
  intros Hne. apply find_filter_keep. intros t Ht.
  unfold has_id in Ht. apply Nat.eqb_eq in Ht. rewrite Ht.
  apply negb_true_iff. apply Nat.eqb_neq. exact Hne.
Qed.

Lemma find_filter_none {A} (f g : A -> bool) (l : list A) :
  find f l = None -> find f (filter g l) = None.
Proof.
  induction l as [| x l IH]; cbn; [reflexivity |].
  destruct (f x) eqn:Ef; [discriminate |].
  intros H. destruct (g x); cbn; [rewrite Ef |]; auto.
Qed.

Lemma truthy_id_nonzero (id : nat) : id <> 0%nat -> truthy_id id = true.
Proof. intros H. unfold truthy_id. apply negb_true_iff, Nat.eqb_neq. exact H. Qed.

Lemma abort_only_after_clear (iv : nat) (ts : list Timer) :
  Forall (fun t => is_abort t = true \/ tid t = iv) ts ->
  forallb is_abort (filter (fun t => negb (Nat.eqb (tid t) iv)) ts) = true.
Proof.
  induction 1 as [| t ts Ht _ IH]; cbn; [reflexivity |].
  destruct (Nat.eqb (tid t) iv) eqn:E; cbn; [exact IH |].
  destruct Ht as [Ht | Ht]; [rewrite Ht; exact IH |].
  apply Nat.eqb_neq in E. contradiction.
Qed.

Lemma Forall_filter_keep {A} (P : A -> Prop) (f : A -> bool) (l : list A) :
  Forall P l -> Forall P (filter f l).
Proof.
  induction 1 as [| x l Hx _ IH]; cbn; [constructor |].
  destruct (f x); [constructor |]; assumption.
Qed.

(** In a quiet world an event other than [clear()] and [submit()] leaves the
    progress, the result and [isGenerating] as they are, and the world
    quiet. *)
Lemma quiet_passive_step (e : Event) (w w' : World) :
  quiet w = true -> passive e = true -> step e w = Some w' ->
  quiet w' = true /\ progress (hook w') = progress (hook w) /\
  result (hook w') = result (hook w) /\
  isGenerating (hook w') = isGenerating (hook w) /\
  shown (trace w') = shown (trace w).
Proof.
  intros Hq He Hs.
  destruct e; try discriminate.
  - cbn in Hs. injection Hs as <-. unfold quiet in *. run_hook. auto.
  - cbn [step] in Hs. injection Hs as <-. unfold quiet in *.
    unfold handleFileChange.
    destruct file0 as [file |]; [| run_hook; auto].
    destruct (negb (includes validTypes (file_type file))); [run_hook; auto |].
    destruct (20 * 1024 * 1024 <? file_size file)%N; run_hook; auto.
  - destruct (quiet_environment_step (Elapse t) _ Hq eq_refl Hs) as (H1 & H2 & H3).
    rewrite H2, H3. auto.
  - destruct (quiet_environment_step (Fire id) _ Hq eq_refl Hs) as (H1 & H2 & H3).
    rewrite H2, H3. auto.
  - destruct (quiet_environment_step (ResponseSettled controller r) _ Hq eq_refl Hs)
      as (H1 & H2 & H3).
    rewrite H2, H3. auto.
  - destruct (quiet_environment_step (BodySettled controller r) _ Hq eq_refl Hs)
      as (H1 & H2 & H3).
    rewrite H2, H3. auto.
Qed.


(** ** Failures of a request *)

Lemma find_awaits_response (c : nat) (ks : list Suspended) (k : Suspended) :
  find (awaits_response c) ks = Some k ->
  exists tmo iv, k = AwaitResponse c tmo iv.
Proof.
  intros H. apply find_some in H. destruct H as [_ H].
  destruct k as [c' tmo iv | c' iv]; cbn in H; [| discriminate].
  apply Nat.eqb_eq in H. subst. eauto.
Qed.

Lemma find_awaits_json (c : nat) (ks : list Suspended) (k : Suspended) :
  find (awaits_json c) ks = Some k ->
  exists iv, k = AwaitJson c iv.
Proof.
  intros H. apply find_some in H. destruct H as [_ H].
  destruct k as [c' tmo iv | c' iv]; cbn in H; [discriminate |].
  apply Nat.eqb_eq in H. subst. eauto.
Qed.

(** The world after a rejection of the response. *)
Lemma rejected_world (w : World) (c tmo iv : nat) (e : Thrown) :
  find (awaits_response c) (awaiting (loop w)) = Some (AwaitResponse c tmo iv) ->
  iv <> 0%nat ->
  exists w',
    step (ResponseSettled c (Rejected e)) w = Some w' /\
    timers (loop w') = filter (fun t => negb (Nat.eqb (tid t) iv)) (timers (loop w)) /\
    awaiting (loop w')
    = filter (fun k => negb (awaits_response c k)) (awaiting (loop w)) /\
    aborted (loop w') = aborted (loop w) /\
    now (loop w') = now (loop w) /\
    progress (hook w') = 0 /\
    isGenerating (hook w') = false /\
    result (hook w') = result (hook w) /\
    toasts (trace w') = failureToast e :: toasts (trace w) /\
    shown (trace w') = 0 :: shown (trace w).
Proof.
  intros Hf Hiv. cbn [step]. rewrite Hf. eexists. split; [reflexivity |].
  unfold afterResponse, inTry, catchBlock, clearIfSet.
  rewrite (truthy_id_nonzero Hiv). run_hook. repeat split.
Qed.



(** The world after the abort timer of a request fired. *)
Lemma abort_fired_world (w : World) (tmo c : nat) (t : Timer) (w' : World) :
  find (has_id tmo) (timers (loop w)) = Some t ->
  callback t = AbortRequest c ->
  repeating t = false ->
  step (Fire tmo) w = Some w' ->
  (due t <= now (loop w))%Z /\
  timers (loop w') = filter (fun u => negb (Nat.eqb (tid u) tmo)) (timers (loop w)) /\
  awaiting (loop w') = awaiting (loop w) /\
  aborted (loop w') = c :: aborted (loop w) /\
  hook w' = hook w /\
  trace w' = trace w.
Proof.
  intros Hf Hcb Hrep. cbn [step]. unfold fire. rewrite Hf, Hcb, Hrep.
  destruct (due t <=? now (loop w))%Z eqn:Ed; [| discriminate].
  intros H. injection H as <-. apply Z.leb_le in Ed.
  run_hook. repeat split. exact Ed.
Qed.

(** Once its signal is aborted, a [fetch] cannot fulfil any more. *)
Lemma aborted_fetch_cannot_fulfil (w : World) (c : nat) (ok : bool) :
  In c (aborted (loop w)) ->
  step (ResponseSettled c (Fulfilled ok)) w = None.
Proof.
  intros Hin. cbn [step].
  destruct (find (awaits_response c) (awaiting (loop w))) as [[c' tmo iv | c' iv] |];
    try reflexivity.
  assert (E : existsb (Nat.eqb c) (aborted (loop w)) = true).
  { apply existsb_exists. exists c. split; [exact Hin | apply Nat.eqb_refl]. }
  rewrite E. reflexivity.
Qed.





Lemma in_flight_world_awaits :
  find (awaits_response 1) (awaiting (loop in_flight_world)) = Some (AwaitResponse 1 2 3).
Proof. vm_compute. reflexivity. Qed.




(** ** The abort timer after a transport failure *)

(** Claim C10. While a call is suspended at [await responsePromise] with its
    abort timer pending, a rejection of the response runs the [catch] block,
    which clears the progress interval only: the abort timer is still
    scheduled afterwards although the request has settled, and once its
    120 s have passed it fires and calls [controller.abort()], which changes
    nothing the hook returns. On the path where the response fulfils, the
    timer is cleared. *)
Theorem abort_timer_outlives_rejection (w : World) (c tmo iv : nat) (t : Timer)
    (e : Thrown) :
  find (awaits_response c) (awaiting (loop w)) = Some (AwaitResponse c tmo iv) ->
  find (has_id tmo) (timers (loop w)) = Some t ->
  callback t = AbortRequest c ->
  repeating t = false ->
  tmo <> iv ->
  iv <> 0%nat ->
  exists w',
    step (ResponseSettled c (Rejected e)) w = Some w' /\
    find (awaits_response c) (awaiting (loop w')) = None /\
    find (has_id tmo) (timers (loop w')) = Some t /\
    (forall T,
        (now (loop w') <= T)%Z -> (due t <= T)%Z ->
        exists w'',
          run [Elapse T; Fire tmo] w' = Some w'' /\
          aborted (loop w'') = c :: aborted (loop w') /\
          find (has_id tmo) (timers (loop w'')) = None /\
          hook w'' = hook w' /\
          trace w'' = trace w') /\
    (forall ok w2,
        step (ResponseSettled c (Fulfilled ok)) w = Some w2 ->
        find (has_id tmo) (timers (loop w2)) = None).
Proof.
  intros Hf Ht Hcb Hrep Hne Hiv.
  destruct (rejected_world w e Hf Hiv)
    as (w1 & Hs & Ht1 & Ha & _ & _ & Hp & Hg & Hr & Hto & Hsh).
  exists w1. split; [exact Hs |].
  assert (Hfind1 : find (has_id tmo) (timers (loop w1)) = Some t).
  { rewrite Ht1. rewrite find_has_id_other; assumption. }
  repeat split.
  - rewrite Ha. apply find_filter_neg.
  - exact Hfind1.
  - intros T HT Hdue.
    destruct (step (Elapse T) w1) as [wT |] eqn:ET.
    2:{ cbn in ET. apply Z.leb_le in HT. rewrite HT in ET. discriminate. }
    assert (EwT : wT = advance T w1).
    { cbn in ET. apply Z.leb_le in HT. rewrite HT in ET. congruence. }
    destruct (step (Fire tmo) wT) as [wF |] eqn:EF.
    2:{ subst wT. cbn in EF. unfold fire in EF. cbn in EF. rewrite Hfind1 in EF.
        apply Z.leb_le in Hdue. rewrite Hdue in EF. discriminate. }
    exists wF. cbn [run]. rewrite ET, EF. split; [reflexivity |].
    assert (HfT : find (has_id tmo) (timers (loop wT)) = Some t)
      by (subst wT; exact Hfind1).
    destruct (@abort_fired_world wT tmo c t wF HfT Hcb Hrep EF)
      as (_ & HtF & _ & HaF & HhF & HtrF).
    subst wT. cbn in *. repeat split; try assumption.
    rewrite HtF. apply find_has_id_cleared.
  - intros ok w2 H2. cbn [step] in H2. rewrite Hf in H2.
    destruct (existsb (Nat.eqb c) (aborted (loop w))); [discriminate |].
    injection H2 as <-.
    unfold afterResponse, inTry, catchBlock, clearIfSet.
    rewrite (truthy_id_nonzero Hiv).
    destruct ok; run_hook.
    + apply find_filter_none. apply find_has_id_cleared.
    + apply find_filter_none, find_filter_none. apply find_has_id_cleared.
Qed.

Lemma abort_timer_outlives_rejection_witness :
  exists w',
    step (ResponseSettled 1 (Rejected fetch_failed)) in_flight_world = Some w' /\
    find (has_id 2) (timers (loop w')) = Some abort_timer.
Proof.
  assert (Ht : find (has_id 2) (timers (loop in_flight_world)) = Some abort_timer)
    by (vm_compute; reflexivity).
  assert (H23 : 2%nat <> 3%nat) by discriminate.
  assert (H3 : 3%nat <> 0%nat) by discriminate.
  destruct (@abort_timer_outlives_rejection in_flight_world 1 2 3 abort_timer
              fetch_failed in_flight_world_awaits Ht eq_refl eq_refl H23 H3)
    as (w' & Hs & _ & Hfind & _).
  exists w'. split; assumption.
Defined.

(** ** The simulated progress *)

Lemma calculatedProgress_bounds (elapsed : Z) :
  (0 <= elapsed)%Z ->
  SEND_COMPLETE <= calculatedProgress elapsed /\
  calculatedProgress elapsed <= PROCESSING_END.
Proof.
  intros H. unfold calculatedProgress, SEND_COMPLETE, PROCESSING_END, PROCESSING_START,
    ESTIMATED_PROCESSING_TIME.
  assert (Hx : 0 <= inject_Z elapsed) by (rewrite Zle_Qle in H; exact H).
  set (x := inject_Z elapsed) in *.
  unfold Qdiv. change (/ inject_Z 45000) with (1 # 45000).
  split.
  - apply Q.min_glb; lra.
  - apply Q.le_min_l.
Qed.

Lemma calculatedProgress_mono (e1 e2 : Z) :
  (e1 <= e2)%Z -> calculatedProgress e1 <= calculatedProgress e2.
Proof.
  intros H. unfold calculatedProgress, PROCESSING_END, PROCESSING_START,
    ESTIMATED_PROCESSING_TIME.
  assert (Hx : inject_Z e1 <= inject_Z e2) by (rewrite Zle_Qle in H; exact H).
  set (x := inject_Z e1) in *. set (y := inject_Z e2) in *.
  unfold Qdiv. change (/ inject_Z 45000) with (1 # 45000).
  apply Q.min_le_compat_l. lra.
Qed.

Lemma hd_snoc (d : list Q) (z x y : Q) : hd x (d ++ [z]) = hd y (d ++ [z]).
Proof. destruct d; reflexivity. Qed.

Lemma descending_emit (d : list Q) (v : Q) :
  descending (d ++ [0]) -> hd 0 (d ++ [0]) <= v -> descending ((v :: d) ++ [0]).
Proof.
  intros Hd Hv. cbn. split; [| exact Hd].
  rewrite (hd_snoc d 0 v 0). exact Hv.
Qed.




(** ** What each event does to the view of a world *)

Lemma view_setJobUrl (v : jsstring) (w w' : World) :
  step (SetJobUrl v) w = Some w' -> view w' = view w.
Proof. cbn. intros H. injection H as <-. reflexivity. Qed.

Lemma view_fileChange (f : option File) (w w' : World) :
  step (FileChange f) w = Some w' -> view w' = view w.
Proof.
  cbn [step]. intros H. injection H as <-. unfold handleFileChange.
  destruct f as [file |]; [| reflexivity].
  destruct (negb (includes validTypes (file_type file))); [reflexivity |].
  destruct (20 * 1024 * 1024 <? file_size file)%N; reflexivity.
Qed.

Lemma view_elapse (T : Z) (w w' : World) :
  step (Elapse T) w = Some w' ->
  (now (loop w) <= T)%Z /\
  view w' = (shown (trace w), progress (hook w), awaiting (loop w), timers (loop w),
             T, isGenerating (hook w), result (hook w), nextId (loop w),
             aborted (loop w)).
Proof.
  cbn [step]. destruct (now (loop w) <=? T)%Z eqn:E; [| discriminate].
  intros H. injection H as <-. apply Z.leb_le in E. split; [exact E | reflexivity].
Qed.

Lemma view_fire (id : nat) (w w' : World) :
  step (Fire id) w = Some w' ->
  exists t,
    find (has_id id) (timers (loop w)) = Some t /\
    (due t <= now (loop w))%Z /\
    view w' =
    (match callback t with
     | AbortRequest _ => shown (trace w)
     | TrackProgress start =>
         calculatedProgress (now (loop w) - start) :: shown (trace w)
     | ShowComplete => COMPLETE :: shown (trace w)
     end,
     match callback t with
     | AbortRequest _ => progress (hook w)
     | TrackProgress start => calculatedProgress (now (loop w) - start)
     | ShowComplete => COMPLETE
     end,
     awaiting (loop w),
     rescheduled id (repeating t) (now (loop w)) (timers (loop w)),
     now (loop w), isGenerating (hook w), result (hook w), nextId (loop w),
     match callback t with
     | AbortRequest c => c :: aborted (loop w)
     | TrackProgress _ | ShowComplete => aborted (loop w)
     end).
Proof.
  cbn [step]. unfold fire.
  destruct (find (has_id id) (timers (loop w))) as [t |] eqn:Ef; [| discriminate].
  destruct (due t <=? now (loop w))%Z eqn:Ed; [| discriminate].
  intros H. injection H as <-. exists t. apply Z.leb_le in Ed.
  split; [reflexivity |]. split; [exact Ed |].
  unfold rescheduled. destruct (repeating t), (callback t); reflexivity.
Qed.

Lemma view_response (c : nat) (r : ResponseOutcome) (w w' : World) :
  step (ResponseSettled c r) w = Some w' ->
  exists tmo iv,
    find (awaits_response c) (awaiting (loop w)) = Some (AwaitResponse c tmo iv) /\
    let cleared := fun ts => if truthy_id iv
                             then filter (fun t => negb (Nat.eqb (tid t) iv)) ts
                             else ts in
    let others := filter (fun k => negb (awaits_response c k)) (awaiting (loop w)) in
    view w' =
    match r with
    | Rejected _ =>
        (0 :: shown (trace w), 0, others, cleared (timers (loop w)),
         now (loop w), false, result (hook w), nextId (loop w), aborted (loop w))
    | Fulfilled false =>
        (0 :: RESPONSE_RECEIVED :: shown (trace w), 0, others,
         cleared (cleared (filter (fun t => negb (Nat.eqb (tid t) tmo)) (timers (loop w)))),
         now (loop w), false, result (hook w), nextId (loop w), aborted (loop w))
    | Fulfilled true =>
        (PARSING :: RESPONSE_RECEIVED :: shown (trace w), PARSING,
         AwaitJson c iv :: others,
         cleared (filter (fun t => negb (Nat.eqb (tid t) tmo)) (timers (loop w))),
         now (loop w), isGenerating (hook w), result (hook w), nextId (loop w),
         aborted (loop w))
    end.
Proof.
  cbn [step].
  destruct (find (awaits_response c) (awaiting (loop w))) as [k |] eqn:Ef;
    [| discriminate].
  destruct (find_awaits_response _ _ Ef) as (tmo & iv & ->).
  intros H. exists tmo, iv. split; [reflexivity |].
  destruct r as [ok | e].
  - destruct (existsb (Nat.eqb c) (aborted (loop w))); [discriminate |].
    injection H as <-.
    unfold afterResponse, inTry, catchBlock, clearIfSet.
    destruct ok, (truthy_id iv); reflexivity.
  - injection H as <-.
    unfold afterResponse, inTry, catchBlock, clearIfSet.
    destruct (truthy_id iv); reflexivity.
Qed.

Lemma view_body (c : nat) (r : BodyOutcome) (w w' : World) :
  step (BodySettled c r) w = Some w' ->
  exists iv,
    find (awaits_json c) (awaiting (loop w)) = Some (AwaitJson c iv) /\
    let others := filter (fun k => negb (awaits_json c k)) (awaiting (loop w)) in
    view w' =
    match r with
    | Undecodable _ =>
        (0 :: shown (trace w), 0, others,
         (if truthy_id iv
          then filter (fun t => negb (Nat.eqb (tid t) iv)) (timers (loop w))
          else timers (loop w)),
         now (loop w), false, result (hook w), nextId (loop w), aborted (loop w))
    | Decoded data =>
        (PRE_COMPLETE :: shown (trace w), PRE_COMPLETE, others,
         {| tid := nextId (loop w); armedAt := now (loop w); delay := 300;
            repeating := false; callback := ShowComplete |} :: timers (loop w),
         now (loop w), false, Some data, S (nextId (loop w)), aborted (loop w))
    end.
Proof.
  cbn [step].
  destruct (find (awaits_json c) (awaiting (loop w))) as [k |] eqn:Ef;
    [| discriminate].
  destruct (find_awaits_json _ _ Ef) as (iv & ->).
  intros H. exists iv. split; [reflexivity |].
  injection H as <-.
  unfold afterJson, inTry, catchBlock, clearIfSet.
  destruct r as [data | e]; [reflexivity |].
  destruct (truthy_id iv); reflexivity.
Qed.

Lemma view_generate (w : World) (file : File) :
  jobUrl (hook w) <> [] -> resume (hook w) = Some file ->
  let n := nextId (loop w) in
  fst (handleGenerate w) = Normal tt /\
  view (snd (handleGenerate w)) =
  (SEND_COMPLETE :: SEND :: PREPARE :: 0 :: shown (trace w), SEND_COMPLETE,
   AwaitResponse n (S n) (S (S n)) :: awaiting (loop w),
   {| tid := S (S n); armedAt := now (loop w); delay := PROGRESS_UPDATE_INTERVAL;
      repeating := true; callback := TrackProgress (now (loop w)) |}
   :: {| tid := S n; armedAt := now (loop w); delay := REQUEST_TIMEOUT;
         repeating := false; callback := AbortRequest n |}
   :: timers (loop w),
   now (loop w), true, None, S (S (S n)), aborted (loop w)) /\
  requests (trace (snd (handleGenerate w)))
  = {| req_url := API_ENDPOINT; req_controller := n;
       req_job_url := jobUrl (hook w); req_resume := file |}
    :: requests (trace w).
Proof.
  intros Hu Hr. unfold handleGenerate, gets, mbind. rewrite Hr.
  destruct (jobUrl (hook w)) as [| u us] eqn:Eu; [congruence |].
  cbn [truthy negb]. repeat split.
Qed.

(** ** Timer identifiers stay distinct *)

Lemma map_tid_rescheduled (id : nat) (at_ : Z) (ts : list Timer) :
  map tid (map (fun u => if has_id id u then rearm u at_ else u) ts) = map tid ts.
Proof.
  induction ts as [| t ts IH]; cbn; [reflexivity |].
  rewrite IH. destruct (has_id id t); reflexivity.
Qed.

Lemma NoDup_map_filter {A B} (g : A -> B) (f : A -> bool) (l : list A) :
  NoDup (map g l) -> NoDup (map g (filter f l)).
Proof.
  induction l as [| x l IH]; cbn; [auto |].
  intros H. inversion H as [| ? ? Hnin Hnd]; subst.
  destruct (f x); cbn; [| auto].
  constructor; [| auto].
  intros Hin. apply Hnin. apply in_map_iff in Hin.
  destruct Hin as (y & Hy & Hin). apply filter_In in Hin.
  apply in_map_iff. exists y. tauto.
Qed.

Lemma Forall_rescheduled (P : Timer -> Prop) (id : nat) (rep : bool) (at_ : Z)
    (ts : list Timer) :
  (forall u, P u -> P (rearm u at_)) ->
  Forall P ts -> Forall P (rescheduled id rep at_ ts).
Proof.
  intros Hre H. unfold rescheduled. destruct rep.
  - induction H as [| u ts Hu _ IH]; cbn; constructor; auto.
    destruct (has_id id u); auto.
  - apply Forall_filter_keep. exact H.
Qed.

Lemma NoDup_rescheduled (id : nat) (rep : bool) (at_ : Z) (ts : list Timer) :
  NoDup (map tid ts) -> NoDup (map tid (rescheduled id rep at_ ts)).
Proof.
  intros H. unfold rescheduled. destruct rep.
  - rewrite map_tid_rescheduled. exact H.
  - apply NoDup_map_filter. exact H.
Qed.

Lemma fresh_ids_view (w : World) :
  fresh_ids w <-> fresh_timers (timers (loop w)) (nextId (loop w)).
Proof. reflexivity. Qed.

Lemma fresh_filter (f : Timer -> bool) (ts : list Timer) (n : nat) :
  fresh_timers ts n -> fresh_timers (filter f ts) n.
Proof.
  intros (H0 & H1 & H2). repeat split.
  - exact H0.
  - apply NoDup_map_filter. exact H1.
  - apply Forall_filter_keep. exact H2.
Qed.

Lemma fresh_rescheduled (id : nat) (rep : bool) (at_ : Z) (ts : list Timer) (n : nat) :
  fresh_timers ts n -> fresh_timers (rescheduled id rep at_ ts) n.
Proof.
  intros (H0 & H1 & H2). repeat split.
  - exact H0.
  - apply NoDup_rescheduled. exact H1.
  - apply Forall_rescheduled; [intros u Hu; exact Hu | exact H2].
Qed.

Lemma fresh_arm (t : Timer) (ts : list Timer) (n : nat) :
  fresh_timers ts n -> (n <= tid t)%nat -> fresh_timers (t :: ts) (S (tid t)).
Proof.
  intros (H0 & H1 & H2) Hn. repeat split.
  - lia.
  - cbn. constructor; [| exact H1].
    intros Hin. apply in_map_iff in Hin. destruct Hin as (u & Hu & Hin).
    rewrite Forall_forall in H2. apply H2 in Hin. lia.
  - constructor; [lia |].
    eapply Forall_impl; [| exact H2]. cbn. intros u Hu. lia.
Qed.

Lemma fresh_cleared (iv : nat) (ts : list Timer) (n : nat) :
  fresh_timers ts n ->
  fresh_timers (if truthy_id iv
                then filter (fun t => negb (Nat.eqb (tid t) iv)) ts else ts) n.
Proof. intros H. destruct (truthy_id iv); [apply fresh_filter |]; exact H. Qed.

Ltac use_view H :=
  unfold view in H;
  injection H as Hsh Hpr Haw Hti Hno Hge Hre Hne Hbo.

(** Every event keeps the timer identifiers distinct and below the next
    fresh one. *)
Lemma fresh_ids_step (e : Event) (w w' : World) :
  fresh_ids w -> step e w = Some w' -> fresh_ids w'.
Proof.
  rewrite !fresh_ids_view. intros F Hs. destruct e.
  - apply view_setJobUrl in Hs. use_view Hs. rewrite Hti, Hne. exact F.
  - apply view_fileChange in Hs. use_view Hs. rewrite Hti, Hne. exact F.
  - cbn in Hs. injection Hs as <-. exact F.
  - cbn [step] in Hs. injection Hs as <-.
    destruct (resume (hook w)) as [file |] eqn:Er.
    + destruct (jobUrl (hook w)) as [| u us] eqn:Eu.
      * unfold handleGenerate, gets, mbind. rewrite Er, Eu. exact F.
      * assert (Hu : jobUrl (hook w) <> []) by (rewrite Eu; discriminate).
        destruct (view_generate w Hu Er) as (_ & Hv & _). use_view Hv.
        rewrite Hti, Hne.
        eapply (fresh_arm {| tid := S (S (nextId (loop w))); armedAt := now (loop w);
                             delay := PROGRESS_UPDATE_INTERVAL; repeating := true;
                             callback := TrackProgress (now (loop w)) |});
          [ eapply (fresh_arm {| tid := S (nextId (loop w)); armedAt := now (loop w);
                                 delay := REQUEST_TIMEOUT; repeating := false;
                                 callback := AbortRequest (nextId (loop w)) |});
            [exact F | cbn; lia]
          | cbn; lia ].
    + unfold handleGenerate, gets, mbind. rewrite Er. exact F.
  - apply view_elapse in Hs. destruct Hs as [_ Hv]. use_view Hv.
    rewrite Hti, Hne. exact F.
  - apply view_fire in Hs. destruct Hs as (t & _ & _ & Hv). use_view Hv.
    rewrite Hti, Hne. apply fresh_rescheduled. exact F.
  - apply view_response in Hs. destruct Hs as (tmo & iv & _ & Hv). cbv zeta in Hv.
    destruct r as [[|] | e]; use_view Hv; rewrite Hti, Hne.
    + apply fresh_cleared, fresh_filter. exact F.
    + apply fresh_cleared, fresh_cleared, fresh_filter. exact F.
    + apply fresh_cleared. exact F.
  - apply view_body in Hs. destruct Hs as (iv & _ & Hv). cbv zeta in Hv.
    destruct r as [data | e]; use_view Hv; rewrite Hti, Hne.
    + eapply (fresh_arm {| tid := nextId (loop w); armedAt := now (loop w);
                                delay := 300; repeating := false;
                                callback := ShowComplete |});
        [exact F | cbn; lia].
    + apply fresh_cleared. exact F.
Qed.

(** ** The invariant of a request's lifetime *)

Lemma lifetime_view (s0 : list Q) (w w' : World) :
  view w' = view w -> lifetime s0 w -> lifetime s0 w'.
Proof.
  intros Hv L. use_view Hv.
  destruct L.
  - eapply lt_sending; rewrite ?Hsh, ?Hpr, ?Haw, ?Hti, ?Hno, ?Hge, ?Hre; eassumption.
  - eapply lt_decoding; rewrite ?Hsh, ?Hpr, ?Haw, ?Hti, ?Hno, ?Hge, ?Hre; eassumption.
  - eapply lt_completing; rewrite ?Hsh, ?Hpr, ?Haw, ?Hti, ?Hno, ?Hge, ?Hre; eassumption.
  - eapply lt_completed; rewrite ?Hsh, ?Hpr, ?Haw, ?Hti, ?Hno, ?Hge, ?Hre; eassumption.
  - eapply lt_failed; rewrite ?Hsh, ?Hpr, ?Haw, ?Hti, ?Hno, ?Hge, ?Hre; eassumption.
Qed.

Lemma calculatedProgress_le_end (elapsed : Z) :
  calculatedProgress elapsed <= PROCESSING_END.
Proof. unfold calculatedProgress. apply Q.le_min_l. Qed.

Lemma is_abort_rearm (u : Timer) (at_ : Z) : is_abort (rearm u at_) = is_abort u.
Proof. reflexivity. Qed.

Lemma forallb_is_abort_rescheduled (id : nat) (rep : bool) (at_ : Z) (ts : list Timer) :
  forallb is_abort ts = true -> forallb is_abort (rescheduled id rep at_ ts) = true.
Proof.
  intros H. unfold rescheduled. destruct rep.
  - apply forallb_is_abort_rearm. exact H.
  - apply forallb_is_abort_filter. exact H.
Qed.

Lemma is_abort_callback (t : Timer) :
  is_abort t = true -> exists c, callback t = AbortRequest c.
Proof. unfold is_abort. destruct (callback t); try discriminate. eauto. Qed.

Lemma tid_injective (ts : list Timer) (a b : Timer) :
  NoDup (map tid ts) -> In a ts -> In b ts -> tid a = tid b -> a = b.
Proof.
  induction ts as [| t ts IH]; cbn; [tauto |].
  intros H Ha Hb E. inversion H as [| ? ? Hnin Hnd]; subst.
  destruct Ha as [-> | Ha], Hb as [-> | Hb]; auto.
  - exfalso. apply Hnin. rewrite E. apply in_map. exact Hb.
  - exfalso. apply Hnin. rewrite <- E. apply in_map. exact Ha.
Qed.

Lemma find_has_id (id : nat) (ts : list Timer) (t : Timer) :
  find (has_id id) ts = Some t -> In t ts /\ tid t = id.
Proof.
  intros H. apply find_some in H. destruct H as [Hin H].
  unfold has_id in H. apply Nat.eqb_eq in H. auto.
Qed.

(** While only abort timers are pending, a timer that fires leaves the
    progress alone. *)
Lemma fire_abort_only (id : nat) (w w' : World) :
  forallb is_abort (timers (loop w)) = true ->
  step (Fire id) w = Some w' ->
  exists t, view w' =
    (shown (trace w), progress (hook w), awaiting (loop w),
     rescheduled id (repeating t) (now (loop w)) (timers (loop w)),
     now (loop w), isGenerating (hook w), result (hook w), nextId (loop w),
     match callback t with
     | AbortRequest c => c :: aborted (loop w)
     | TrackProgress _ | ShowComplete => aborted (loop w)
     end).
Proof.
  intros Hab Hs. apply view_fire in Hs. destruct Hs as (t & Hf & _ & Hv).
  exists t. pose proof (find_forallb _ is_abort _ Hf Hab) as Ht.
  apply is_abort_callback in Ht. destruct Ht as [c Hc]. rewrite Hc in Hv |- *. exact Hv.
Qed.

Ltac close_with Hsh Hpr Haw Hti Hno Hge Hre :=
  rewrite ?Hsh, ?Hpr, ?Haw, ?Hti, ?Hno, ?Hge, ?Hre;
  try eassumption; try reflexivity;
  try (match goal with Hd : shown _ = _ |- _ => rewrite Hd; reflexivity end).

Lemma lifetime_step (s0 : list Q) (e : Event) (w w' : World) :
  lifetime s0 w -> fresh_ids w -> passive e = true -> step e w = Some w' ->
  lifetime s0 w'.
Proof.
  intros L F P Hs. destruct e; try discriminate.
  - (* setJobUrl *)
    apply view_setJobUrl in Hs. eapply lifetime_view; eassumption.
  - (* handleFileChange *)
    apply view_fileChange in Hs. eapply lifetime_view; eassumption.
  - (* the clock advances *)
    apply view_elapse in Hs. destruct Hs as [HT Hv]. use_view Hv.
    destruct L.
    + eapply lt_sending; close_with Hsh Hpr Haw Hti Hno Hge Hre.
      * lia.
      * eapply Qle_trans; [eassumption |]. apply calculatedProgress_mono. lia.
    + eapply lt_decoding; close_with Hsh Hpr Haw Hti Hno Hge Hre.
    + eapply lt_completing; close_with Hsh Hpr Haw Hti Hno Hge Hre.
    + eapply lt_completed; close_with Hsh Hpr Haw Hti Hno Hge Hre.
    + eapply lt_failed; close_with Hsh Hpr Haw Hti Hno Hge Hre.
  - (* a timer fires *)
    destruct L as [d c tmo iv start Hd Hdesc Hp Ha Hiv Hts Hst Hle Hg Hr
                  | d c iv Hd Hdesc Hp Ha Hiv Hts Hpar Hg Hr
                  | d data t Hd Hdesc Hp Ha Hin Hcb Hrep Hts Hpre Hg Hr
                  | d data Hd Hdesc Hp Ha Hts Hcom Hg Hr
                  | d Hd Hdesc Hp Ha Hts Hg Hr].
    + apply view_fire in Hs. destruct Hs as (t & Hf & _ & Hv).
      destruct (find_has_id _ _ Hf) as [Hin Hid].
      rewrite Forall_forall in Hts. pose proof (Hts t Hin) as Ht.
      assert (Hts' : Forall (fun u => is_abort u = true \/
                                      (tid u = iv /\ callback u = TrackProgress start))
                            (rescheduled id (repeating t) (now (loop w)) (timers (loop w)))).
      { apply Forall_rescheduled; [intros u Hu; exact Hu |].
        apply Forall_forall. exact Hts. }
      destruct Ht as [Ht | [_ Hcb]].
      * apply is_abort_callback in Ht. destruct Ht as [c' Hc']. rewrite Hc' in Hv.
        use_view Hv. eapply lt_sending; close_with Hsh Hpr Haw Hti Hno Hge Hre.
      * rewrite Hcb in Hv. use_view Hv.
        eapply (@lt_sending _ _ (calculatedProgress (now (loop w) - start) :: d));
          close_with Hsh Hpr Haw Hti Hno Hge Hre.
        -- apply descending_emit; [exact Hdesc |]. rewrite <- Hp. exact Hle.
        -- apply Qle_refl.
    + destruct (fire_abort_only _ _ Hts Hs) as (t & Hv). use_view Hv.
      eapply lt_decoding; close_with Hsh Hpr Haw Hti Hno Hge Hre.
      apply forallb_is_abort_rescheduled. exact Hts.
    + apply view_fire in Hs. destruct Hs as (t0 & Hf & _ & Hv).
      destruct (find_has_id _ _ Hf) as [Hin0 Hid].
      destruct F as (_ & Hnd & _).
      rewrite Forall_forall in Hts. destruct (Hts t0 Hin0) as [Ht0 | ->].
      * (* an abort timer: the completion timer stays as it is *)
        assert (Hdiff : tid t <> id).
        { intros E. rewrite <- Hid in E.
          pose proof (tid_injective _ _ _ Hnd Hin Hin0 E) as Heq. subst t0.
          unfold is_abort in Ht0. rewrite Hcb in Ht0. discriminate. }
        apply is_abort_callback in Ht0. destruct Ht0 as [c' Hc']. rewrite Hc' in Hv.
        use_view Hv.
        eapply (@lt_completing _ _ _ _ t); close_with Hsh Hpr Haw Hti Hno Hge Hre.
        -- unfold rescheduled. destruct (repeating t0).
           ++ apply in_map_iff. exists t. split; [| exact Hin].
              unfold has_id. apply Nat.eqb_neq in Hdiff. rewrite Hdiff. reflexivity.
           ++ apply filter_In. split; [exact Hin |].
              apply negb_true_iff, Nat.eqb_neq. exact Hdiff.
        -- unfold rescheduled. destruct (repeating t0).
           ++ apply Forall_forall. intros u' Hu'. apply in_map_iff in Hu'.
              destruct Hu' as (u & Hu & Huin).
              destruct (Hts u Huin) as [Hab | ->].
              ** left. subst u'. destruct (has_id id u); [rewrite is_abort_rearm |]; exact Hab.
              ** right. subst u'. unfold has_id. apply Nat.eqb_neq in Hdiff.
                 rewrite Hdiff. reflexivity.
           ++ apply Forall_filter_keep. apply Forall_forall. exact Hts.
      * (* the completion timer *)
        rewrite Hcb, Hrep in Hv. use_view Hv.
        eapply (@lt_completed _ _ (COMPLETE :: d)); close_with Hsh Hpr Haw Hti Hno Hge Hre.
        -- apply descending_emit; [exact Hdesc |]. rewrite <- Hp, Hpre.
           unfold PRE_COMPLETE, COMPLETE. lra.
        -- unfold rescheduled. rewrite <- Hid.
           apply abort_only_after_clear. apply Forall_forall. intros u Hu.
           destruct (Hts u Hu) as [Hab | ->]; auto.
    + destruct (fire_abort_only _ _ Hts Hs) as (t & Hv). use_view Hv.
      eapply lt_completed; close_with Hsh Hpr Haw Hti Hno Hge Hre.
      apply forallb_is_abort_rescheduled. exact Hts.
    + destruct (fire_abort_only _ _ Hts Hs) as (t & Hv). use_view Hv.
      eapply lt_failed; close_with Hsh Hpr Haw Hti Hno Hge Hre.
      apply forallb_is_abort_rescheduled. exact Hts.
  - (* the response settles *)
    apply view_response in Hs. destruct Hs as (tmo' & iv' & Hf & Hv). cbv zeta in Hv.
    destruct L as [d c tmo iv start Hd Hdesc Hp Ha Hiv Hts Hst Hle Hg Hr
                  | d c iv Hd Hdesc Hp Ha Hiv Hts Hpar Hg Hr
                  | d data t Hd Hdesc Hp Ha Hin Hcb Hrep Hts Hpre Hg Hr
                  | d data Hd Hdesc Hp Ha Hts Hcom Hg Hr
                  | d Hd Hdesc Hp Ha Hts Hg Hr];
      rewrite Ha in Hf; cbn in Hf; try discriminate.
    destruct (Nat.eqb c controller) eqn:Ec; [| discriminate].
    apply Nat.eqb_eq in Ec. subst c. injection Hf as <- <-.
    rewrite Ha in Hv. cbn [filter awaits_response] in Hv.
    rewrite Nat.eqb_refl in Hv. cbn [negb] in Hv.
    rewrite (truthy_id_nonzero Hiv) in Hv.
    assert (Hab : forallb is_abort
                    (filter (fun t => negb (Nat.eqb (tid t) iv)) (timers (loop w))) = true).
    { apply abort_only_after_clear. eapply Forall_impl; [| exact Hts].
      cbn. intros u [Hu | [Hu _]]; auto. }
    assert (HabF : forall f,
               forallb is_abort
                 (filter (fun t => negb (Nat.eqb (tid t) iv)) (filter f (timers (loop w))))
               = true).
    { intros f. apply abort_only_after_clear. apply Forall_filter_keep.
      eapply Forall_impl; [| exact Hts]. cbn. intros u [Hu | [Hu _]]; auto. }
    assert (H85 : hd 0 (d ++ [0]) <= RESPONSE_RECEIVED).
    { rewrite <- Hp. eapply Qle_trans; [exact Hle |].
      eapply Qle_trans; [apply calculatedProgress_le_end |].
      unfold PROCESSING_END, RESPONSE_RECEIVED. lra. }
    destruct r as [[|] | err]; use_view Hv.
    + eapply (@lt_decoding _ _ (PARSING :: RESPONSE_RECEIVED :: d)); close_with Hsh Hpr Haw Hti Hno Hge Hre.
      * apply (descending_emit (RESPONSE_RECEIVED :: d)).
        -- apply descending_emit; assumption.
        -- cbn. unfold PARSING, RESPONSE_RECEIVED. lra.
      * apply HabF.
    + eapply (@lt_failed _ _ (RESPONSE_RECEIVED :: d)); close_with Hsh Hpr Haw Hti Hno Hge Hre.
      * apply descending_emit; assumption.
      * apply forallb_is_abort_filter. apply HabF.
    + eapply (@lt_failed _ _ d); close_with Hsh Hpr Haw Hti Hno Hge Hre.
  - (* the body settles *)
    apply view_body in Hs. destruct Hs as (iv' & Hf & Hv). cbv zeta in Hv.
    destruct L as [d c tmo iv start Hd Hdesc Hp Ha Hiv Hts Hst Hle Hg Hr
                  | d c iv Hd Hdesc Hp Ha Hiv Hts Hpar Hg Hr
                  | d data t Hd Hdesc Hp Ha Hin Hcb Hrep Hts Hpre Hg Hr
                  | d data Hd Hdesc Hp Ha Hts Hcom Hg Hr
                  | d Hd Hdesc Hp Ha Hts Hg Hr];
      rewrite Ha in Hf; cbn in Hf; try discriminate.
    destruct (Nat.eqb c controller) eqn:Ec; [| discriminate].
    apply Nat.eqb_eq in Ec. subst c. injection Hf as <-.
    rewrite Ha in Hv. cbn [filter awaits_json] in Hv.
    rewrite Nat.eqb_refl in Hv. cbn [negb] in Hv.
    rewrite (truthy_id_nonzero Hiv) in Hv.
    destruct r as [data | err]; use_view Hv.
    + eapply (@lt_completing _ _ (PRE_COMPLETE :: d) data); close_with Hsh Hpr Haw Hti Hno Hge Hre.
      * apply descending_emit; [exact Hdesc |]. rewrite <- Hp, Hpar.
        unfold PARSING, PRE_COMPLETE. lra.
      * left. reflexivity.
      * reflexivity.
      * reflexivity.
      * constructor; [right; reflexivity |].
        apply Forall_forall. intros u Hu. left.
        rewrite forallb_forall in Hts. auto.
    + eapply (@lt_failed _ _ d); close_with Hsh Hpr Haw Hti Hno Hge Hre.
      apply forallb_is_abort_filter. exact Hts.
Qed.

(** ** Controllers *)

Lemma known_filter (f : Timer -> bool) (ts : list Timer) (ab : list nat) (n : nat) :
  known ts ab n -> known (filter f ts) ab n.
Proof. intros [H1 H2]. split; [apply Forall_filter_keep |]; assumption. Qed.

Lemma known_cleared (iv : nat) (ts : list Timer) (ab : list nat) (n : nat) :
  known ts ab n ->
  known (if truthy_id iv
         then filter (fun t => negb (Nat.eqb (tid t) iv)) ts else ts) ab n.
Proof. intros H. destruct (truthy_id iv); [apply known_filter |]; exact H. Qed.

Lemma known_rescheduled (id : nat) (rep : bool) (at_ : Z) (ts : list Timer)
    (ab : list nat) (n : nat) :
  known ts ab n -> known (rescheduled id rep at_ ts) ab n.
Proof.
  intros [H1 H2]. split; [| exact H2].
  apply Forall_rescheduled; [intros u Hu; exact Hu | exact H1].
Qed.

Lemma known_later (ts : list Timer) (ab : list nat) (n m : nat) :
  (n <= m)%nat -> known ts ab n -> known ts ab m.
Proof.
  intros Hnm [H1 H2]. split.
  - eapply Forall_impl; [| exact H1]. cbn. intros t. destruct (callback t); auto. lia.
  - eapply Forall_impl; [| exact H2]. cbn. intros c. lia.
Qed.

Lemma known_controllers_step (e : Event) (w w' : World) :
  known_controllers w -> step e w = Some w' -> known_controllers w'.
Proof.
  change (known (timers (loop w)) (aborted (loop w)) (nextId (loop w)) ->
          step e w = Some w' ->
          known (timers (loop w')) (aborted (loop w')) (nextId (loop w'))).
  intros K Hs. destruct e.
  - apply view_setJobUrl in Hs. use_view Hs. rewrite Hti, Hne, Hbo. exact K.
  - apply view_fileChange in Hs. use_view Hs. rewrite Hti, Hne, Hbo. exact K.
  - cbn in Hs. injection Hs as <-. exact K.
  - cbn [step] in Hs. injection Hs as <-.
    destruct (resume (hook w)) as [file |] eqn:Er.
    + destruct (jobUrl (hook w)) as [| u us] eqn:Eu.
      * unfold handleGenerate, gets, mbind. rewrite Er, Eu. exact K.
      * assert (Hu : jobUrl (hook w) <> []) by (rewrite Eu; discriminate).
        destruct (view_generate w Hu Er) as (_ & Hv & _). use_view Hv.
        rewrite Hti, Hne, Hbo.
        apply (@known_later _ _ _ (S (S (S (nextId (loop w)))))) in K; [| lia].
        destruct K as [K1 K2]. split; [| exact K2].
        constructor; [exact I |]. constructor; [cbn; lia | exact K1].
    + unfold handleGenerate, gets, mbind. rewrite Er. exact K.
  - apply view_elapse in Hs. destruct Hs as [_ Hv]. use_view Hv.
    rewrite Hti, Hne, Hbo. exact K.
  - apply view_fire in Hs. destruct Hs as (t & Hf & _ & Hv). use_view Hv.
    rewrite Hti, Hne, Hbo.
    pose proof K as [K1 K2]. split.
    + apply (known_rescheduled id (repeating t) (now (loop w))) in K. apply K.
    + destruct (callback t) as [c | st |] eqn:Ec; try exact K2.
      constructor; [| exact K2].
      apply find_has_id in Hf. destruct Hf as [Hin _].
      rewrite Forall_forall in K1. specialize (K1 t Hin). rewrite Ec in K1. exact K1.
  - apply view_response in Hs. destruct Hs as (tmo & iv & _ & Hv). cbv zeta in Hv.
    destruct r as [[|] | err]; use_view Hv; rewrite Hti, Hne, Hbo.
    + apply known_cleared, known_filter. exact K.
    + apply known_cleared, known_cleared, known_filter. exact K.
    + apply known_cleared. exact K.
  - apply view_body in Hs. destruct Hs as (iv & _ & Hv). cbv zeta in Hv.
    destruct r as [data | err]; use_view Hv; rewrite Hti, Hne, Hbo.
    + apply (@known_later _ _ _ (S (nextId (loop w)))) in K; [| lia].
      destruct K as [K1 K2]. split; [| exact K2].
      constructor; [exact I | exact K1].
    + apply known_cleared. exact K.
Qed.

Lemma reachable_sound (w : World) :
  reachable w -> fresh_ids w /\ known_controllers w.
Proof.
  induction 1 as [| w e w' _ [IHf IHk] Hs].
  - split.
    + repeat split; [cbn; lia | constructor | constructor].
    + split; constructor.
  - split.
    + eapply fresh_ids_step; eassumption.
    + eapply known_controllers_step; eassumption.
Qed.

(** ** The progress over a request's lifetime *)


Lemma quiet_inv (w : World) :
  quiet w = true ->
  awaiting (loop w) = [] /\ forallb is_abort (timers (loop w)) = true.
Proof.
  unfold quiet. destruct (awaiting (loop w)); [auto | discriminate].
Qed.

(** A valid [submit()] from a quiet world starts a lifetime. *)
Lemma lifetime_start (w : World) (file : File) :
  quiet w = true -> jobUrl (hook w) <> [] -> resume (hook w) = Some file ->
  lifetime (shown (trace w)) (snd (handleGenerate w)).
Proof.
  intros Hq Hu Hr. destruct (quiet_inv w Hq) as [Ha Hts].
  destruct (view_generate w Hu Hr) as (_ & Hv & _). cbv zeta in Hv. use_view Hv.
  eapply (@lt_sending _ _ [SEND_COMPLETE; SEND; PREPARE]
            (nextId (loop w)) (S (nextId (loop w))) (S (S (nextId (loop w))))
            (now (loop w)));
    rewrite ?Hsh, ?Hpr, ?Haw, ?Hti, ?Hno, ?Hge, ?Hre; try reflexivity.
  - cbn. unfold SEND_COMPLETE, SEND, PREPARE. repeat split; lra.
  - rewrite Ha. reflexivity.
  - discriminate.
  - constructor; [right; split; reflexivity |].
    constructor; [left; reflexivity |].
    apply Forall_forall. intros t Ht. left. rewrite forallb_forall in Hts. auto.
  - rewrite Z.sub_diag. apply calculatedProgress_bounds. lia.
Qed.




(** ** When an event can happen *)








Lemma ready_world_reachable : reachable ready_world.
Proof.
  apply (run_reachable [SetJobUrl sample_url; FileChange (Some sample_pdf)]
           reach_initial).
  vm_compute. reflexivity.
Qed.


End HookFacts.

(* ================================================================== *)
(** * Facts about the staged reveal *)
(* ================================================================== *)

Module CanvasFacts.
Import Js Canvas CanvasSpec.

Section WithHeap.

Variable heap : Ref -> Api.EmailGenerationResponse.

Lemma is_complete_status (st : Api.Status) :
  is_complete st = true <-> st = Api.Complete.
Proof. destruct st; cbn; split; congruence. Qed.

Lemma same_result_true (a b : option Ref) : same_result a b = true -> a = b.
Proof.
  destruct a as [x |], b as [y |]; cbn; try discriminate; auto.
  intros H. apply Nat.eqb_eq in H. congruence.
Qed.

Lemma eqb_true (a b : bool) : Bool.eqb a b = true -> a = b.
Proof. destruct a, b; cbn; congruence. Qed.

Lemma current_mount (p : Props) (t0 : Z) : current heap (mount heap p t0).
Proof.
  unfold current, mount, effectAgents, effectFinal.
  destruct (isGenerating p) eqn:Eg;
    destruct (result p) as [r |] eqn:Er;
    try destruct (is_complete (Api.status (heap r))) eqn:Ec;
    cbn; intros t Hin;
    repeat (destruct Hin as [<- | Hin]); try contradiction; cbn;
    rewrite ?Eg, ?Er; repeat split; eauto.
  all: exists r; split; [reflexivity | apply is_complete_status; exact Ec].
Qed.

(** A timer that an effect's clean-up cleared is not pending. *)
Ltac cleared_timer :=
  match goal with
  | Hc : Some ?id = Some (tid ?t),
    Hne : negb (Nat.eqb (tid ?t) ?id) = true |- _ =>
      exfalso; injection Hc as Hc; subst id;
      rewrite Nat.eqb_refl in Hne; discriminate
  | Hc : None = Some _ |- _ => discriminate Hc
  end.

Ltac old_timer Hcur :=
  match goal with
  | Hin : In ?t _ |- _ =>
      repeat (apply filter_In in Hin;
              let Hne := fresh "Hne" in destruct Hin as [Hin Hne]);
      let H := fresh "H" in
      pose proof (Hcur t Hin) as H;
      destruct (callback t);
      [ destruct H as (? & ? & ?) | destruct H as (? & ? & ? & ? & ?) ];
      first [ cleared_timer
            | solve [repeat split; try congruence;
                     match goal with
                     | Hst : Api.status (heap ?r) = Api.Complete |- _ =>
                         exists r; split; congruence
                     end]
            | exfalso;
              match goal with
              | Hst : Api.status (heap ?r) = Api.Complete |- _ =>
                  apply is_complete_status in Hst; congruence
              end ]
  end.

Lemma current_render (p : Props) (s : State) :
  current heap s -> current heap (render heap p s).
Proof.
  intros Hcur. unfold current in *. unfold render.
  destruct (Bool.eqb (isGenerating (props s)) (isGenerating p)) eqn:EA;
    destruct (same_result (result (props s)) (result p)) eqn:EF;
    cbn [negb].
  all: try (apply eqb_true in EA).
  all: try (apply same_result_true in EF).
  all: unfold effectAgents, effectFinal.
  all: destruct (isGenerating p) eqn:Eg;
    destruct (result p) as [r' |] eqn:Er;
    try destruct (is_complete (Api.status (heap r'))) eqn:Ec;
    destruct (cleanupAgents s) as [ida |] eqn:Eca;
    destruct (cleanupFinal s) as [idf |] eqn:Ecf;
    cbn; intros t Hin.
  all: repeat (destruct Hin as [<- | Hin]); cbn.
  all: first
         [ solve [repeat (split; [solve [reflexivity | assumption] |]);
                  first [ reflexivity | assumption
                        | exists r'; split;
                          [assumption | apply is_complete_status; assumption] ]]
         | old_timer Hcur ].
Qed.

Lemma current_step (e : Event) (s s' : State) :
  current heap s -> step heap e s = Some s' -> current heap s'.
Proof.
  intros Hcur Hs. destruct e; cbn [step] in Hs.
  - destruct (mounted s); [| discriminate]. injection Hs as <-.
    apply current_render. exact Hcur.
  - destruct (now s <=? t)%Z; [| discriminate]. injection Hs as <-. exact Hcur.
  - destruct (find (fun t => Nat.eqb (tid t) id) (timers s)) as [t0 |]; [| discriminate].
    destruct (due t0 <=? now s)%Z; [| discriminate]. injection Hs as <-.
    unfold current in *. intros t Hin.
    assert (Hin' : In t (timers s)).
    { destruct (callback t0); cbn in Hin; apply filter_In in Hin; tauto. }
    specialize (Hcur t Hin'). destruct (callback t0); exact Hcur.
  - destruct (mounted s); [| discriminate]. injection Hs as <-.
    unfold current in *. unfold unmount, run_cleanup.
    destruct (cleanupAgents s) as [ida |] eqn:Eca;
      destruct (cleanupFinal s) as [idf |] eqn:Ecf;
      cbn; intros t Hin; old_timer Hcur.
Qed.

Lemma reachable_current (s : State) : reachable heap s -> current heap s.
Proof.
  induction 1 as [p t | s e s' _ IH Hs].
  - apply current_mount.
  - eapply current_step; eassumption.
Qed.

(** Only a timer's callback sets [showFinal]. *)
Lemma showFinal_set_by_timer (e : Event) (s s' : State) :
  step heap e s = Some s' -> showFinal s = false -> showFinal s' = true ->
  exists t,
    e = Fire (tid t) /\ In t (timers s) /\ callback t = ShowFinal /\
    (armedAt t + delay t <= now s)%Z.
Proof.
  intros Hs H0 H1. destruct e; cbn [step] in Hs.
  - destruct (mounted s); [| discriminate]. injection Hs as <-.
    exfalso. revert H1. unfold render, effectAgents, effectFinal, run_cleanup.
    destruct (negb (Bool.eqb (isGenerating (props s)) (isGenerating p)));
      destruct (negb (same_result (result (props s)) (result p)));
      destruct (isGenerating p);
      destruct (result p) as [r' |];
      try destruct (is_complete (Api.status (heap r')));
      destruct (cleanupAgents s); destruct (cleanupFinal s);
      cbn; congruence.
  - destruct (now s <=? t)%Z; [| discriminate]. injection Hs as <-.
    cbn in H1. congruence.
  - destruct (find (fun t => Nat.eqb (tid t) id) (timers s)) as [t0 |] eqn:Ef;
      [| discriminate].
    destruct (due t0 <=? now s)%Z eqn:Ed; [| discriminate]. injection Hs as <-.
    apply find_some in Ef. destruct Ef as [Hin Hid]. apply Nat.eqb_eq in Hid.
    destruct (callback t0) eqn:Ecb; cbn in H1; [congruence |].
    exists t0. rewrite Hid. apply Z.leb_le in Ed. auto.
  - destruct (mounted s); [| discriminate]. injection Hs as <-.
    exfalso. revert H1. unfold unmount, run_cleanup.
    destruct (cleanupAgents s); destruct (cleanupFinal s); cbn; congruence.
Qed.

(** A render arms its timers at the time of the render, the [ShowFinal] one
    only when the [result] dependency changed. *)
Lemma render_arms (p : Props) (s : State) (t : Timer) :
  In t (timers (render heap p s)) -> ~ In t (timers s) ->
  armedAt t = now s /\
  (callback t = ShowFinal ->
   same_result (result (props s)) (result p) = false).
Proof.
  unfold render, effectAgents, effectFinal, run_cleanup.
  destruct (same_result (result (props s)) (result p)) eqn:EF;
    destruct (Bool.eqb (isGenerating (props s)) (isGenerating p));
    destruct (isGenerating p);
    destruct (result p) as [r' |];
    try destruct (is_complete (Api.status (heap r')));
    destruct (cleanupAgents s); destruct (cleanupFinal s);
    cbn; intros Hin Hnin;
    repeat (destruct Hin as [<- | Hin]); cbn;
    try (split; [reflexivity | congruence]);
    exfalso; apply Hnin;
    repeat (apply filter_In in Hin; destruct Hin as [Hin _]); exact Hin.
Qed.

(** No event but a render adds a timer. *)
Lemma only_render_arms (e : Event) (s s' : State) :
  step heap e s = Some s' -> (forall p, e <> Render p) ->
  incl (timers s') (timers s).
Proof.
  intros Hs Hne. destruct e; cbn [step] in Hs.
  - exfalso. apply (Hne p). reflexivity.
  - destruct (now s <=? t)%Z; [| discriminate]. injection Hs as <-.
    intros x Hx. exact Hx.
  - destruct (find (fun t => Nat.eqb (tid t) id) (timers s)) as [t0 |]; [| discriminate].
    destruct (due t0 <=? now s)%Z; [| discriminate]. injection Hs as <-.
    intros x Hx. destruct (callback t0); cbn in Hx; apply filter_In in Hx; tauto.
  - destruct (mounted s); [| discriminate]. injection Hs as <-.
    intros x Hx. unfold unmount, run_cleanup in Hx.
    destruct (cleanupAgents s); destruct (cleanupFinal s); cbn in Hx;
      repeat (apply filter_In in Hx; destruct Hx as [Hx _]); exact Hx.
Qed.

(** When a request starts while the component is not generating, the first
    effect hides both stages. *)
Lemma request_start_hides (pr : Q) (s : State) :
  isGenerating (props s) = false ->
  showFinal (render heap (requestStarted pr) s) = false /\
  showAgents (render heap (requestStarted pr) s) = false.
Proof.
  intros Hg. unfold render, requestStarted, effectAgents, effectFinal, run_cleanup.
  cbn [isGenerating result]. rewrite Hg. cbn [Bool.eqb negb].
  destruct (same_result (result (props s)) None);
    destruct (cleanupAgents s); destruct (cleanupFinal s); cbn; auto.
Qed.

(** Claim C5. In every state the component can reach: each pending timer
    belongs to the props of the last render (no timer of a superseded request
    is pending); [showFinal] turns true only when a [ShowFinal] timer fires,
    which was armed for 600 ms, is due, and whose result is the current,
    complete one; such a timer is armed only by the render in which the
    result changed, at the time of that render; while there is no result (a
    pending or failed request) none is pending; and the render that starts a
    request leaves none pending and, coming from a component that was not
    generating, hides both stages. *)
Theorem final_reveal_only_after_success (s : State) :
  reachable heap s ->
  current heap s /\
  (forall e s',
      step heap e s = Some s' -> showFinal s = false -> showFinal s' = true ->
      exists t r,
        e = Fire (tid t) /\ In t (timers s) /\ callback t = ShowFinal /\
        delay t = 600%Z /\ (armedAt t + 600 <= now s)%Z /\
        result (props s) = Some r /\ Api.status (heap r) = Api.Complete) /\
  (forall e s' t,
      step heap e s = Some s' -> In t (timers s') -> ~ In t (timers s) ->
      armedAt t = now s /\
      exists p,
        e = Render p /\
        (callback t = ShowFinal ->
         same_result (result (props s)) (result p) = false /\
         exists r, result p = Some r /\ Api.status (heap r) = Api.Complete)) /\
  (result (props s) = None ->
   forall t, In t (timers s) -> callback t <> ShowFinal) /\
  (forall pr s',
      step heap (Render (requestStarted pr)) s = Some s' ->
      (forall t, In t (timers s') -> callback t <> ShowFinal) /\
      (isGenerating (props s) = false ->
       showFinal s' = false /\ showAgents s' = false)).
Proof.
  intros Hreach. pose proof (reachable_current Hreach) as Hcur.
  assert (Hnone : forall s0, current heap s0 -> result (props s0) = None ->
                             forall t, In t (timers s0) -> callback t <> ShowFinal).
  { intros s0 Hc Hres t Hin Hcb. specialize (Hc t Hin). rewrite Hcb in Hc.
    destruct Hc as (_ & _ & r & Hr & _). congruence. }
  split; [exact Hcur |]. split; [| split; [| split]].
  - intros e s' Hs H0 H1.
    destruct (showFinal_set_by_timer e s Hs H0 H1) as (t & He & Hin & Hcb & Hdue).
    pose proof (Hcur t Hin) as Ht. rewrite Hcb in Ht.
    destruct Ht as (_ & Hd & r & Hr & Hst).
    exists t, r. rewrite Hd in Hdue. auto 10.
  - intros e s' t Hs Hin Hnin.
    destruct e as [p | T | id |].
    + pose proof Hs as Hs'. cbn [step] in Hs'.
      destruct (mounted s); [| discriminate]. injection Hs' as <-.
      destruct (render_arms p s t Hin Hnin) as [Harm Hch].
      split; [exact Harm |]. exists p. split; [reflexivity |].
      intros Hcb. split; [auto |].
      assert (Hcur' : current heap (render heap p s)) by (apply current_render; exact Hcur).
      specialize (Hcur' t Hin). rewrite Hcb in Hcur'.
      destruct Hcur' as (_ & _ & r & Hr & Hst).
      exists r. split; [| exact Hst].
      unfold render in Hr.
      destruct (if negb (Bool.eqb (isGenerating (props s)) (isGenerating p))
                then effectAgents p _ else _) as [ca s3] in Hr.
      destruct (if negb (same_result (result (props s)) (result p))
                then effectFinal heap p s3 else _) as [cf s4] in Hr.
      exact Hr.
    + exfalso. apply Hnin. apply (@only_render_arms (Elapse T) s s' Hs); [discriminate | exact Hin].
    + exfalso. apply Hnin. apply (@only_render_arms (Fire id) s s' Hs); [discriminate | exact Hin].
    + exfalso. apply Hnin. apply (@only_render_arms Unmount s s' Hs); [discriminate | exact Hin].
  - apply Hnone. exact Hcur.
  - intros pr s' Hs. pose proof Hs as Hs'. cbn [step] in Hs'.
    destruct (mounted s); [| discriminate]. injection Hs' as <-.
    split.
    + apply Hnone; [apply current_render; exact Hcur |].
      unfold render.
      destruct (if negb (Bool.eqb (isGenerating (props s)) (isGenerating (requestStarted pr)))
                then effectAgents (requestStarted pr) _ else _) as [ca s3].
      destruct (if negb (same_result (result (props s)) (result (requestStarted pr)))
                then effectFinal heap (requestStarted pr) s3 else _) as [cf s4].
      reflexivity.
    + apply request_start_hides.
Qed.

Lemma render_run_reachable (es : list Event) :
  forall s s', reachable heap s -> run heap es s = Some s' -> reachable heap s'.
Proof.
  induction es as [| e es IH]; intros s s' Hs Hr; cbn in Hr.
  - injection Hr as <-. exact Hs.
  - destruct (step heap e s) as [s1 |] eqn:Es; [| discriminate].
    eapply IH; [eapply reach_step; eassumption | exact Hr].
Qed.

End WithHeap.

Lemma revealing_state_reachable : reachable sample_heap revealing_state.
Proof.
  apply (@render_run_reachable sample_heap
           [Elapse 300; Fire 1;
            Render {| isGenerating := false; result := Some 7%nat; progress := 95 |};
            Elapse 900]
           (mount sample_heap (requestStarted 0) 0)).
  - apply reach_mount.
  - vm_compute. reflexivity.
Qed.

Lemma final_reveal_only_after_success_witness :
  exists t r,
    In t (timers revealing_state) /\ callback t = ShowFinal /\
    delay t = 600%Z /\ (armedAt t + 600 <= now revealing_state)%Z /\
    result (props revealing_state) = Some r /\
    Api.status (sample_heap r) = Api.Complete.
Proof.
  destruct (@final_reveal_only_after_success sample_heap revealing_state
              revealing_state_reachable) as (_ & Hfire & _).
  destruct (step sample_heap (Fire 2) revealing_state) as [s' |] eqn:Es;
    [| vm_compute in Es; discriminate].
  assert (H0 : showFinal revealing_state = false) by (vm_compute; reflexivity).
  assert (H1 : showFinal s' = true)
    by (vm_compute in Es; injection Es as <-; reflexivity).
  destruct (Hfire (Fire 2) s' Es H0 H1) as (t & r & _ & Hin & Hcb & Hd & Hdue & Hr & Hst).
  exists t, r. auto 10.
Defined.

End CanvasFacts.

(* ================================================================== *)
(** * Facts about the text functions *)
(* ================================================================== *)

Module TextFacts.
Import Js Text Json Wrapper TextSpec.
Local Unset Implicit Arguments.

(** ** Matching a literal *)

Lemma ci_eq_length (a b : jsstring) : ci_eq a b -> length a = length b.
Proof.
  unfold ci_eq. intros H. apply (f_equal (@length N)) in H.
  rewrite !length_map in H. exact H.
Qed.

Lemma match_ci_app (pat f r : jsstring) :
  ci_eq f pat -> match_ci pat (f ++ r) = Some r.
Proof.
  unfold ci_eq. revert f. induction pat as [| p pat IH]; intros f H.
  - destruct f; [reflexivity | discriminate].
  - destruct f as [| c f]; [discriminate |].
    cbn in H. injection H as Hc Hf. cbn. rewrite Hc, N.eqb_refl. apply IH. exact Hf.
Qed.

Lemma match_ci_Some (pat s r : jsstring) :
  match_ci pat s = Some r -> exists f, s = f ++ r /\ ci_eq f pat.
Proof.
  unfold ci_eq. revert s. induction pat as [| p pat IH]; intros s H.
  - cbn in H. injection H as <-. exists []. auto.
  - destruct s as [| c s]; [discriminate |]. cbn in H.
    destruct (canon c =? canon p)%N eqn:E; [| discriminate].
    apply N.eqb_eq in E. destruct (IH _ H) as (f & -> & Hf).
    exists (c :: f). cbn. rewrite E, Hf. auto.
Qed.

(** ** White space *)

Lemma trimStart_space (w r : jsstring) :
  all_space w -> trimStart (w ++ r) = trimStart r.
Proof. induction 1 as [| c w Hc _ IH]; cbn; [| rewrite Hc]; auto. Qed.

Lemma trimStart_head (s : jsstring) (c : N) (r : jsstring) :
  trimStart s = c :: r -> isWhiteSpace c = false.
Proof.
  induction s as [| a s IH]; cbn; [discriminate |].
  destruct (isWhiteSpace a) eqn:E; [exact IH |].
  intros H. injection H as <- _. exact E.
Qed.

Lemma trimStart_app_solid (x y : jsstring) (c : N) (r : jsstring) :
  y = c :: r -> isWhiteSpace c = false ->
  trimStart (x ++ y) = trimStart x ++ y.
Proof.
  intros -> Hc. induction x as [| a x IH]; cbn.
  - rewrite Hc. reflexivity.
  - destruct (isWhiteSpace a); [exact IH | reflexivity].
Qed.

Lemma trimStart_idem (s : jsstring) : trimStart (trimStart s) = trimStart s.
Proof.
  induction s as [| a s IH]; cbn; [reflexivity |].
  destruct (isWhiteSpace a) eqn:E; [exact IH |]. cbn. rewrite E. reflexivity.
Qed.

Lemma trimStart_decompose (s : jsstring) :
  exists w, s = w ++ trimStart s /\ all_space w.
Proof.
  induction s as [| a s (w & Hw & Hs)]; cbn.
  - exists []. split; [reflexivity | constructor].
  - destruct (isWhiteSpace a) eqn:E.
    + exists (a :: w). cbn. rewrite <- Hw. split; [reflexivity |].
      constructor; assumption.
    + exists []. split; [reflexivity | constructor].
Qed.

Lemma trimEnd_snoc_space (s : jsstring) (c : N) :
  isWhiteSpace c = true -> trimEnd (s ++ [c]) = trimEnd s.
Proof.
  intros Hc. unfold trimEnd. rewrite rev_app_distr. cbn. rewrite Hc. reflexivity.
Qed.

Lemma trimStart_snoc_space (s : jsstring) (c : N) :
  isWhiteSpace c = true ->
  trimStart (s ++ [c]) = trimStart s ++ [c] \/
  (trimStart (s ++ [c]) = [] /\ trimStart s = []).
Proof.
  intros Hc. induction s as [| a s IH]; cbn.
  - rewrite Hc. right. auto.
  - destruct (isWhiteSpace a); [exact IH | left; reflexivity].
Qed.

Lemma trim_snoc_space (s : jsstring) (c : N) :
  isWhiteSpace c = true -> trim (s ++ [c]) = trim s.
Proof.
  intros Hc. unfold trim.
  destruct (trimStart_snoc_space s c Hc) as [-> | [-> ->]].
  - apply trimEnd_snoc_space. exact Hc.
  - reflexivity.
Qed.

Lemma trim_trimStart (s : jsstring) : trim (trimStart s) = trim s.
Proof. unfold trim. rewrite trimStart_idem. reflexivity. Qed.

Lemma LF_is_space : isWhiteSpace LF = true.
Proof. reflexivity. Qed.

Lemma chop_lf_cases (s : jsstring) : chop_lf s = s \/ s = chop_lf s ++ [LF].
Proof.
  induction s as [| a s IH]; [left; reflexivity |].
  destruct s as [| b s].
  - cbn. destruct (a =? LF)%N eqn:E; [| left; reflexivity].
    apply N.eqb_eq in E. subst. right. reflexivity.
  - change (chop_lf (a :: b :: s)) with (a :: chop_lf (b :: s)).
    destruct IH as [-> | IH]; [left; reflexivity |].
    right. cbn [app]. rewrite <- IH. reflexivity.
Qed.

Lemma trim_chop_lf (s : jsstring) : trim (chop_lf s) = trim s.
Proof.
  destruct (chop_lf_cases s) as [-> | H]; [reflexivity |].
  rewrite H at 2. rewrite trim_snoc_space; [reflexivity | exact LF_is_space].
Qed.

(** ** The fences *)

Lemma canon_backtick (c : N) : canon c = 96%N -> c = 96%N.
Proof.
  unfold canon. destruct ((97 <=? c) && (c <=? 122))%N eqn:E; [| auto].
  apply andb_true_iff in E. destruct E as [E1 E2].
  apply N.leb_le in E1, E2. lia.
Qed.

Lemma ci_eq_fence (f : jsstring) : ci_eq f fence -> f = fence.
Proof.
  unfold ci_eq, fence. cbn.
  destruct f as [| a [| b [| c [| d f]]]]; cbn; try discriminate.
  intros H. injection H as Ha Hb Hc.
  apply canon_backtick in Ha, Hb, Hc. subst. reflexivity.
Qed.

Lemma all_space_forallb (w : jsstring) : forallb isWhiteSpace w = true <-> all_space w.
Proof.
  unfold all_space. rewrite forallb_forall, Forall_forall. reflexivity.
Qed.

Lemma fence_to_end_spec (t : jsstring) :
  fence_to_end t = true <-> exists w, t = fence ++ w /\ all_space w.
Proof.
  unfold fence_to_end. split.
  - destruct (match_ci fence t) as [r |] eqn:E; [| discriminate].
    intros H. apply match_ci_Some in E. destruct E as (f & -> & Hf).
    apply ci_eq_fence in Hf. subst f. exists r. split; [reflexivity |].
    apply all_space_forallb. exact H.
  - intros (w & -> & Hw). rewrite match_ci_app by reflexivity.
    apply all_space_forallb. exact Hw.
Qed.

Lemma backtick_not_space (w : jsstring) : ~ all_space (96%N :: w).
Proof. intros H. inversion H as [| ? ? Hc _]. discriminate Hc. Qed.

(** The closing fence is where it is: three backticks followed by white
    space only cannot start anywhere else. *)
Lemma fence_unique (x w w' : jsstring) :
  all_space w' -> x ++ fence ++ w = fence ++ w' -> x = [].
Proof.
  intros Hw' H. unfold fence in H. cbn in H.
  destruct x as [| a [| b [| c x]]]; [reflexivity | exfalso ..];
    cbn in H; inversion H; subst.
  - exact (backtick_not_space _ Hw').
  - exact (backtick_not_space _ Hw').
  - unfold all_space in Hw'. apply Forall_app in Hw'. destruct Hw' as [_ Hw'].
    exact (backtick_not_space _ Hw').
Qed.

Lemma fence_to_end_app (x w : jsstring) :
  all_space w -> fence_to_end (x ++ fence ++ w) = true -> x = [].
Proof.
  intros Hw H. apply fence_to_end_spec in H. destruct H as (w' & H & Hw').
  eapply fence_unique; eassumption.
Qed.

Lemma fence_to_end_here (w : jsstring) :
  all_space w -> fence_to_end (fence ++ w) = true.
Proof. intros Hw. apply fence_to_end_spec. exists w. auto. Qed.

Lemma strip_close_unfold (s : jsstring) :
  strip_close s = if close_here s then []
                  else match s with
                       | [] => []
                       | c :: s' => c :: strip_close s'
                       end.
Proof. destruct s; reflexivity. Qed.

(** A text that ends with a closing fence loses it, with the line feed
    before it if there is one. *)
Lemma strip_close_fenced (s w : jsstring) :
  all_space w -> strip_close (s ++ fence ++ w) = chop_lf s.
Proof.
  intros Hw. induction s as [| a s IH].
  - rewrite strip_close_unfold.
    assert (H : close_here ([] ++ fence ++ w) = true).
    { cbn [app]. unfold close_here, fence. cbn [lit map list_ascii_of_string app].
      fold (lit "```"). fold fence.
      change (N_of_ascii "`" :: N_of_ascii "`" :: N_of_ascii "`" :: w)
        with (fence ++ w).
      rewrite (fence_to_end_here w Hw). apply orb_true_r. }
    rewrite H. reflexivity.
  - rewrite strip_close_unfold. cbn [app close_here].
    assert (H1 : fence_to_end (a :: s ++ fence ++ w) = false).
    { destruct (fence_to_end (a :: s ++ fence ++ w)) eqn:E; [| reflexivity].
      apply (fence_to_end_app (a :: s) w Hw) in E. discriminate. }
    rewrite H1, orb_false_r.
    destruct s as [| b s].
    + cbn [app]. rewrite (fence_to_end_here w Hw), andb_true_r.
      cbn [chop_lf]. destruct (a =? LF)%N; [reflexivity |].
      f_equal. exact IH.
    + assert (H2 : fence_to_end ((b :: s) ++ fence ++ w) = false).
      { destruct (fence_to_end ((b :: s) ++ fence ++ w)) eqn:E; [| reflexivity].
        apply (fence_to_end_app (b :: s) w Hw) in E. discriminate. }
      rewrite H2, andb_false_r. rewrite IH. reflexivity.
Qed.

Lemma close_here_ends (s : jsstring) : close_here s = true -> ends_with_fence s.
Proof.
  destruct s as [| c s]; [discriminate |]. cbn [close_here].
  intros H. apply orb_true_iff in H. destruct H as [H | H].
  - apply andb_true_iff in H. destruct H as [Hc H].
    apply N.eqb_eq in Hc. subst c.
    apply fence_to_end_spec in H. destruct H as (w & -> & Hw).
    exists [LF], w. auto.
  - apply fence_to_end_spec in H. destruct H as (w & H & Hw).
    exists [], w. auto.
Qed.

(** A text that does not end with a closing fence is left as it is. *)
Lemma strip_close_unfenced (s : jsstring) :
  ~ ends_with_fence s -> strip_close s = s.
Proof.
  induction s as [| a s IH]; intros H.
  - reflexivity.
  - rewrite strip_close_unfold.
    destruct (close_here (a :: s)) eqn:E.
    + exfalso. apply H. apply close_here_ends. exact E.
    + f_equal. apply IH. intros (r & w & -> & Hw). apply H.
      exists (a :: r), w. auto.
Qed.

(** After the opening fence, all the white space that follows goes too. *)
Lemma strip_open_fenced (f w r : jsstring) :
  ci_eq f fence_json -> all_space w -> strip_open (f ++ w ++ r) = trimStart r.
Proof.
  intros Hf Hw. unfold strip_open. rewrite (match_ci_app _ _ _ Hf). cbv zeta.
  rewrite (trimStart_space w r Hw).
  destruct (trimStart r) as [| c r2] eqn:E; [reflexivity |].
  destruct (c =? LF)%N eqn:Ec; [| reflexivity].
  apply N.eqb_eq in Ec. subst c. apply trimStart_head in E. discriminate.
Qed.

Lemma strip_open_unfenced (s : jsstring) :
  (forall f r, s = f ++ r -> ~ ci_eq f fence_json) -> strip_open s = s.
Proof.
  intros H. unfold strip_open.
  destruct (match_ci fence_json s) as [r |] eqn:E; [| reflexivity].
  apply match_ci_Some in E. destruct E as (f & -> & Hf).
  exfalso. exact (H f r eq_refl Hf).
Qed.

(** A fenced text: the opener, white space, a body, an optional line feed,
    the closing fence, white space. What is left is the body, trimmed. *)
Lemma stripMarkdownCodeBlocks_fenced (f w1 body nl w2 : jsstring) :
  ci_eq f fence_json -> all_space w1 -> all_space w2 ->
  nl = [] \/ nl = [LF] ->
  stripMarkdownCodeBlocks (f ++ w1 ++ body ++ nl ++ fence ++ w2) = trim body.
Proof.
  intros Hf H1 H2 Hnl. unfold stripMarkdownCodeBlocks.
  rewrite (strip_open_fenced f w1 _ Hf H1).
  replace (body ++ nl ++ fence ++ w2) with ((body ++ nl) ++ fence ++ w2)
    by (rewrite <- app_assoc; reflexivity).
  rewrite (trimStart_app_solid (body ++ nl) (fence ++ w2) 96%N (96%N :: 96%N :: w2))
    by reflexivity.
  rewrite (strip_close_fenced _ w2 H2), trim_chop_lf, trim_trimStart.
  destruct Hnl as [-> | ->].
  - rewrite app_nil_r. reflexivity.
  - apply trim_snoc_space. exact LF_is_space.
Qed.

Lemma ends_with_fence_trimStart (s : jsstring) :
  ends_with_fence (trimStart s) -> ends_with_fence s.
Proof.
  intros (r & w & E & Hw). destruct (trimStart_decompose s) as (w0 & Hs & _).
  exists (w0 ++ r), w. split; [| exact Hw].
  rewrite Hs at 1. rewrite E, <- app_assoc. reflexivity.
Qed.

(** Only the opening fence: it goes, with the white space after it. *)
Lemma stripMarkdownCodeBlocks_opener (f w1 body : jsstring) :
  ci_eq f fence_json -> all_space w1 -> ~ ends_with_fence body ->
  stripMarkdownCodeBlocks (f ++ w1 ++ body) = trim body.
Proof.
  intros Hf H1 Hc. unfold stripMarkdownCodeBlocks.
  rewrite (strip_open_fenced f w1 body Hf H1).
  rewrite strip_close_unfenced.
  - apply trim_trimStart.
  - intros H. apply Hc. apply ends_with_fence_trimStart. exact H.
Qed.

(** Only the closing fence: it goes, with the line feed before it. *)
Lemma stripMarkdownCodeBlocks_closer (body nl w2 : jsstring) :
  (forall f r, body ++ nl ++ fence ++ w2 = f ++ r -> ~ ci_eq f fence_json) ->
  all_space w2 -> nl = [] \/ nl = [LF] ->
  stripMarkdownCodeBlocks (body ++ nl ++ fence ++ w2) = trim body.
Proof.
  intros Ho H2 Hnl. unfold stripMarkdownCodeBlocks.
  rewrite (strip_open_unfenced _ Ho).
  replace (body ++ nl ++ fence ++ w2) with ((body ++ nl) ++ fence ++ w2)
    by (rewrite <- app_assoc; reflexivity).
  rewrite (strip_close_fenced _ w2 H2), trim_chop_lf.
  destruct Hnl as [-> | ->].
  - rewrite app_nil_r. reflexivity.
  - apply trim_snoc_space. exact LF_is_space.
Qed.

(** A text with no fence at either end is only trimmed. *)
Lemma stripMarkdownCodeBlocks_unfenced (s : jsstring) :
  (forall f r, s = f ++ r -> ~ ci_eq f fence_json) ->
  ~ ends_with_fence s ->
  stripMarkdownCodeBlocks s = trim s.
Proof.
  intros Ho Hc. unfold stripMarkdownCodeBlocks.
  rewrite (strip_open_unfenced s Ho), (strip_close_unfenced s Hc). reflexivity.
Qed.

(** ** parseJsonWrapper *)

(** Claim C4. [parseJsonWrapper] returns normally on every input: it never
    throws. When [JSON.parse] throws on the fence-stripped text, and also
    when it yields [null] (whose property read throws), the [catch] branch
    returns that text with [parsed] false. *)
Theorem parseJsonWrapper_never_raises (content : jsstring) :
  (exists r, parseJsonWrapper content = Normal r) /\
  (forall e,
      JSON_parse (stripMarkdownCodeBlocks content) = Throw e ->
      parseJsonWrapper content = Normal (fallback content)) /\
  (JSON_parse (stripMarkdownCodeBlocks content) = Normal JNull ->
   parseJsonWrapper content = Normal (fallback content)).
Proof.
  unfold parseJsonWrapper, fallback. cbv zeta.
  destruct (JSON_parse (stripMarkdownCodeBlocks content)) as [v | e] eqn:E.
  - split; [| split].
    + destruct v; cbn; eauto.
    + intros e H. discriminate.
    + intros H. injection H as ->. reflexivity.
  - split; [| split].
    + cbn. eauto.
    + intros e' _. reflexivity.
    + intros H. discriminate.
Qed.

Lemma parseJsonWrapper_never_raises_witness :
  parseJsonWrapper plain_text
  = Normal {| email := Some (JString plain_text); reasoning := None; parsed := false |}.
Proof.
  destruct (parseJsonWrapper_never_raises plain_text) as (_ & Hthrow & _).
  assert (H : JSON_parse (stripMarkdownCodeBlocks plain_text) = Throw syntaxError)
    by (vm_compute; reflexivity).
  rewrite (Hthrow syntaxError H). vm_compute. reflexivity.
Defined.

(** Claim C6. [parseJsonWrapper] works on the fence-stripped, trimmed text:
    a text between an opening json fence (in any case, with the white space
    after it) and a closing fence (with the line feed before it and the white
    space after it) is reduced to its trimmed body, also when only one of
    the two fences is there, and a text with no fence at either end is only
    trimmed. If that text decodes as an object, the
    result has the object's [final_email] and [reasoning] members (the last
    one of each name, [None] if absent) and [parsed] true; if decoding
    throws, it has the text itself as [email] and [parsed] false. The
    example of the specification evaluates as stated. *)
Theorem parseJsonWrapper_spec :
  (forall f w1 body nl w2,
      ci_eq f fence_json -> all_space w1 -> all_space w2 ->
      nl = [] \/ nl = [LF] ->
      stripMarkdownCodeBlocks (f ++ w1 ++ body ++ nl ++ fence ++ w2) = trim body) /\
  (forall f w1 body,
      ci_eq f fence_json -> all_space w1 -> ~ ends_with_fence body ->
      stripMarkdownCodeBlocks (f ++ w1 ++ body) = trim body) /\
  (forall body nl w2,
      (forall f r, body ++ nl ++ fence ++ w2 = f ++ r -> ~ ci_eq f fence_json) ->
      all_space w2 -> nl = [] \/ nl = [LF] ->
      stripMarkdownCodeBlocks (body ++ nl ++ fence ++ w2) = trim body) /\
  (forall content,
      (forall f r, content = f ++ r -> ~ ci_eq f fence_json) ->
      ~ ends_with_fence content ->
      stripMarkdownCodeBlocks content = trim content) /\
  (forall content ms,
      JSON_parse (stripMarkdownCodeBlocks content) = Normal (JObject ms) ->
      parseJsonWrapper content
      = Normal {| email := member (lit "final_email") ms;
                  reasoning := member (lit "reasoning") ms;
                  parsed := true |}) /\
  (forall content e,
      JSON_parse (stripMarkdownCodeBlocks content) = Throw e ->
      parseJsonWrapper content
      = Normal {| email := Some (JString (stripMarkdownCodeBlocks content));
                  reasoning := None;
                  parsed := false |}) /\
  parseJsonWrapper fenced_example
  = Normal {| email := Some (JString (lit "Hi"));
              reasoning := Some (JString (lit "why"));
              parsed := true |}.
Proof.
  split; [exact stripMarkdownCodeBlocks_fenced |].
  split; [exact stripMarkdownCodeBlocks_opener |].
  split; [exact stripMarkdownCodeBlocks_closer |].
  split; [exact stripMarkdownCodeBlocks_unfenced |].
  split; [| split].
  - intros content ms H. unfold parseJsonWrapper. cbv zeta. rewrite H. reflexivity.
  - intros content e H. unfold parseJsonWrapper. cbv zeta. rewrite H. reflexivity.
  - vm_compute. reflexivity.
Qed.

Lemma parseJsonWrapper_spec_witness :
  stripMarkdownCodeBlocks fenced_example = example_body /\
  parseJsonWrapper fenced_example
  = Normal {| email := Some (JString (lit "Hi"));
              reasoning := Some (JString (lit "why"));
              parsed := true |}.
Proof.
  destruct parseJsonWrapper_spec as (Hfenced & _ & _ & _ & Hobj & _ & _).
  assert (Hstrip : stripMarkdownCodeBlocks fenced_example = example_body).
  { assert (E : fenced_example
                = lit "```json" ++ [LF] ++ example_body ++ [LF] ++ fence ++ [])
      by (vm_compute; reflexivity).
    rewrite E.
    rewrite (Hfenced (lit "```json") [LF] example_body [LF] []).
    - vm_compute. reflexivity.
    - reflexivity.
    - repeat constructor.
    - constructor.
    - right. reflexivity. }
  split; [exact Hstrip |].
  rewrite (Hobj fenced_example
             [(lit "final_email", JString (lit "Hi"));
              (lit "reasoning", JString (lit "why"))]).
  - vm_compute. reflexivity.
  - rewrite Hstrip. vm_compute. reflexivity.
Defined.

(** ** The reasoning tags *)

Lemma is_open_length (o : jsstring) : is_open o -> length o = 7%nat.
Proof. intros H. apply ci_eq_length in H. exact H. Qed.

Lemma is_close_length (c : jsstring) : is_close c -> length c = 8%nat.
Proof. intros H. apply ci_eq_length in H. exact H. Qed.

Lemma app_same_length {A} (a a' r r' : list A) :
  a ++ r = a' ++ r' -> length a = length a' -> a = a' /\ r = r'.
Proof.
  revert a'. induction a as [| x a IH]; intros [| x' a'] H L; try discriminate.
  - auto.
  - cbn in H, L. injection H as -> H. injection L as L.
    destruct (IH _ H L) as [-> ->]. auto.
Qed.

(** [find_close] finds the first closing tag. *)
Lemma find_close_Some (s : jsstring) (n : nat) :
  find_close s = Some n ->
  exists x c b,
    s = x ++ c ++ b /\ is_close c /\ n = (length x + 8)%nat /\
    (forall x' c' b',
        s = x' ++ c' ++ b' -> is_close c' -> (length x <= length x')%nat).
Proof.
  revert n. induction s as [| a s IH]; intros n H; [discriminate |].
  cbn [find_close] in H.
  destruct (match_ci close_tag (a :: s)) as [r |] eqn:E.
  - injection H as <-. apply match_ci_Some in E. destruct E as (f & E & Hf).
    exists [], f, r. repeat split; auto. intros; cbn; lia.
  - destruct (find_close s) as [m |] eqn:Em; [| discriminate].
    injection H as <-.
    destruct (IH m eq_refl) as (x & c & b & -> & Hc & -> & Hfirst).
    exists (a :: x), c, b. repeat split; auto.
    intros x' c' b' H' Hc'. destruct x' as [| a' x'].
    + cbn in H'. rewrite H' in E. rewrite (match_ci_app _ _ _ Hc') in E. discriminate.
    + cbn in H'. injection H' as _ H'. cbn. apply le_n_S. eapply Hfirst; eassumption.
Qed.

Lemma find_close_None (s : jsstring) :
  find_close s = None ->
  forall x c b, s = x ++ c ++ b -> ~ is_close c.
Proof.
  induction s as [| a s IH]; intros H x c b E Hc.
  - apply is_close_length in Hc. destruct x; [destruct c |]; discriminate.
  - cbn [find_close] in H.
    destruct (match_ci close_tag (a :: s)) as [r |] eqn:Em; [discriminate |].
    destruct (find_close s) as [m |] eqn:Ef; [discriminate |].
    destruct x as [| a' x].
    + cbn in E. rewrite E in Em. rewrite (match_ci_app _ _ _ Hc) in Em. discriminate.
    + cbn in E. injection E as _ E. exact (IH eq_refl x c b E Hc).
Qed.

(** [match_think] decides whether a span starts at the head of the text and
    gives its length. *)
Lemma match_think_span (s : jsstring) (n : nat) :
  match_think s = Some n -> span_at s 0 n.
Proof.
  unfold match_think.
  destruct (match_ci open_tag s) as [r |] eqn:Eo; [| discriminate].
  destruct (find_close r) as [m |] eqn:Ec; [| discriminate].
  cbn. intros H. injection H as <-.
  apply match_ci_Some in Eo. destruct Eo as (o & -> & Ho).
  apply find_close_Some in Ec.
  destruct Ec as (x & c & b & -> & Hc & -> & Hfirst).
  exists [], o, x, c, b. repeat split; auto.
  rewrite !length_app, (is_close_length c Hc), (is_open_length o Ho). lia.
Qed.

Lemma span_match_think (s : jsstring) (n : nat) :
  span_at s 0 n -> match_think s = Some n.
Proof.
  intros (a & o & x & c & b & -> & La & Ho & Hc & -> & Hfirst).
  destruct a; [| discriminate]. cbn [app].
  unfold match_think. rewrite (match_ci_app _ _ _ Ho).
  destruct (find_close (x ++ c ++ b)) as [m |] eqn:Ef.
  - apply find_close_Some in Ef.
    destruct Ef as (x0 & c0 & b0 & E0 & Hc0 & -> & Hfirst0).
    pose proof (Hfirst _ _ _ E0 Hc0) as H1.
    pose proof (Hfirst0 _ _ _ eq_refl Hc) as H2.
    cbn. f_equal.
    rewrite !length_app, (is_close_length c Hc), (is_open_length o Ho).
    change (length open_tag) with 7%nat. lia.
  - exfalso. exact (find_close_None _ Ef x c b eq_refl Hc).
Qed.

Lemma span_at_length (s : jsstring) (p n : nat) :
  span_at s p n -> (15 <= n /\ p + n <= length s)%nat.
Proof.
  intros (a & o & x & c & b & -> & La & Ho & Hc & -> & _).
  rewrite !length_app, (is_close_length c Hc), (is_open_length o Ho). lia.
Qed.

Lemma span_at_cons (a0 : N) (s : jsstring) (p n : nat) :
  span_at (a0 :: s) (S p) n <-> span_at s p n.
Proof.
  split.
  - intros (a & o & x & c & b & E & La & Ho & Hc & Hn & Hfirst).
    destruct a as [| a1 a]; [discriminate |].
    cbn in E. injection E as _ ->. cbn in La. injection La as La.
    exists a, o, x, c, b. auto 10.
  - intros (a & o & x & c & b & -> & La & Ho & Hc & Hn & Hfirst).
    exists (a0 :: a), o, x, c, b. cbn. auto 10.
Qed.

Lemma no_span_nil (p n : nat) : ~ span_at [] p n.
Proof. intros H. apply span_at_length in H. cbn in H. lia. Qed.

(** The length a span has at a position is determined. *)
Lemma span_at_unique (s : jsstring) (p n n' : nat) :
  span_at s p n -> span_at s p n' -> n = n'.
Proof.
  revert s. induction p as [| p IH]; intros s H H'.
  - apply span_match_think in H, H'. congruence.
  - destruct s as [| a0 s]; [exfalso; exact (no_span_nil _ _ H) |].
    apply span_at_cons in H, H'. eapply IH; eassumption.
Qed.

Lemma replace_think_skip (k : nat) (s : jsstring) :
  replace_think k s = replace_think 0 (skipn k s).
Proof.
  revert s. induction k as [| k IH]; intros s; [reflexivity |].
  destruct s as [| c s]; [reflexivity |]. cbn [replace_think skipn]. apply IH.
Qed.

Lemma replace_think_cons (c : N) (s : jsstring) :
  replace_think 0 (c :: s) =
  match match_think (c :: s) with
  | Some n => replace_think 0 (skipn n (c :: s))
  | None => c :: replace_think 0 s
  end.
Proof.
  cbn [replace_think].
  destruct (match_think (c :: s)) as [n |] eqn:E; [| reflexivity].
  destruct n as [| k].
  - apply match_think_span, span_at_length in E. lia.
  - rewrite replace_think_skip. reflexivity.
Qed.

Lemma Stripped_cons (c : N) (s r : jsstring) :
  (forall n, ~ span_at (c :: s) 0 n) ->
  Stripped s r -> Stripped (c :: s) (c :: r).
Proof.
  intros H0 Hs. destruct Hs as [s Hnone | a m b b' Hspan Hleft Hb].
  - apply stripped_none. intros p n Hp. destruct p as [| p].
    + exact (H0 n Hp).
    + apply span_at_cons in Hp. exact (Hnone p n Hp).
  - change (c :: a ++ m ++ b) with ((c :: a) ++ m ++ b).
    change (c :: a ++ b') with ((c :: a) ++ b').
    apply stripped_span.
    + cbn [length app]. apply span_at_cons. exact Hspan.
    + intros p n Hp. destruct p as [| p].
      * exfalso. exact (H0 n Hp).
      * cbn [app] in Hp. apply span_at_cons in Hp. cbn [length].
        apply le_n_S. exact (Hleft p n Hp).
    + exact Hb.
Qed.

(** What [replace] leaves is the text with every span removed. *)
Lemma replace_think_Stripped (s : jsstring) : Stripped s (replace_think 0 s).
Proof.
  remember (length s) as len eqn:Hlen. revert s Hlen.
  induction len as [len IH] using lt_wf_ind. intros s Hlen.
  destruct s as [| c s].
  - apply stripped_none. intros p n. apply no_span_nil.
  - rewrite replace_think_cons.
    destruct (match_think (c :: s)) as [n |] eqn:E.
    + pose proof (match_think_span _ _ E) as Hspan.
      destruct (span_at_length _ _ _ Hspan) as [Hn Hle]. cbn [Nat.add] in Hle.
      rewrite <- (firstn_skipn n (c :: s)) at 1.
      assert (Hm : length (firstn n (c :: s)) = n) by (apply firstn_length_le; exact Hle).
      change (Stripped ([] ++ firstn n (c :: s) ++ skipn n (c :: s))
                       ([] ++ replace_think 0 (skipn n (c :: s)))).
      apply stripped_span.
      * cbn [app length]. rewrite Hm, firstn_skipn. exact Hspan.
      * intros p n' _. cbn. lia.
      * apply (IH (length (skipn n (c :: s)))); [| reflexivity].
        rewrite length_skipn. subst len. cbn [length] in *. lia.
    + apply Stripped_cons.
      * intros n Hn. apply span_match_think in Hn. congruence.
      * apply (IH (length s)); [subst len; cbn; lia | reflexivity].
Qed.

(** The relation of the specification determines the result. *)
Lemma Stripped_deterministic (s r1 r2 : jsstring) :
  Stripped s r1 -> Stripped s r2 -> r1 = r2.
Proof.
  intros H1. revert r2.
  induction H1 as [s Hnone | a m b b' Hspan Hleft Hb IH]; intros r2 H2.
  - inversion H2 as [s' Hnone' | a2 m2 b2 b2' Hspan2 Hleft2 Hb2 Es]; subst.
    + reflexivity.
    + exfalso. exact (Hnone _ _ Hspan2).
  - inversion H2 as [s' Hnone' | a2 m2 b2 b2' Hspan2 Hleft2 Hb2 Es]; subst.
    + exfalso. exact (Hnone' _ _ Hspan).
    + rewrite Es in Hspan2, Hleft2.
      pose proof (Hleft _ _ Hspan2) as L1.
      pose proof (Hleft2 _ _ Hspan) as L2.
      assert (La : length a2 = length a) by lia.
      destruct (app_same_length _ _ _ _ Es La) as [-> Em].
      pose proof (span_at_unique _ _ _ _ Hspan Hspan2) as Lm.
      destruct (app_same_length _ _ _ _ Em (eq_sym Lm)) as [-> ->].
      f_equal. apply IH. exact Hb2.
Qed.

(** [trim] removes white space at both ends and nothing else. *)
Lemma trimEnd_decompose (s : jsstring) :
  exists w, s = trimEnd s ++ w /\ all_space w.
Proof.
  unfold trimEnd. destruct (trimStart_decompose (rev s)) as (w & Hw & Hs).
  exists (rev w). split.
  - rewrite <- rev_app_distr, <- Hw, rev_involutive. reflexivity.
  - unfold all_space in *. apply Forall_rev. exact Hs.
Qed.

Lemma trim_decompose (s : jsstring) :
  exists w1 w2, s = w1 ++ trim s ++ w2 /\ all_space w1 /\ all_space w2.
Proof.
  unfold trim.
  destruct (trimStart_decompose s) as (w1 & H1 & Hs1).
  destruct (trimEnd_decompose (trimStart s)) as (w2 & H2 & Hs2).
  exists w1, w2. rewrite <- H2. auto.
Qed.

Lemma trim_trimmed (s : jsstring) : trimmed (trim s).
Proof.
  unfold trim. split.
  - intros c r E.
    destruct (trimEnd_decompose (trimStart s)) as (w & Hw & _).
    rewrite E in Hw. cbn in Hw. exact (trimStart_head _ _ _ Hw).
  - intros c r E. unfold trimEnd in E.
    apply (f_equal (@rev N)) in E. rewrite rev_involutive, rev_app_distr in E.
    cbn in E. exact (trimStart_head _ _ _ E).
Qed.

Lemma span_at_skipn (s : jsstring) (p n : nat) :
  span_at s p n -> span_at (skipn p s) 0 n.
Proof.
  revert s. induction p as [| p IH]; intros s H; [exact H |].
  destruct s as [| a0 s]; [exfalso; exact (no_span_nil _ _ H) |].
  cbn [skipn]. apply IH. apply span_at_cons in H. exact H.
Qed.

Lemma no_span_checked (s : jsstring) :
  forallb (no_match_from s) (seq 0 (S (length s))) = true ->
  forall p n, ~ span_at s p n.
Proof.
  intros H p n Hp. rewrite forallb_forall in H.
  pose proof (span_at_length _ _ _ Hp) as [_ Hle].
  assert (Hin : In p (seq 0 (S (length s)))) by (apply in_seq; lia).
  specialize (H p Hin). unfold no_match_from in H.
  apply span_at_skipn, span_match_think in Hp. rewrite Hp in H. discriminate.
Qed.

(** Claim C7. For every text, [removeThinkTags] returns the trimmed form of
    the one text obtained by removing every span from left to right, a span
    being an opening tag (in any case) up to the first closing tag (in any
    case) after it, whatever lies between them, line breaks included; a text
    with no span is returned trimmed and otherwise unchanged; the result has
    no white space at either end and only white space was cut around it. On
    a text with two spans between a, b and c the result is abc. *)
Theorem removeThinkTags_spec (text : jsstring) :
  (exists r,
      Stripped text r /\
      (forall r', Stripped text r' -> r' = r) /\
      removeThinkTags text = trim r /\
      exists w1 w2, r = w1 ++ removeThinkTags text ++ w2 /\
                    all_space w1 /\ all_space w2) /\
  ((forall p n, ~ span_at text p n) -> removeThinkTags text = trim text) /\
  trimmed (removeThinkTags text) /\
  removeThinkTags (lit "a<think>x</think>b<think>y</think>c") = lit "abc".
Proof.
  split; [| split; [| split]].
  - exists (replace_think 0 text).
    split; [apply replace_think_Stripped |].
    split; [| split; [reflexivity | apply trim_decompose]].
    intros r' H. exact (Stripped_deterministic _ _ _ H (replace_think_Stripped text)).
  - intros Hnone. unfold removeThinkTags. f_equal.
    exact (Stripped_deterministic _ _ _ (replace_think_Stripped text)
             (@stripped_none text Hnone)).
  - apply trim_trimmed.
  - vm_compute. reflexivity.
Qed.

Lemma removeThinkTags_spec_witness :
  removeThinkTags untagged_text = lit "<think> never closed, no span".
Proof.
  destruct (removeThinkTags_spec untagged_text) as (_ & Hnone & _).
  rewrite Hnone.
  - vm_compute. reflexivity.
  - apply no_span_checked. vm_compute. reflexivity.
Defined.

End TextFacts.

(* ================================================================== *)
(** * More facts about the hook *)
(* ================================================================== *)

Module HookMore.
Import Js Hook HookSpec HookInv HookFacts.
Local Open Scope hook_scope.

(** ** What the events leave alone *)

(** The clock, the timers and the network touch neither the form nor the
    list of requests sent. *)
Lemma environment_keeps_form (e : Event) (w w' : World) :
  environment e = true -> step e w = Some w' ->
  jobUrl (hook w') = jobUrl (hook w) /\
  resume (hook w') = resume (hook w) /\
  requests (trace w') = requests (trace w).
Proof.
  intros He Hs. destruct e; try discriminate; cbn [step] in Hs.
  - destruct (now (loop w) <=? t)%Z; [| discriminate]. injection Hs as <-.
    repeat split.
  - unfold fire in Hs.
    destruct (find (has_id id) (timers (loop w))) as [t |]; [| discriminate].
    destruct (due t <=? now (loop w))%Z; [| discriminate]. injection Hs as <-.
    destruct (repeating t), (callback t); repeat split.
  - destruct (find (awaits_response controller) (awaiting (loop w))) as [k |];
      [| discriminate].
    destruct k as [c tmo iv | c iv]; [| discriminate].
    destruct r as [ok | err].
    + destruct (existsb (Nat.eqb controller) (aborted (loop w))); [discriminate |].
      injection Hs as <-.
      unfold afterResponse, inTry, catchBlock, clearIfSet.
      destruct ok, (truthy_id iv); repeat split.
    + injection Hs as <-.
      unfold afterResponse, inTry, catchBlock, clearIfSet.
      destruct (truthy_id iv); repeat split.
  - destruct (find (awaits_json controller) (awaiting (loop w))) as [k |];
      [| discriminate].
    destruct k as [c tmo iv | c iv]; [discriminate |].
    injection Hs as <-.
    unfold afterJson, inTry, catchBlock, clearIfSet.
    destruct r as [data | err]; [repeat split |].
    destruct (truthy_id iv); repeat split.
Qed.


(** ** Validation: the accepting side *)

(** Property X1. A PDF or DOCX of at most 20 MiB (the bound included) is
    stored as the document: [handleFileChange] returns normally, emits no
    notice, and changes nothing else; with no file chosen it does nothing at
    all. *)
Theorem handleFileChange_accepts (file : File) (w : World) :
  valid_file file ->
  let w' := snd (handleFileChange (Some file) w) in
  fst (handleFileChange (Some file) w) = Normal tt /\
  resume (hook w') = Some file /\
  jobUrl (hook w') = jobUrl (hook w) /\
  isGenerating (hook w') = isGenerating (hook w) /\
  result (hook w') = result (hook w) /\
  progress (hook w') = progress (hook w) /\
  loop w' = loop w /\
  trace w' = trace w /\
  handleFileChange None w = (Normal tt, w).
Proof.
  intros [Hty Hsz]. unfold handleFileChange.
  apply includes_In in Hty. rewrite Hty. cbn [negb].
  apply N.ltb_ge in Hsz. rewrite Hsz. repeat split.
Qed.

Lemma handleFileChange_accepts_witness :
  resume (hook (snd (handleFileChange (Some largest_docx) initial)))
  = Some largest_docx /\
  toasts (trace (snd (handleFileChange (Some largest_docx) initial))) = [].
Proof.
  assert (H : valid_file largest_docx).
  { split; [right; left; reflexivity | apply N.le_refl]. }
  destruct (@handleFileChange_accepts largest_docx initial H)
    as (_ & Hres & _ & _ & _ & _ & _ & Htr & _).
  split; [exact Hres | rewrite Htr; reflexivity].
Defined.

(** ** The progress stays between 0 and 100 *)

Lemma started_before_cleared (n : Z) (iv : nat) (ts : list Timer) :
  started_before n ts ->
  started_before n (if truthy_id iv
                    then filter (fun t => negb (Nat.eqb (tid t) iv)) ts else ts).
Proof.
  intros H. destruct (truthy_id iv); [apply Forall_filter_keep |]; exact H.
Qed.

Lemma in_range_calculated (elapsed : Z) :
  (0 <= elapsed)%Z -> in_range (calculatedProgress elapsed).
Proof.
  intros H. destruct (calculatedProgress_bounds H) as [H1 H2].
  unfold in_range, SEND_COMPLETE, PROCESSING_END in *. split; lra.
Qed.

Ltac in_range_const :=
  unfold in_range, PREPARE, SEND, SEND_COMPLETE, RESPONSE_RECEIVED, PARSING,
    PRE_COMPLETE, COMPLETE; split; lra.

Lemma range_inv_step (e : Event) (w w' : World) :
  range_inv w -> step e w = Some w' -> range_inv w'.
Proof.
  unfold range_inv. intros (Hp & Hs & Ht) Hstep. destruct e.
  - apply view_setJobUrl in Hstep. use_view Hstep. rewrite Hpr, Hsh, Hti, Hno. auto.
  - apply view_fileChange in Hstep. use_view Hstep. rewrite Hpr, Hsh, Hti, Hno. auto.
  - cbn in Hstep. injection Hstep as <-. cbn.
    split; [in_range_const |]. split; [| exact Ht].
    constructor; [in_range_const | exact Hs].
  - cbn [step] in Hstep. injection Hstep as <-.
    destruct (resume (hook w)) as [file |] eqn:Er.
    + destruct (jobUrl (hook w)) as [| u us] eqn:Eu.
      * unfold handleGenerate, gets, mbind. rewrite Er, Eu. cbn. auto.
      * assert (Hu : jobUrl (hook w) <> []) by (rewrite Eu; discriminate).
        destruct (view_generate w Hu Er) as (_ & Hv & _). use_view Hv.
        rewrite Hpr, Hsh, Hti, Hno.
        split; [in_range_const |]. split.
        -- repeat (constructor; [in_range_const |]). exact Hs.
        -- constructor; [cbn; lia |]. constructor; [exact I | exact Ht].
    + unfold handleGenerate, gets, mbind. rewrite Er. cbn. auto.
  - apply view_elapse in Hstep. destruct Hstep as [HT Hv]. use_view Hv.
    rewrite Hpr, Hsh, Hti, Hno. split; [exact Hp |]. split; [exact Hs |].
    eapply Forall_impl; [| exact Ht]. cbn. intros u. destruct (callback u); auto. lia.
  - apply view_fire in Hstep. destruct Hstep as (t & Hf & _ & Hv).
    destruct (find_has_id _ _ Hf) as [Hin _].
    assert (Ht' : started_before (now (loop w))
                    (rescheduled id (repeating t) (now (loop w)) (timers (loop w)))).
    { apply Forall_rescheduled; [intros u Hu; exact Hu | exact Ht]. }
    pose proof Ht as Hall. unfold started_before in Hall.
    rewrite Forall_forall in Hall. specialize (Hall t Hin).
    destruct (callback t) as [c | start |] eqn:Ec; use_view Hv;
      rewrite Hpr, Hsh, Hti, Hno.
    + auto.
    + assert (Hr : in_range (calculatedProgress (now (loop w) - start)))
        by (apply in_range_calculated; lia).
      split; [exact Hr |]. split; [constructor; assumption | exact Ht'].
    + split; [in_range_const |]. split; [| exact Ht'].
      constructor; [in_range_const | exact Hs].
  - apply view_response in Hstep. destruct Hstep as (tmo & iv & _ & Hv).
    cbv zeta in Hv.
    destruct r as [[|] | err]; use_view Hv; rewrite Hpr, Hsh, Hti, Hno.
    + split; [in_range_const |]. split.
      * repeat (constructor; [in_range_const |]). exact Hs.
      * apply started_before_cleared. apply Forall_filter_keep. exact Ht.
    + split; [in_range_const |]. split.
      * repeat (constructor; [in_range_const |]). exact Hs.
      * apply started_before_cleared, started_before_cleared.
        apply Forall_filter_keep. exact Ht.
    + split; [in_range_const |]. split.
      * constructor; [in_range_const | exact Hs].
      * apply started_before_cleared. exact Ht.
  - apply view_body in Hstep. destruct Hstep as (iv & _ & Hv). cbv zeta in Hv.
    destruct r as [data | err]; use_view Hv; rewrite Hpr, Hsh, Hti, Hno.
    + split; [in_range_const |]. split.
      * constructor; [in_range_const | exact Hs].
      * constructor; [exact I | exact Ht].
    + split; [in_range_const |]. split.
      * constructor; [in_range_const | exact Hs].
      * apply started_before_cleared. exact Ht.
Qed.

Lemma reachable_range (w : World) : reachable w -> range_inv w.
Proof.
  induction 1 as [| w e w' _ IH Hs].
  - unfold range_inv, in_range, started_before. cbn.
    repeat split; try lra; constructor.
  - eapply range_inv_step; eassumption.
Qed.




(** ** Only validated documents are sent *)

Lemma handleGenerate_keeps_form (w : World) :
  jobUrl (hook (snd (handleGenerate w))) = jobUrl (hook w) /\
  resume (hook (snd (handleGenerate w))) = resume (hook w) /\
  toasts (trace (snd (handleGenerate w)))
  = if CanvasView.isSome (resume (hook w)) && truthy (jobUrl (hook w))
    then toasts (trace w) else missingToast :: toasts (trace w).
Proof.
  unfold handleGenerate, gets, mbind.
  destruct (resume (hook w)) as [file |] eqn:Er;
    destruct (jobUrl (hook w)) as [| u us] eqn:Eu;
    cbn; rewrite ?Er, ?Eu; auto.
Qed.

Lemma form_inv_step (e : Event) (w w' : World) :
  form_inv w -> step e w = Some w' -> form_inv w'.
Proof.
  intros [Hres Hreq] Hs.
  destruct (environment e) eqn:Eenv.
  - destruct (environment_keeps_form _ _ Eenv Hs) as (_ & Hr & Hq).
    split; [rewrite Hr; exact Hres | rewrite Hq; exact Hreq].
  - destruct e; try discriminate; cbn [step] in Hs; injection Hs as <-.
    + split; assumption.
    + unfold handleFileChange. destruct file0 as [file |]; [| split; assumption].
      destruct (includes validTypes (file_type file)) eqn:Ei; cbn [negb];
        [| split; assumption].
      destruct (20 * 1024 * 1024 <? file_size file)%N eqn:El; [split; assumption |].
      split; [| exact Hreq].
      intros f Hf. cbn in Hf. injection Hf as <-.
      split; [apply includes_In; exact Ei | apply N.ltb_ge; exact El].
    + split; [intros f Hf; discriminate | exact Hreq].
    + destruct (handleGenerate_keeps_form w) as (_ & Hr & _).
      split; [rewrite Hr; exact Hres |].
      destruct (resume (hook w)) as [file |] eqn:Er.
      * destruct (jobUrl (hook w)) as [| u us] eqn:Eu.
        -- unfold handleGenerate, gets, mbind. rewrite Er, Eu. exact Hreq.
        -- assert (Hu : jobUrl (hook w) <> []) by (rewrite Eu; discriminate).
           destruct (view_generate w Hu Er) as (_ & _ & Hq). rewrite Hq.
           constructor; [| exact Hreq].
           split; [reflexivity |]. split; [exact Hu | apply Hres; reflexivity].
      * unfold handleGenerate, gets, mbind. rewrite Er. exact Hreq.
Qed.

Lemma reachable_form (w : World) : reachable w -> form_inv w.
Proof.
  induction 1 as [| w e w' _ IH Hs].
  - split; [intros f Hf; discriminate | constructor].
  - eapply form_inv_step; eassumption.
Qed.

(** Property X3. Every request the hook ever sent went to [API_ENDPOINT] with
    a non-empty job URL and a document that had passed [handleFileChange] (an
    accepted type, at most 20 MiB); the stored document is always such a one;
    and no event but a [submit()] adds a request. *)
Theorem uploads_validated (w : World) :
  reachable w ->
  Forall well_formed (requests (trace w)) /\
  (forall f, resume (hook w) = Some f -> valid_file f) /\
  (forall e w',
      step e w = Some w' -> e <> Generate ->
      requests (trace w') = requests (trace w)).
Proof.
  intros H. destruct (reachable_form H) as [Hres Hreq].
  split; [exact Hreq |]. split; [exact Hres |].
  intros e w' Hs Hne.
  destruct (environment e) eqn:Eenv.
  - apply (environment_keeps_form _ _ Eenv Hs).
  - destruct e; try discriminate; cbn [step] in Hs; injection Hs as <-.
    + reflexivity.
    + unfold handleFileChange. destruct file0 as [file |]; [| reflexivity].
      destruct (negb (includes validTypes (file_type file))); [reflexivity |].
      destruct (20 * 1024 * 1024 <? file_size file)%N; reflexivity.
    + reflexivity.
    + congruence.
Qed.

Lemma uploads_validated_witness :
  Forall well_formed (requests (trace in_flight_world)) /\
  requests (trace in_flight_world) <> [].
Proof.
  split.
  - apply (uploads_validated in_flight_world_reachable).
  - vm_compute. discriminate.
Defined.

(** ** The busy flag *)

Lemma busy_inv_step (e : Event) (w w' : World) :
  busy_inv w -> step e w = Some w' -> busy_inv w'.
Proof.
  unfold busy_inv. intros B Hs. destruct e.
  - apply view_setJobUrl in Hs. use_view Hs. rewrite Hge, Haw. exact B.
  - apply view_fileChange in Hs. use_view Hs. rewrite Hge, Haw. exact B.
  - cbn in Hs. injection Hs as <-. exact B.
  - cbn [step] in Hs. injection Hs as <-.
    destruct (resume (hook w)) as [file |] eqn:Er.
    + destruct (jobUrl (hook w)) as [| u us] eqn:Eu.
      * unfold handleGenerate, gets, mbind. rewrite Er, Eu. exact B.
      * assert (Hu : jobUrl (hook w) <> []) by (rewrite Eu; discriminate).
        destruct (view_generate w Hu Er) as (_ & Hv & _). use_view Hv.
        rewrite Haw. discriminate.
    + unfold handleGenerate, gets, mbind. rewrite Er. exact B.
  - apply view_elapse in Hs. destruct Hs as [_ Hv]. use_view Hv.
    rewrite Hge, Haw. exact B.
  - apply view_fire in Hs. destruct Hs as (t & _ & _ & Hv). use_view Hv.
    rewrite Hge, Haw. exact B.
  - apply view_response in Hs. destruct Hs as (tmo & iv & _ & Hv). cbv zeta in Hv.
    destruct r as [[|] | err]; use_view Hv; rewrite Hge, ?Haw; discriminate.
  - apply view_body in Hs. destruct Hs as (iv & _ & Hv). cbv zeta in Hv.
    destruct r as [data | err]; use_view Hv; rewrite Hge; discriminate.
Qed.

(** Property X6. [isGenerating] is true only while a call of [handleGenerate]
    is suspended at one of its [await]s: however the calls overlap, the flag
    is never left on once every call has run its [finally]. *)
Theorem busy_only_while_suspended (w : World) :
  reachable w -> isGenerating (hook w) = true -> awaiting (loop w) <> [].
Proof.
  induction 1 as [| w e w' _ IH Hs].
  - discriminate.
  - eapply busy_inv_step; eassumption.
Qed.

Lemma busy_only_while_suspended_witness :
  isGenerating (hook in_flight_world) = true /\
  awaiting (loop in_flight_world) <> [].
Proof.
  assert (H : isGenerating (hook in_flight_world) = true) by (vm_compute; reflexivity).
  split; [exact H |].
  exact (busy_only_while_suspended in_flight_world_reachable H).
Defined.


(** ** A submit is not guarded *)

(** Property X2. With a URL and a document, [handleGenerate] starts a request
    whatever else is going on (it does not look at [isGenerating]): one more
    request is sent, carrying the current URL and document; one more call is
    suspended, holding a fresh controller, a one-shot abort timer of 120 s and
    a progress interval of 500 ms, all armed now; the progress runs 0, 5, 10,
    20; [isGenerating] is set, the result is emptied, no notice is emitted,
    and the calls, timers and requests that were there stay. *)
Theorem handleGenerate_starts_request (w : World) (file : File) :
  jobUrl (hook w) <> [] ->
  resume (hook w) = Some file ->
  let w' := snd (handleGenerate w) in
  let n := nextId (loop w) in
  fst (handleGenerate w) = Normal tt /\
  requests (trace w')
  = {| req_url := API_ENDPOINT; req_controller := n;
       req_job_url := jobUrl (hook w); req_resume := file |}
    :: requests (trace w) /\
  awaiting (loop w') = AwaitResponse n (S n) (S (S n)) :: awaiting (loop w) /\
  timers (loop w')
  = {| tid := S (S n); armedAt := now (loop w); delay := PROGRESS_UPDATE_INTERVAL;
       repeating := true; callback := TrackProgress (now (loop w)) |}
    :: {| tid := S n; armedAt := now (loop w); delay := REQUEST_TIMEOUT;
          repeating := false; callback := AbortRequest n |}
    :: timers (loop w) /\
  shown (trace w') = SEND_COMPLETE :: SEND :: PREPARE :: 0 :: shown (trace w) /\
  progress (hook w') = SEND_COMPLETE /\
  isGenerating (hook w') = true /\
  result (hook w') = None /\
  toasts (trace w') = toasts (trace w) /\
  jobUrl (hook w') = jobUrl (hook w) /\
  resume (hook w') = resume (hook w).
Proof.
  intros Hu Hr. cbv zeta.
  destruct (view_generate w Hu Hr) as (Hn & Hv & Hq). cbv zeta in Hv, Hq.
  destruct (handleGenerate_keeps_form w) as (Hj & Hres & Hto).
  rewrite Hr in Hto. cbn [CanvasView.isSome andb] in Hto.
  destruct (jobUrl (hook w)) as [| u us] eqn:Eu; [congruence |].
  cbn [truthy] in Hto.
  use_view Hv. rewrite Hsh, Hpr, Haw, Hti, Hge, Hre.
  repeat split; assumption.
Qed.

Lemma handleGenerate_starts_request_witness :
  isGenerating (hook in_flight_world) = true /\
  length (requests (trace (snd (handleGenerate in_flight_world)))) = 2%nat /\
  length (awaiting (loop (snd (handleGenerate in_flight_world)))) = 2%nat.
Proof.
  assert (Hu : jobUrl (hook in_flight_world) <> []) by (vm_compute; discriminate).
  assert (Hr : resume (hook in_flight_world) = Some sample_pdf)
    by (vm_compute; reflexivity).
  destruct (@handleGenerate_starts_request in_flight_world sample_pdf Hu Hr)
    as (_ & Hq & Ha & _).
  split; [vm_compute; reflexivity |].
  rewrite Hq, Ha. split; vm_compute; reflexivity.
Defined.

(** ** The timers of a response that arrived *)

Lemma held_later (n m : nat) (ks : list Suspended) :
  (n <= m)%nat -> held n ks -> held m ks.
Proof.
  intros Hnm H. eapply Forall_impl; [| exact H].
  intros [c tmo iv | c iv]; cbn; lia.
Qed.

Lemma held_ids_step (e : Event) (w w' : World) :
  held_ids w -> step e w = Some w' -> held_ids w'.
Proof.
  unfold held_ids.
  intros H Hs. destruct e.
  - apply view_setJobUrl in Hs. use_view Hs. rewrite Haw, Hne. exact H.
  - apply view_fileChange in Hs. use_view Hs. rewrite Haw, Hne. exact H.
  - cbn in Hs. injection Hs as <-. exact H.
  - cbn [step] in Hs. injection Hs as <-.
    destruct (resume (hook w)) as [file |] eqn:Er.
    + destruct (jobUrl (hook w)) as [| u us] eqn:Eu.
      * unfold handleGenerate, gets, mbind. rewrite Er, Eu. exact H.
      * assert (Hu : jobUrl (hook w) <> []) by (rewrite Eu; discriminate).
        destruct (view_generate w Hu Er) as (_ & Hv & _). use_view Hv.
        rewrite Haw, Hne. constructor; [cbn; lia |].
        eapply held_later; [| exact H]. lia.
    + unfold handleGenerate, gets, mbind. rewrite Er. exact H.
  - apply view_elapse in Hs. destruct Hs as [_ Hv]. use_view Hv.
    rewrite Haw, Hne. exact H.
  - apply view_fire in Hs. destruct Hs as (t & _ & _ & Hv). use_view Hv.
    rewrite Haw, Hne. exact H.
  - apply view_response in Hs. destruct Hs as (tmo & iv & Hf & Hv). cbv zeta in Hv.
    assert (Hk : (0 < iv < nextId (loop w))%nat).
    { apply find_some in Hf. destruct Hf as [Hin _].
      unfold held in H. rewrite Forall_forall in H. apply (H _ Hin). }
    destruct r as [[|] | err]; use_view Hv; rewrite Haw, Hne;
      try (constructor; [exact Hk |]); apply Forall_filter_keep; exact H.
  - apply view_body in Hs. destruct Hs as (iv & _ & Hv). cbv zeta in Hv.
    destruct r as [data | err]; use_view Hv; rewrite Haw, Hne.
    + apply Forall_filter_keep. eapply held_later; [| exact H]. lia.
    + apply Forall_filter_keep. exact H.
Qed.

Lemma reachable_held (w : World) : reachable w -> held_ids w.
Proof.
  induction 1 as [| w e w' _ IH Hs].
  - constructor.
  - eapply held_ids_step; eassumption.
Qed.

Lemma find_rescheduled_none (id id' : nat) (rep : bool) (at_ : Z) (ts : list Timer) :
  find (has_id id) ts = None ->
  find (has_id id) (rescheduled id' rep at_ ts) = None.
Proof.
  unfold rescheduled. destruct rep; [| apply find_filter_none].
  induction ts as [| t ts IH]; cbn; [reflexivity |].
  destruct (has_id id t) eqn:E; [discriminate |]. intros H.
  destruct (has_id id' t); cbn; unfold has_id in *; cbn; rewrite E; auto.
Qed.

Lemma find_cleared_none (id iv : nat) (ts : list Timer) :
  find (has_id id) ts = None ->
  find (has_id id)
       (if truthy_id iv then filter (fun t => negb (Nat.eqb (tid t) iv)) ts else ts)
  = None.
Proof. intros H. destruct (truthy_id iv); [apply find_filter_none |]; exact H. Qed.

Lemma has_id_fresh (id n : nat) (t : Timer) :
  (id < n)%nat -> tid t = n -> has_id id t = false.
Proof. intros H E. unfold has_id. apply Nat.eqb_neq. lia. Qed.

Lemma gone_step (id : nat) (e : Event) (w w' : World) :
  gone id w -> step e w = Some w' -> gone id w'.
Proof.
  unfold gone. intros [G L] Hs. destruct e.
  - apply view_setJobUrl in Hs. use_view Hs. rewrite Hti, Hne. auto.
  - apply view_fileChange in Hs. use_view Hs. rewrite Hti, Hne. auto.
  - cbn in Hs. injection Hs as <-. auto.
  - cbn [step] in Hs. injection Hs as <-.
    destruct (resume (hook w)) as [file |] eqn:Er.
    + destruct (jobUrl (hook w)) as [| u us] eqn:Eu.
      * unfold handleGenerate, gets, mbind. rewrite Er, Eu. auto.
      * assert (Hu : jobUrl (hook w) <> []) by (rewrite Eu; discriminate).
        destruct (view_generate w Hu Er) as (_ & Hv & _). use_view Hv.
        rewrite Hti, Hne. split; [| lia]. cbn [find].
        rewrite (@has_id_fresh id (S (S (nextId (loop w))))) by (cbn; lia).
        rewrite (@has_id_fresh id (S (nextId (loop w)))) by (cbn; lia).
        exact G.
    + unfold handleGenerate, gets, mbind. rewrite Er. auto.
  - apply view_elapse in Hs. destruct Hs as [_ Hv]. use_view Hv.
    rewrite Hti, Hne. auto.
  - apply view_fire in Hs. destruct Hs as (t & _ & _ & Hv). use_view Hv.
    rewrite Hti, Hne. split; [apply find_rescheduled_none; exact G | exact L].
  - apply view_response in Hs. destruct Hs as (tmo & iv & _ & Hv). cbv zeta in Hv.
    destruct r as [[|] | err]; use_view Hv; rewrite Hti, Hne; (split; [| exact L]);
      repeat apply find_cleared_none; try apply find_filter_none; exact G.
  - apply view_body in Hs. destruct Hs as (iv & _ & Hv). cbv zeta in Hv.
    destruct r as [data | err]; use_view Hv; rewrite Hti, Hne.
    + split; [| lia]. cbn [find].
      rewrite (@has_id_fresh id (nextId (loop w))) by (cbn; lia). exact G.
    + split; [apply find_cleared_none; exact G | exact L].
Qed.

Lemma gone_run (id : nat) (es : list Event) :
  forall w w', gone id w -> run es w = Some w' -> gone id w'.
Proof.
  induction es as [| e es IH]; intros w w' G Hr; cbn in Hr.
  - injection Hr as <-. exact G.
  - destruct (step e w) as [w1 |] eqn:Es; [| discriminate].
    eapply IH; [eapply gone_step; eassumption | exact Hr].
Qed.

(** Property X8. However the response of a call settles (a good status, a bad
    one, a rejection), the progress interval of that call is cancelled for
    good: whatever happens later, it is not pending again. When the response
    arrived, with a good status or a bad one, the same holds of the call's
    abort timer. *)
Theorem settled_response_cancels_timers (w w' : World) (c tmo iv : nat)
    (r : ResponseOutcome) :
  reachable w ->
  find (awaits_response c) (awaiting (loop w)) = Some (AwaitResponse c tmo iv) ->
  step (ResponseSettled c r) w = Some w' ->
  forall es w'',
    run es w' = Some w'' ->
    find (has_id iv) (timers (loop w'')) = None /\
    (forall ok, r = Fulfilled ok -> find (has_id tmo) (timers (loop w'')) = None).
Proof.
  intros Hreach Hf Hs es w'' Hr.
  pose proof (reachable_held Hreach) as Hh.
  assert (Hk : (0 < tmo < nextId (loop w))%nat /\ (0 < iv < nextId (loop w))%nat).
  { pose proof Hf as Hin. apply find_some in Hin. destruct Hin as [Hin _].
    unfold held_ids, held in Hh. rewrite Forall_forall in Hh.
    specialize (Hh _ Hin). cbn in Hh. tauto. }
  destruct Hk as [Htmo Hiv].
  assert (Htr : truthy_id iv = true) by (apply truthy_id_nonzero; lia).
  apply view_response in Hs. destruct Hs as (tmo' & iv' & Hf' & Hv).
  rewrite Hf in Hf'. injection Hf' as <- <-. cbv zeta in Hv. rewrite Htr in Hv.
  assert (G : gone iv w' /\ (forall ok, r = Fulfilled ok -> gone tmo w')).
  { destruct r as [[|] | err]; use_view Hv; unfold gone; rewrite Hti, Hne.
    - split; [split; [apply find_has_id_cleared | lia] |].
      intros ok _. split; [| lia].
      apply find_filter_none, find_has_id_cleared.
    - split; [split; [apply find_has_id_cleared | lia] |].
      intros ok _. split; [| lia].
      apply find_filter_none, find_filter_none, find_has_id_cleared.
    - split; [split; [apply find_has_id_cleared | lia] |].
      intros ok E. discriminate E. }
  destruct G as [G1 G2].
  split; [apply (gone_run es G1 Hr) |].
  intros ok E. apply (gone_run es (G2 ok E) Hr).
Qed.

Lemma settled_response_cancels_timers_witness :
  exists w',
    step (ResponseSettled 1 (Fulfilled true)) in_flight_world = Some w' /\
    find (has_id 2) (timers (loop in_flight_world)) = Some abort_timer /\
    find (has_id 2) (timers (loop w')) = None /\
    find (has_id 3) (timers (loop w')) = None.
Proof.
  destruct (step (ResponseSettled 1 (Fulfilled true)) in_flight_world) as [w' |] eqn:Es;
    [| vm_compute in Es; discriminate].
  exists w'. split; [reflexivity |]. split; [vm_compute; reflexivity |].
  destruct (@settled_response_cancels_timers in_flight_world w' 1 2 3 (Fulfilled true)
              in_flight_world_reachable in_flight_world_awaits Es [] w' eq_refl)
    as [Hiv Htmo].
  split; [exact (Htmo true eq_refl) | exact Hiv].
Defined.

(** ** The simulated progress *)



(** ** While a request is being generated *)

Lemma generating_inv_step (e : Event) (w w' : World) :
  generating_inv w -> step e w = Some w' -> generating_inv w'.
Proof.
  unfold generating_inv. intros G Hs. destruct e.
  - apply view_setJobUrl in Hs. use_view Hs. rewrite Hge, Hre. exact G.
  - apply view_fileChange in Hs. use_view Hs. rewrite Hge, Hre. exact G.
  - cbn in Hs. injection Hs as <-. reflexivity.
  - cbn [step] in Hs. injection Hs as <-.
    destruct (resume (hook w)) as [file |] eqn:Er.
    + destruct (jobUrl (hook w)) as [| u us] eqn:Eu.
      * unfold handleGenerate, gets, mbind. rewrite Er, Eu. exact G.
      * assert (Hu : jobUrl (hook w) <> []) by (rewrite Eu; discriminate).
        destruct (view_generate w Hu Er) as (_ & Hv & _). use_view Hv.
        rewrite Hre. reflexivity.
    + unfold handleGenerate, gets, mbind. rewrite Er. exact G.
  - apply view_elapse in Hs. destruct Hs as [_ Hv]. use_view Hv.
    rewrite Hge, Hre. exact G.
  - apply view_fire in Hs. destruct Hs as (t & _ & _ & Hv). use_view Hv.
    rewrite Hge, Hre. exact G.
  - apply view_response in Hs. destruct Hs as (tmo & iv & _ & Hv). cbv zeta in Hv.
    destruct r as [[|] | err]; use_view Hv; rewrite Hge, ?Hre;
      first [exact G | discriminate].
  - apply view_body in Hs. destruct Hs as (iv & _ & Hv). cbv zeta in Hv.
    destruct r as [data | err]; use_view Hv; rewrite Hge; discriminate.
Qed.

(** Property X7. While [isGenerating] is set the result is empty, however the
    calls overlap: what sets a result clears the flag in the same step, and
    what sets the flag empties the result. So the page then shows the canvas
    with the props of a request that just started: no result; the canvas does
    not take its early return and, there being no drafts yet, shows not one
    agent card. *)
Theorem generating_has_no_result (w : World) :
  reachable w ->
  isGenerating (hook w) = true ->
  result (hook w) = None /\
  Page.canvasShown (hook w) = true /\
  Page.formShown (hook w) = true /\
  Page.canvasProps (hook w) = (true, None, progress (hook w)) /\
  CanvasView.rendersNothing (isGenerating (hook w)) (result (hook w)) = false /\
  CanvasView.agentGrid (isGenerating (hook w)) (result (hook w)) = [].
Proof.
  intros Hreach Hg.
  assert (Hr : result (hook w) = None).
  { revert Hg. induction Hreach as [| w e w' _ IH Hs]; [discriminate |].
    exact (@generating_inv_step e w w' IH Hs). }
  unfold Page.canvasShown, Page.formShown, Page.canvasProps.
  rewrite Hr, Hg. repeat split.
Qed.

Lemma generating_has_no_result_witness :
  isGenerating (hook in_flight_world) = true /\
  result (hook in_flight_world) = None.
Proof.
  assert (Hg : isGenerating (hook in_flight_world) = true) by (vm_compute; reflexivity).
  split; [exact Hg |].
  apply (generating_has_no_result in_flight_world_reachable Hg).
Defined.

End HookMore.

(* ================================================================== *)
(** * The request time-out *)
(* ================================================================== *)

Module HookTimeout.
Import Js Hook HookSpec HookInv HookFacts HookMore.
Local Open Scope hook_scope.

Lemma abort_timers_cleared (c : nat) (T : Z) (iv : nat) (ts : list Timer) :
  abort_timers c T ts ->
  abort_timers c T (if truthy_id iv
                    then filter (fun t => negb (Nat.eqb (tid t) iv)) ts else ts).
Proof.
  intros H. destruct (truthy_id iv); [apply Forall_filter_keep |]; exact H.
Qed.

Lemma abort_timers_rescheduled (c : nat) (T : Z) (id : nat) (t : Timer) (at_ : Z)
    (ts : list Timer) :
  NoDup (map tid ts) -> In t ts -> tid t = id ->
  abort_timers c T ts ->
  abort_timers c T (rescheduled id (repeating t) at_ ts).
Proof.
  intros Hnd Hin Hid H. unfold rescheduled.
  destruct (repeating t) eqn:Erep; [| apply Forall_filter_keep; exact H].
  unfold abort_timers in *. rewrite Forall_forall in *.
  intros u' Hu'. apply in_map_iff in Hu'. destruct Hu' as (u & Hu & Huin).
  destruct (has_id id u) eqn:Eid.
  - unfold has_id in Eid. apply Nat.eqb_eq in Eid.
    assert (u = t) by (eapply tid_injective; eauto; congruence). subst u.
    subst u'. cbn. intros Hcb. destruct (H t Hin Hcb) as (_ & _ & Hr). congruence.
  - subst u'. apply H. exact Huin.
Qed.

Lemma abort_inv_step (c : nat) (T : Z) (e : Event) (w w' : World) :
  fresh_ids w -> abort_inv c T w -> step e w = Some w' -> abort_inv c T w'.
Proof.
  unfold abort_inv.
  intros F (Hc & Ht & Ha) Hs. destruct e.
  - apply view_setJobUrl in Hs. use_view Hs. rewrite Hti, Hne, Hbo, Hno. auto.
  - apply view_fileChange in Hs. use_view Hs. rewrite Hti, Hne, Hbo, Hno. auto.
  - cbn in Hs. injection Hs as <-. auto.
  - cbn [step] in Hs. injection Hs as <-.
    destruct (resume (hook w)) as [file |] eqn:Er.
    + destruct (jobUrl (hook w)) as [| u us] eqn:Eu.
      * unfold handleGenerate, gets, mbind. rewrite Er, Eu. auto.
      * assert (Hu : jobUrl (hook w) <> []) by (rewrite Eu; discriminate).
        destruct (view_generate w Hu Er) as (_ & Hv & _). use_view Hv.
        rewrite Hti, Hne, Hbo, Hno. split; [lia |]. split; [| exact Ha].
        constructor; [cbn; discriminate |].
        constructor; [| exact Ht].
        cbn. intros E. injection E as E. lia.
    + unfold handleGenerate, gets, mbind. rewrite Er. auto.
  - apply view_elapse in Hs. destruct Hs as [HT Hv]. use_view Hv.
    rewrite Hti, Hne, Hbo, Hno. split; [exact Hc |]. split; [exact Ht |].
    intros Hin. specialize (Ha Hin). lia.
  - apply view_fire in Hs. destruct Hs as (t & Hf & Hdue & Hv).
    destruct (find_has_id _ _ Hf) as [Hin Hid].
    destruct F as (_ & Hnd & _).
    pose proof (@abort_timers_rescheduled c T id t (now (loop w)) _ Hnd Hin Hid Ht) as Ht'.
    pose proof Ht as Hall. unfold abort_timers in Hall.
    rewrite Forall_forall in Hall. specialize (Hall t Hin).
    destruct (callback t) as [c' | start |] eqn:Ec; use_view Hv;
      rewrite Hti, Hne, Hbo, Hno; (split; [exact Hc |]); (split; [exact Ht' |]);
      try exact Ha.
    intros [E | Hin']; [| exact (Ha Hin')].
    subst c'. destruct (Hall eq_refl) as (H1 & H2 & _).
    unfold due in Hdue. rewrite H1, H2 in Hdue. exact Hdue.
  - apply view_response in Hs. destruct Hs as (tmo & iv & _ & Hv). cbv zeta in Hv.
    destruct r as [[|] | err]; use_view Hv; rewrite Hti, Hne, Hbo, Hno;
      (split; [exact Hc |]); (split; [| exact Ha]);
      repeat apply abort_timers_cleared; try apply Forall_filter_keep; exact Ht.
  - apply view_body in Hs. destruct Hs as (iv & _ & Hv). cbv zeta in Hv.
    destruct r as [data | err]; use_view Hv; rewrite Hti, Hne, Hbo, Hno.
    + split; [lia |]. split; [| exact Ha].
      constructor; [cbn; discriminate | exact Ht].
    + split; [exact Hc |]. split; [| exact Ha].
      apply abort_timers_cleared. exact Ht.
Qed.

Lemma abort_inv_run (c : nat) (T : Z) (es : list Event) :
  forall w w',
    fresh_ids w -> abort_inv c T w -> run es w = Some w' -> abort_inv c T w'.
Proof.
  induction es as [| e es IH]; intros w w' F A Hr; cbn in Hr.
  - injection Hr as <-. exact A.
  - destruct (step e w) as [w1 |] eqn:Es; [| discriminate].
    eapply IH; [| | exact Hr].
    + eapply fresh_ids_step; eassumption.
    + eapply abort_inv_step; eassumption.
Qed.

(** Property X9. The controller of a request submitted at time [T] is aborted
    no earlier than [T + 120000] ms, whatever happens in between (other
    submits, clears, timers, responses); and once it is aborted, the response
    of that request can no longer arrive: the call can only end in its
    [catch]. *)
Theorem abort_not_before_timeout (w : World) (file : File) :
  reachable w ->
  jobUrl (hook w) <> [] ->
  resume (hook w) = Some file ->
  forall es w',
    run (Generate :: es) w = Some w' ->
    In (nextId (loop w)) (aborted (loop w')) ->
    (now (loop w) + REQUEST_TIMEOUT <= now (loop w'))%Z /\
    forall ok, step (ResponseSettled (nextId (loop w)) (Fulfilled ok)) w' = None.
Proof.
  intros Hreach Hu Hr es w' Hrun Hab.
  destruct (reachable_sound Hreach) as [F [K1 K2]].
  cbn [run step] in Hrun.
  destruct (view_generate w Hu Hr) as (_ & Hv & _). cbv zeta in Hv.
  assert (A : abort_inv (nextId (loop w)) (now (loop w)) (snd (handleGenerate w))).
  { unfold abort_inv, abort_timers. use_view Hv. rewrite Hti, Hne, Hbo, Hno.
    split; [lia |]. split.
    - constructor; [cbn; discriminate |].
      constructor; [cbn; auto |].
      rewrite Forall_forall in K1 |- *. intros t Hin Hcb.
      specialize (K1 t Hin). rewrite Hcb in K1. lia.
    - intros Hin. rewrite Forall_forall in K2. specialize (K2 _ Hin). lia. }
  assert (F1 : fresh_ids (snd (handleGenerate w))).
  { apply (@fresh_ids_step Generate w); [exact F | reflexivity]. }
  destruct (@abort_inv_run _ _ es _ _ F1 A Hrun) as (_ & _ & Hlate).
  split; [exact (Hlate Hab) |].
  intros ok. apply aborted_fetch_cannot_fulfil. exact Hab.
Qed.

Lemma abort_not_before_timeout_witness :
  exists w',
    run [Generate; Elapse 120000; Fire 2] ready_world = Some w' /\
    In 1%nat (aborted (loop w')) /\
    (now (loop ready_world) + REQUEST_TIMEOUT <= now (loop w'))%Z /\
    step (ResponseSettled 1 (Fulfilled true)) w' = None.
Proof.
  destruct (run [Generate; Elapse 120000; Fire 2] ready_world) as [w' |] eqn:Hrun;
    [| vm_compute in Hrun; discriminate].
  assert (Hu : jobUrl (hook ready_world) <> []) by (vm_compute; discriminate).
  assert (Hr : resume (hook ready_world) = Some sample_pdf) by (vm_compute; reflexivity).
  assert (Hab : In (nextId (loop ready_world)) (aborted (loop w'))).
  { vm_compute in Hrun. injection Hrun as <-. left. reflexivity. }
  destruct (@abort_not_before_timeout ready_world sample_pdf ready_world_reachable
              Hu Hr [Elapse 120000; Fire 2] w' Hrun Hab) as [Hlate Hno].
  exists w'. split; [reflexivity |]. split; [exact Hab |].
  split; [exact Hlate | exact (Hno true)].
Defined.

End HookTimeout.

(* ================================================================== *)
(** * Facts about the page *)
(* ================================================================== *)

Module PageFacts.
Import Js Hook HookSpec HookInv HookFacts HookMore PageInv.
Local Open Scope hook_scope.

Lemma page_step_hook (e : Event) (w w' : World) :
  Page.step e w = Some w' -> Page.offered w e = true /\ step e w = Some w'.
Proof.
  unfold Page.step. destruct (Page.offered w e); [auto | discriminate].
Qed.

Lemma page_reachable_hook (w : World) : Page.reachable w -> reachable w.
Proof.
  induction 1 as [| w e w' _ IH Hs].
  - apply reach_initial.
  - apply page_step_hook in Hs. destruct Hs as [_ Hs].
    eapply reach_step; eassumption.
Qed.

(** A request that failed leaves the hook idle. *)
Lemma lifetime_idle (s0 : list Q) (w : World) :
  lifetime s0 w -> result (hook w) = None -> isGenerating (hook w) = false ->
  idle w.
Proof.
  intros L Hr Hg. unfold idle, quiet.
  destruct L; try congruence.
  match goal with Ha : awaiting (loop w) = [] |- _ => rewrite Ha end. auto.
Qed.

(** What the lifetime invariant says of the suspended calls. *)
Lemma lifetime_single (s0 : list Q) (w : World) :
  lifetime s0 w ->
  (length (awaiting (loop w)) <= 1)%nat /\
  (isGenerating (hook w) = true <-> awaiting (loop w) <> []) /\
  (forall data, result (hook w) = Some data -> awaiting (loop w) = []).
Proof.
  intros L.
  destruct L as [d c tmo iv start Hd Hdesc Hp Ha Hiv Hts Hst Hle Hg Hr
                | d c iv Hd Hdesc Hp Ha Hiv Hts Hpar Hg Hr
                | d data t Hd Hdesc Hp Ha Hin Hcb Hrep Hts Hpre Hg Hr
                | d data Hd Hdesc Hp Ha Hts Hcom Hg Hr
                | d Hd Hdesc Hp Ha Hts Hg Hr];
    rewrite Ha, Hg; cbn; repeat split; try lia; try congruence.
Qed.

Lemma offered_button (w : World) (e : Event) :
  passive e = false -> Page.offered w e = true ->
  result (hook w) = None /\ isGenerating (hook w) = false.
Proof.
  unfold Page.offered, Page.formShown, Page.clearEnabled, Page.generateEnabled.
  destruct e; try discriminate; intros _ H;
    destruct (result (hook w)); destruct (isGenerating (hook w));
    cbn in H; try discriminate; auto.
Qed.

Lemma idle_step (e : Event) (w w' : World) :
  idle w -> Page.step e w = Some w' -> idle w' \/ exists s0, lifetime s0 w'.
Proof.
  intros (Hq & Hr & Hg) Hs. apply page_step_hook in Hs. destruct Hs as [Hoff Hs].
  destruct (passive e) eqn:Ep.
  - left. destruct (quiet_passive_step _ _ Hq Ep Hs) as (Hq' & _ & Hr' & Hg' & _).
    unfold idle. rewrite Hr', Hg'. auto.
  - destruct e; try discriminate.
    + left. cbn in Hs. injection Hs as <-. unfold idle, quiet in *. cbn. auto.
    + right. cbn [step] in Hs. injection Hs as <-.
      unfold Page.offered, Page.generateEnabled, Page.formShown in Hoff.
      rewrite Hr, Hg in Hoff.
      destruct (resume (hook w)) as [file |] eqn:Er;
        destruct (jobUrl (hook w)) as [| u us] eqn:Eu;
        cbn in Hoff; try discriminate.
      exists (shown (trace w)). apply (@lifetime_start w file Hq); [| exact Er].
      rewrite Eu. discriminate.
Qed.

Lemma page_inv_step (e : Event) (w w' : World) :
  page_inv w -> Page.step e w = Some w' -> page_inv w'.
Proof.
  intros [F [I | [s0 L]]] Hs.
  - split; [| eapply idle_step; eassumption].
    apply page_step_hook in Hs. eapply fresh_ids_step; [exact F | apply Hs].
  - pose proof Hs as Hs'. apply page_step_hook in Hs'. destruct Hs' as [Hoff Hh].
    split; [eapply fresh_ids_step; eassumption |].
    destruct (passive e) eqn:Ep.
    + right. exists s0. eapply lifetime_step; eassumption.
    + destruct (offered_button w e Ep Hoff) as [Hr Hg].
      eapply idle_step; [| exact Hs]. eapply lifetime_idle; eassumption.
Qed.

Lemma reachable_page_inv (w : World) : Page.reachable w -> page_inv w.
Proof.
  induction 1 as [| w e w' _ IH Hs].
  - split.
    + repeat split; [cbn; lia | constructor | constructor].
    + left. repeat split.
  - eapply page_inv_step; eassumption.
Qed.


Lemma page_run_reachable (es : list Event) :
  forall w w', Page.reachable w -> Page.run es w = Some w' -> Page.reachable w'.
Proof.
  induction es as [| e es IH]; intros w w' Hw Hr; cbn in Hr.
  - injection Hr as <-. exact Hw.
  - destruct (Page.step e w) as [w1 |] eqn:Es; [| discriminate].
    eapply IH; [eapply Page.reach_step; eassumption | exact Hr].
Qed.

Lemma in_flight_world_on_page : Page.reachable in_flight_world.
Proof.
  apply (page_run_reachable
           [SetJobUrl sample_url; FileChange (Some sample_pdf); Generate]
           Page.reach_initial).
  vm_compute. reflexivity.
Qed.

Lemma succeeded_world_on_page : Page.reachable succeeded_world.
Proof.
  apply (page_run_reachable
           [SetJobUrl sample_url; FileChange (Some sample_pdf); Generate;
            ResponseSettled 1 (Fulfilled true);
            BodySettled 1 (Decoded sample_response); Elapse 300; Fire 4]
           Page.reach_initial).
  vm_compute. reflexivity.
Qed.

(** ** One request at a time *)

(** Property X10. Driven through the page, the hook has at most one call
    suspended, and [isGenerating] is true exactly while one is; Clear and
    Generate are offered only while nothing is in flight, so that after a
    Clear no timer or network event changes what the hook returns. *)
Theorem page_single_flight (w : World) :
  Page.reachable w ->
  (length (awaiting (loop w)) <= 1)%nat /\
  (isGenerating (hook w) = true <-> awaiting (loop w) <> []) /\
  (Page.offered w Clear = true \/ Page.offered w Generate = true ->
   quiet w = true) /\
  (forall w1 es w2,
      Page.step Clear w = Some w1 ->
      forallb environment es = true -> run es w1 = Some w2 ->
      hook w2 = hook w1).
Proof.
  intros H. destruct (reachable_page_inv H) as [_ Hinv].
  assert (Hbutton : Page.offered w Clear = true \/ Page.offered w Generate = true ->
                    quiet w = true).
  { intros Hoff.
    assert (Hrg : result (hook w) = None /\ isGenerating (hook w) = false).
    { destruct Hoff as [Hoff | Hoff];
        [apply (offered_button w Clear) | apply (offered_button w Generate)];
        auto. }
    destruct Hrg as [Hr Hg].
    destruct Hinv as [(Hq & _) | [s0 L]]; [exact Hq |].
    apply (lifetime_idle L Hr Hg). }
  split; [| split; [| split; [exact Hbutton |]]].
  - destruct Hinv as [(Hq & _) | [s0 L]].
    + destruct (quiet_inv w Hq) as [Ha _]. rewrite Ha. cbn. lia.
    + apply (lifetime_single L).
  - destruct Hinv as [(Hq & _ & Hg) | [s0 L]].
    + destruct (quiet_inv w Hq) as [Ha _]. rewrite Ha, Hg.
      split; [discriminate | congruence].
    + apply (lifetime_single L).
  - intros w1 es w2 Hs Hes Hr.
    apply page_step_hook in Hs. destruct Hs as [Hoff Hs].
    assert (Hq : quiet w = true) by (apply Hbutton; left; exact Hoff).
    cbn in Hs. injection Hs as <-.
    assert (Hq1 : quiet (snd (handleClear w)) = true) by exact Hq.
    destruct (quiet_environment_run _ _ Hq1 Hes Hr) as (_ & Hh & _). exact Hh.
Qed.

Lemma page_single_flight_witness :
  length (awaiting (loop in_flight_world)) = 1%nat /\
  (isGenerating (hook in_flight_world) = true <->
   awaiting (loop in_flight_world) <> []) /\
  Page.offered in_flight_world Clear = false.
Proof.
  destruct (page_single_flight in_flight_world_on_page) as (_ & Hiff & _).
  split; [vm_compute; reflexivity |]. split; [exact Hiff | vm_compute; reflexivity].
Defined.

(** ** A result stays *)

Lemma showing_step (data : Api.EmailGenerationResponse) (e : Event) (w w' : World) :
  showing data w -> Page.step e w = Some w' ->
  showing data w' /\ environment e = true.
Proof.
  intros (Hr & Hg & Ha) Hs. apply page_step_hook in Hs. destruct Hs as [Hoff Hs].
  unfold showing.
  destruct e; cbn [Page.offered] in Hoff;
    unfold Page.formShown in Hoff; rewrite ?Hr in Hoff; cbn in Hoff;
    try discriminate.
  - apply view_elapse in Hs. destruct Hs as [_ Hv]. use_view Hv.
    rewrite Hre, Hge, Haw. auto.
  - apply view_fire in Hs. destruct Hs as (t & _ & _ & Hv). use_view Hv.
    rewrite Hre, Hge, Haw. auto.
  - cbn [step] in Hs. rewrite Ha in Hs. discriminate.
  - cbn [step] in Hs. rewrite Ha in Hs. discriminate.
Qed.

(** Property X11. Once a result is stored, the page offers neither the inputs
    nor Clear nor Generate (the form is not rendered): only the clock and the
    timers go on, and the result, the URL, the document and the list of
    requests sent stay as they are for good. *)
Theorem page_result_stays (w : World) (data : Api.EmailGenerationResponse) :
  Page.reachable w ->
  result (hook w) = Some data ->
  forall es w',
    Page.run es w = Some w' ->
    forallb environment es = true /\
    result (hook w') = Some data /\
    isGenerating (hook w') = false /\
    jobUrl (hook w') = jobUrl (hook w) /\
    resume (hook w') = resume (hook w) /\
    requests (trace w') = requests (trace w).
Proof.
  intros H Hr.
  assert (S0 : showing data w).
  { destruct (reachable_page_inv H) as [_ [(_ & Hn & _) | [s0 L]]]; [congruence |].
    destruct (lifetime_single L) as (_ & Hiff & Hres).
    pose proof (Hres data Hr) as Ha.
    split; [exact Hr |]. split; [| exact Ha].
    destruct (isGenerating (hook w)); [| reflexivity].
    exfalso. apply (proj1 Hiff); auto. }
  clear H Hr. intros es. revert w S0.
  induction es as [| e es IH]; intros w S0 w' Hrun; cbn in Hrun.
  - injection Hrun as <-. destruct S0 as (Hr & Hg & _). repeat split; assumption.
  - destruct (Page.step e w) as [w1 |] eqn:Es; [| discriminate].
    destruct (@showing_step data e w w1 S0 Es) as [S1 He].
    destruct (IH w1 S1 w' Hrun) as (Hes & Hr' & Hg' & Hj & Hre & Hq).
    apply page_step_hook in Es. destruct Es as [_ Es].
    destruct (environment_keeps_form _ _ He Es) as (Hj1 & Hre1 & Hq1).
    cbn [forallb]. rewrite He, Hes.
    repeat split; congruence.
Qed.

Lemma page_result_stays_witness :
  exists w',
    Page.run [Elapse 1000] succeeded_world = Some w' /\
    result (hook w') = Some sample_response /\
    Page.step Clear w' = None /\
    Page.step Generate w' = None.
Proof.
  destruct (Page.run [Elapse 1000] succeeded_world) as [w' |] eqn:Hrun;
    [| vm_compute in Hrun; discriminate].
  assert (Hr : result (hook succeeded_world) = Some sample_response)
    by (vm_compute; reflexivity).
  destruct (@page_result_stays succeeded_world sample_response
              succeeded_world_on_page Hr [Elapse 1000] w' Hrun) as (_ & Hres & _).
  exists w'. split; [reflexivity |]. split; [exact Hres |].
  unfold Page.step, Page.offered, Page.formShown. rewrite Hres. auto.
Defined.

End PageFacts.

(* ================================================================== *)
(** * More facts about the text functions *)
(* ================================================================== *)

Module TextMore.
Import Js Text Json Wrapper TextSpec TextShape TextFacts.
Local Unset Implicit Arguments.

(** ** Leaving code units out *)

Lemma Subseq_refl (s : jsstring) : Subseq s s.
Proof. induction s; constructor; assumption. Qed.

Lemma Subseq_length (r s : jsstring) : Subseq r s -> (length r <= length s)%nat.
Proof. induction 1; cbn; lia. Qed.

Lemma Subseq_trans (a b c : jsstring) : Subseq a b -> Subseq b c -> Subseq a c.
Proof.
  intros Hab Hbc. revert a Hab.
  induction Hbc as [| x b c _ IH | x b c _ IH]; intros a Hab.
  - exact Hab.
  - inversion Hab; subst; constructor; apply IH; assumption.
  - constructor. apply IH. exact Hab.
Qed.

Lemma Subseq_drop_prefix (a s : jsstring) : Subseq s (a ++ s).
Proof. induction a; cbn; [apply Subseq_refl | constructor; assumption]. Qed.

Lemma Subseq_drop_suffix (s b : jsstring) : Subseq s (s ++ b).
Proof.
  induction s; cbn.
  - induction b; constructor; assumption.
  - constructor. assumption.
Qed.

Lemma Infix_Subseq (r s : jsstring) : Infix r s -> Subseq r s.
Proof.
  intros (a & b & ->).
  eapply Subseq_trans; [apply Subseq_drop_suffix | apply Subseq_drop_prefix].
Qed.

Lemma trim_Infix (s : jsstring) : Infix (trim s) s.
Proof. destruct (trim_decompose s) as (w1 & w2 & H & _). exists w1, w2. exact H. Qed.

Lemma replace_think_Subseq (s : jsstring) :
  forall skip, Subseq (replace_think skip s) s.
Proof.
  induction s as [| c s IH]; intros skip; cbn [replace_think].
  - constructor.
  - destruct skip as [| k]; [| constructor; apply IH].
    destruct (match_think (c :: s)) as [[| k] |]; constructor; apply IH.
Qed.

(** Property X12. [removeThinkTags] only deletes: its result is the text with
    some code units left out, in the same order, so it is never longer. One
    pass is not a fixed point, though: where the removal of a span brings the
    two halves of a tag together, the result holds a span again, which a
    second call would remove. *)
Theorem removeThinkTags_only_deletes :
  (forall text,
      Subseq (removeThinkTags text) text /\
      (length (removeThinkTags text) <= length text)%nat) /\
  (exists text p n,
      span_at (removeThinkTags text) p n /\
      removeThinkTags (removeThinkTags text) <> removeThinkTags text).
Proof.
  split.
  - intros text.
    assert (H : Subseq (removeThinkTags text) text).
    { unfold removeThinkTags.
      eapply Subseq_trans; [apply Infix_Subseq, trim_Infix |].
      apply replace_think_Subseq. }
    split; [exact H | apply Subseq_length; exact H].
  - exists nested_think, 0%nat, 21%nat. split.
    + apply match_think_span. vm_compute. reflexivity.
    + vm_compute. discriminate.
Qed.

(** ** Cutting the fences *)

Lemma strip_open_suffix (text : jsstring) : exists a, text = a ++ strip_open text.
Proof.
  unfold strip_open.
  destruct (match_ci fence_json text) as [r |] eqn:E; [| exists []; reflexivity].
  apply match_ci_Some in E. destruct E as (f & -> & _). cbv zeta.
  destruct (trimStart_decompose r) as (w & Hw & _).
  destruct (trimStart r) as [| c r2] eqn:Et.
  - exists (f ++ r). rewrite app_nil_r. reflexivity.
  - destruct (c =? LF)%N.
    + exists (f ++ w ++ [c]). rewrite Hw at 1. rewrite <- !app_assoc. reflexivity.
    + exists (f ++ w). rewrite Hw at 1. rewrite <- app_assoc. reflexivity.
Qed.

Lemma strip_close_prefix (s : jsstring) : exists b, s = strip_close s ++ b.
Proof.
  induction s as [| c s (b & Hb)].
  - exists []. reflexivity.
  - rewrite strip_close_unfold. destruct (close_here (c :: s)).
    + exists (c :: s). reflexivity.
    + exists b. cbn. rewrite <- Hb. reflexivity.
Qed.

Lemma Infix_length (r s : jsstring) : Infix r s -> (length r <= length s)%nat.
Proof. intros (a & b & ->). rewrite !length_app. lia. Qed.

(** Property X13. [stripMarkdownCodeBlocks] cuts at the two ends only: its
    result is one contiguous piece of the text, with no white space at either
    end, so no code unit inside it is changed, dropped or added. *)
Theorem stripMarkdownCodeBlocks_cuts_ends (text : jsstring) :
  Infix (stripMarkdownCodeBlocks text) text /\
  trimmed (stripMarkdownCodeBlocks text) /\
  (length (stripMarkdownCodeBlocks text) <= length text)%nat.
Proof.
  assert (H : Infix (stripMarkdownCodeBlocks text) text).
  { unfold stripMarkdownCodeBlocks.
    destruct (strip_open_suffix text) as (a & Ha).
    destruct (strip_close_prefix (strip_open text)) as (b & Hb).
    destruct (trim_Infix (strip_close (strip_open text))) as (w1 & w2 & Hw).
    exists (a ++ w1), (w2 ++ b).
    rewrite Ha at 1. rewrite Hb at 1. rewrite Hw at 1.
    rewrite <- !app_assoc. reflexivity. }
  split; [exact H |]. split; [apply trim_trimmed | apply Infix_length; exact H].
Qed.


(** ** Texts with nothing in them *)

Lemma trim_all_space (w : jsstring) : all_space w -> trim w = [].
Proof.
  intros H. unfold trim.
  rewrite <- (app_nil_r w), (trimStart_space w [] H). reflexivity.
Qed.

Lemma all_space_prefix (a b : jsstring) : all_space (a ++ b) -> all_space a.
Proof. unfold all_space. intros H. apply Forall_app in H. tauto. Qed.

Lemma canon_of_space (c : N) : isWhiteSpace c = true -> canon c <> 96%N.
Proof.
  intros H E. apply canon_backtick in E. subst c. discriminate H.
Qed.

Lemma strip_open_space (w : jsstring) : all_space w -> strip_open w = w.
Proof.
  intros H. unfold strip_open.
  destruct w as [| c w]; [reflexivity |].
  inversion H as [| ? ? Hc _]; subst.
  unfold fence_json. cbn [lit map list_ascii_of_string match_ci].
  destruct (canon c =? canon (N_of_ascii "`"))%N eqn:E; [| reflexivity].
  apply N.eqb_eq in E. exfalso. exact (canon_of_space c Hc E).
Qed.

Lemma stripMarkdownCodeBlocks_space (w : jsstring) :
  all_space w -> stripMarkdownCodeBlocks w = [].
Proof.
  intros H. unfold stripMarkdownCodeBlocks. rewrite (strip_open_space w H).
  apply trim_all_space.
  destruct (strip_close_prefix w) as (b & Hb).
  apply (all_space_prefix _ b). rewrite <- Hb. exact H.
Qed.

Lemma parseJsonWrapper_of_empty (content : jsstring) :
  stripMarkdownCodeBlocks content = [] ->
  parseJsonWrapper content = Normal empty_fallback.
Proof.
  intros H. unfold parseJsonWrapper. cbv zeta. rewrite H. reflexivity.
Qed.

(** Property X14. A text with nothing in it: empty, only white space, or a
    fenced block whose body is only white space. The wrapper does not throw on
    it; the empty text is no JSON, so the result is the fallback with the
    empty string as [email] and [parsed] false. *)
Theorem parseJsonWrapper_blank :
  (forall content,
      all_space content -> parseJsonWrapper content = Normal empty_fallback) /\
  (forall f w1 w nl w2,
      ci_eq f fence_json -> all_space w1 -> all_space w -> all_space w2 ->
      nl = [] \/ nl = [LF] ->
      parseJsonWrapper (f ++ w1 ++ w ++ nl ++ fence ++ w2) = Normal empty_fallback).
Proof.
  split.
  - intros content H. apply parseJsonWrapper_of_empty.
    apply stripMarkdownCodeBlocks_space. exact H.
  - intros f w1 w nl w2 Hf H1 Hw H2 Hnl. apply parseJsonWrapper_of_empty.
    rewrite (stripMarkdownCodeBlocks_fenced f w1 w nl w2 Hf H1 H2 Hnl).
    apply trim_all_space. exact Hw.
Qed.

(** ** The parsed flag *)

(** Property X15. The wrapper always returns. [parsed] is true exactly when
    the cleaned text is valid JSON other than [null]; it does not say that an
    e-mail was found: for valid JSON that is no object (a number, a string, an
    array, a boolean) both [email] and [reasoning] are undefined. When
    [parsed] is false the [email] is the cleaned text and [reasoning] is
    undefined. *)
Theorem parseJsonWrapper_parsed_flag (content : jsstring) :
  exists p,
    parseJsonWrapper content = Normal p /\
    (parsed p = true <->
     exists v, JSON_parse (stripMarkdownCodeBlocks content) = Normal v /\ v <> JNull) /\
    (parsed p = false ->
     email p = Some (JString (stripMarkdownCodeBlocks content)) /\
     reasoning p = None) /\
    (forall v,
        JSON_parse (stripMarkdownCodeBlocks content) = Normal v ->
        v <> JNull -> (forall ms, v <> JObject ms) ->
        email p = None /\ reasoning p = None).
Proof.
  unfold parseJsonWrapper. cbv zeta.
  destruct (JSON_parse (stripMarkdownCodeBlocks content)) as [v | e] eqn:E.
  - destruct v as [| b | n | str | items | ms];
      (eexists; split; [reflexivity |]); cbn [parsed email reasoning].
    + split; [split; [discriminate |] |].
      * intros (v & Hv & Hn). injection Hv as <-. congruence.
      * split; [auto |]. intros v Hv Hn _. injection Hv as <-. congruence.
    + split; [split; [intros _; eexists; split; [reflexivity | discriminate] | reflexivity] |].
      split; [discriminate | auto].
    + split; [split; [intros _; eexists; split; [reflexivity | discriminate] | reflexivity] |].
      split; [discriminate | auto].
    + split; [split; [intros _; eexists; split; [reflexivity | discriminate] | reflexivity] |].
      split; [discriminate | auto].
    + split; [split; [intros _; eexists; split; [reflexivity | discriminate] | reflexivity] |].
      split; [discriminate | auto].
    + split; [split; [intros _; eexists; split; [reflexivity | discriminate] | reflexivity] |].
      split; [discriminate |].
      intros v Hv _ Ho. injection Hv as <-. exfalso. exact (Ho ms eq_refl).
  - eexists. split; [reflexivity |]. cbn [parsed email reasoning].
    split; [split; [discriminate | intros (v & Hv & _); discriminate] |].
    split; [auto | intros v Hv; discriminate].
Qed.


(** ** Reading back an encoded object *)

Lemma lex_cons (m : LexMode) (out : list Token) (c : N) (s : jsstring) :
  lex m out (c :: s) =
  match lex_step m out c with
  | Some (m', out') => lex m' out' s
  | None => None
  end.
Proof. reflexivity. Qed.

Lemma lex_space (ws : jsstring) (out : list Token) (rest : jsstring) :
  json_space ws -> lex LTop out (ws ++ rest) = lex LTop out rest.
Proof.
  induction 1 as [| c ws Hc _ IH]; [reflexivity |].
  cbn [app]. rewrite lex_cons. cbn [lex_step]. unfold top_step. rewrite Hc. exact IH.
Qed.

Lemma hex_step (acc : jsstring) (k : nat) (v h d : N) (out : list Token) :
  hex_value h = Some d ->
  lex_step (LHex acc (S (S k)) v) out h = Some (LHex acc (S k) (v * 16 + d)%N, out) /\
  lex_step (LHex acc 1 v) out h = Some (LStr ((v * 16 + d)%N :: acc), out).
Proof. intros H. cbn [lex_step]. rewrite H. auto. Qed.

(** The scanner reads a string literal as the string it denotes. *)
Lemma lex_literal (l s : jsstring) :
  Literal l s ->
  forall acc out rest,
    lex (LStr acc) out (l ++ dquote :: rest)
    = lex LTop (TString (rev acc ++ s) :: out) rest.
Proof.
  induction 1 as [| c l s Hlo Hq Hb _ IH | x v l s Hx _ IH
                 | h1 h2 h3 h4 d1 d2 d3 d4 l s H1 H2 H3 H4 _ IH];
    intros acc out rest.
  - cbn [app]. rewrite lex_cons. cbn. rewrite app_nil_r. reflexivity.
  - cbn [app]. rewrite lex_cons. cbn [lex_step].
    apply N.eqb_neq in Hq, Hb. rewrite Hq, Hb.
    assert (E : (c <? 32)%N = false) by (apply N.ltb_ge; exact Hlo).
    rewrite E, IH. cbn [rev]. rewrite <- app_assoc. reflexivity.
  - cbn [app]. rewrite lex_cons.
    change (lex_step (LStr acc) out backslash) with (Some (LEsc acc, out)).
    cbn iota. rewrite lex_cons.
    assert (E : lex_step (LEsc acc) out x = Some (LStr (v :: acc), out)).
    { cbn in Hx.
      repeat (destruct Hx as [Hx | Hx]; [injection Hx as <- <-; reflexivity |]).
      contradiction. }
    rewrite E, IH. cbn [rev]. rewrite <- app_assoc. reflexivity.
  - cbn [app]. rewrite lex_cons.
    change (lex_step (LStr acc) out backslash) with (Some (LEsc acc, out)).
    cbn iota. rewrite lex_cons.
    change (lex_step (LEsc acc) out 117%N) with (Some (LHex acc 4 0%N, out)).
    cbn iota.
    rewrite lex_cons, (proj1 (hex_step acc 2 0 h1 d1 out H1)).
    rewrite lex_cons, (proj1 (hex_step acc 1 _ h2 d2 out H2)).
    rewrite lex_cons, (proj1 (hex_step acc 0 _ h3 d3 out H3)).
    rewrite lex_cons, (proj2 (hex_step acc 0 _ h4 d4 out H4)).
    rewrite IH. cbn [rev]. rewrite <- app_assoc. cbn [app].
    replace ((((0 * 16 + d1) * 16 + d2) * 16 + d3) * 16 + d4)%N
      with (d1 * 4096 + d2 * 256 + d3 * 16 + d4)%N by lia.
    reflexivity.
Qed.

Lemma lex_quoted (l s : jsstring) (out : list Token) (rest : jsstring) :
  Literal l s ->
  lex LTop out (quoted l ++ rest) = lex LTop (TString s :: out) rest.
Proof.
  intros H. unfold quoted. cbn [app]. rewrite <- app_assoc. cbn [app].
  rewrite lex_cons.
  change (lex_step LTop out dquote) with (Some (LStr [], out)). cbn iota.
  apply (lex_literal l s H [] out rest).
Qed.

(** A string of plain characters is its own literal. *)
Lemma plain_Literal (s : jsstring) : forallb plain s = true -> Literal s s.
Proof.
  induction s as [| c s IH]; cbn; [constructor |].
  intros H. apply andb_true_iff in H. destruct H as [Hc Hs].
  unfold plain in Hc. apply andb_true_iff in Hc. destruct Hc as [Hc Hb].
  apply andb_true_iff in Hc. destruct Hc as [Hlo Hq].
  apply N.leb_le in Hlo. apply negb_true_iff, N.eqb_neq in Hq, Hb.
  constructor; auto.
Qed.


Lemma lex_punct (c : N) (t : Token) (out : list Token) (rest : jsstring) :
  top_step c out = Some (LTop, t :: out) ->
  lex LTop out (c :: rest) = lex LTop (t :: out) rest.
Proof. intros H. rewrite lex_cons. cbn [lex_step]. rewrite H. reflexivity. Qed.

Lemma lex_wrapper_text (g : nat -> jsstring) (le lr e r : jsstring) :
  (forall i, json_space (g i)) -> Literal le e -> Literal lr r ->
  lex LTop [] (wrapper_text g le lr)
  = Some [TLBrace; TString (lit "final_email"); TColon; TString e; TComma;
          TString (lit "reasoning"); TColon; TString r; TRBrace].
Proof.
  intros Hg He Hr. unfold wrapper_text, wrapper_body. rewrite <- !app_assoc.
  change (lit "{") with [123%N]. change (lit ":") with [58%N].
  change (lit ",") with [44%N]. change (lit "}") with [125%N]. cbn [app].
  rewrite (lex_punct 123 TLBrace) by reflexivity.
  rewrite (lex_space _ _ _ (Hg 0%nat)).
  rewrite (lex_quoted _ (lit "final_email")) by (apply plain_Literal; reflexivity).
  rewrite (lex_space _ _ _ (Hg 1%nat)).
  rewrite (lex_punct 58 TColon) by reflexivity.
  rewrite (lex_space _ _ _ (Hg 2%nat)).
  rewrite (lex_quoted _ e) by exact He.
  rewrite (lex_space _ _ _ (Hg 3%nat)).
  rewrite (lex_punct 44 TComma) by reflexivity.
  rewrite (lex_space _ _ _ (Hg 4%nat)).
  rewrite (lex_quoted _ (lit "reasoning")) by (apply plain_Literal; reflexivity).
  rewrite (lex_space _ _ _ (Hg 5%nat)).
  rewrite (lex_punct 58 TColon) by reflexivity.
  rewrite (lex_space _ _ _ (Hg 6%nat)).
  rewrite (lex_quoted _ r) by exact Hr.
  rewrite (lex_space _ _ _ (Hg 7%nat)).
  reflexivity.
Qed.

Lemma JSON_parse_wrapper_text (g : nat -> jsstring) (le lr e r : jsstring) :
  (forall i, json_space (g i)) -> Literal le e -> Literal lr r ->
  JSON_parse (wrapper_text g le lr)
  = Normal (JObject [(lit "final_email", JString e); (lit "reasoning", JString r)]).
Proof.
  intros Hg He Hr. unfold JSON_parse.
  rewrite (lex_wrapper_text g le lr e r Hg He Hr). reflexivity.
Qed.

Lemma trim_solid (a z : N) (m : jsstring) :
  isWhiteSpace a = false -> isWhiteSpace z = false ->
  trim (a :: m ++ [z]) = a :: m ++ [z].
Proof.
  intros Ha Hz. unfold trim, trimEnd. cbn [trimStart]. rewrite Ha.
  change (a :: m ++ [z]) with ((a :: m) ++ [z]).
  rewrite rev_app_distr. cbn [rev app trimStart]. rewrite Hz.
  change (z :: rev m ++ [a]) with ([z] ++ rev (a :: m)).
  rewrite rev_app_distr, rev_involutive. reflexivity.
Qed.

Lemma ends_with_fence_last (x : jsstring) (c : N) :
  ends_with_fence (x ++ [c]) -> c = 96%N \/ isWhiteSpace c = true.
Proof.
  intros (r & w & E & Hw).
  apply (f_equal (@rev N)) in E. rewrite !rev_app_distr in E. cbn [rev app] in E.
  destruct (rev w) as [| c' w'] eqn:Ew.
  - left. cbn in E. injection E as -> _. reflexivity.
  - right. cbn in E. injection E as -> _.
    unfold all_space in Hw. apply Forall_rev in Hw. rewrite Ew in Hw.
    inversion Hw. assumption.
Qed.

Lemma wrapper_text_shape (g : nat -> jsstring) (le lr : jsstring) :
  wrapper_text g le lr = 123%N :: wrapper_body g le lr ++ [125%N].
Proof. reflexivity. Qed.

Lemma stripMarkdownCodeBlocks_wrapper_text (g : nat -> jsstring) (le lr : jsstring) :
  stripMarkdownCodeBlocks (wrapper_text g le lr) = wrapper_text g le lr.
Proof.
  rewrite wrapper_text_shape. unfold stripMarkdownCodeBlocks.
  assert (Ho : strip_open (123%N :: wrapper_body g le lr ++ [125%N])
               = 123%N :: wrapper_body g le lr ++ [125%N]) by reflexivity.
  rewrite Ho. rewrite strip_close_unfenced.
  - apply trim_solid; reflexivity.
  - change (123%N :: wrapper_body g le lr ++ [125%N])
      with ((123%N :: wrapper_body g le lr) ++ [125%N]).
    intros H. apply ends_with_fence_last in H. destruct H as [H | H]; discriminate H.
Qed.

Lemma reads_encoded (text e r : jsstring) :
  Encoded text e r ->
  parseJsonWrapper text
  = Normal {| email := Some (JString e); reasoning := Some (JString r);
              parsed := true |}.
Proof.
  intros (g & le & lr & Hg & He & Hr & Ht).
  pose proof (JSON_parse_wrapper_text g le lr e r Hg He Hr) as Hp.
  unfold parseJsonWrapper. cbv zeta.
  destruct Ht as [-> | (f & w1 & nl & w2 & Hf & H1 & H2 & Hnl & ->)].
  - rewrite stripMarkdownCodeBlocks_wrapper_text, Hp. reflexivity.
  - rewrite (stripMarkdownCodeBlocks_fenced f w1 _ nl w2 Hf H1 H2 Hnl).
    rewrite wrapper_text_shape at 1. rewrite trim_solid by reflexivity.
    rewrite <- wrapper_text_shape, Hp. reflexivity.
Qed.

(** Property X16. An object with a [final_email] and a [reasoning] string
    member, written out as JSON text with whatever escapes and white space the
    encoder chose, is read back exactly: the wrapper returns the two strings
    the literals denote and [parsed] true, whether the text comes bare or
    inside the json fences. *)
Theorem parseJsonWrapper_reads_encoded (text e r : jsstring) :
  Encoded text e r ->
  parseJsonWrapper text
  = Normal {| email := Some (JString e); reasoning := Some (JString r);
              parsed := true |}.
Proof. exact (reads_encoded text e r). Qed.

Lemma sample_literal_denotes : Literal sample_literal sample_string.
Proof.
  unfold sample_literal, sample_string. cbn.
  apply literal_raw; [lia | discriminate | discriminate |].
  apply literal_raw; [lia | discriminate | discriminate |].
  apply (@literal_short 110%N 10%N); [cbn; tauto |].
  apply (@literal_hex 48%N 48%N 101%N 57%N 0%N 0%N 14%N 9%N); try reflexivity.
  apply (@literal_short 34%N 34%N); [cbn; tauto |].
  apply literal_raw; [lia | discriminate | discriminate |].
  apply literal_end.
Qed.

Lemma sample_gaps_space (i : nat) : json_space (sample_gaps i).
Proof.
  unfold sample_gaps.
  do 7 (destruct i as [| i]; [repeat constructor |]). constructor.
Qed.

Lemma wrapped_email_encoded : Encoded wrapped_email sample_string (lit "why").
Proof.
  exists sample_gaps, sample_literal, (lit "why").
  split; [exact sample_gaps_space |]. split; [exact sample_literal_denotes |].
  split; [apply plain_Literal; reflexivity |].
  right. exists (lit "```json"), [LF], [LF], [].
  split; [reflexivity |]. split; [repeat constructor |]. split; [constructor |].
  split; [right; reflexivity |]. reflexivity.
Qed.

Lemma parseJsonWrapper_reads_encoded_witness :
  parseJsonWrapper wrapped_email
  = Normal {| email := Some (JString sample_string);
              reasoning := Some (JString (lit "why"));
              parsed := true |}.
Proof.
  exact (parseJsonWrapper_reads_encoded wrapped_email sample_string (lit "why")
           wrapped_email_encoded).
Defined.

End TextMore.

(* ================================================================== *)
(** * Facts about what is shown *)
(* ================================================================== *)

Module ViewFacts.
Import Js Text Json Cards CanvasView.

(** ** The status line *)

Lemma Qle_bool_false (a b : Q) : Qle_bool a b = false -> b < a.
Proof.
  intros H. apply Qnot_le_lt. intros Hle. apply Qle_bool_iff in Hle. congruence.
Qed.

Lemma Qeq_bool_false (a b : Q) : Qeq_bool a b = false -> ~ a == b.
Proof. intros H E. apply Qeq_bool_iff in E. congruence. Qed.

Lemma Qle_bool_cases (a b : Q) : if Qle_bool a b then a <= b else b < a.
Proof.
  destruct (Qle_bool a b) eqn:E; [apply Qle_bool_iff | apply Qle_bool_false]; exact E.
Qed.

Lemma Qeq_bool_cases (a b : Q) : if Qeq_bool a b then a == b else ~ a == b.
Proof.
  destruct (Qeq_bool a b) eqn:E; [apply Qeq_bool_iff | apply Qeq_bool_false]; exact E.
Qed.

Ltac by_cases p :=
  unfold statusMessage, progressHeader, shows, lt, ge;
  pose proof (Qle_bool_cases 30 p) as E30; pose proof (Qle_bool_cases 60 p) as E60;
  pose proof (Qle_bool_cases 90 p) as E90; pose proof (Qle_bool_cases 100 p) as E100;
  pose proof (Qeq_bool_cases p 100) as Eeq;
  destruct (Qle_bool 30 p); destruct (Qle_bool 60 p); destruct (Qle_bool 90 p);
  destruct (Qle_bool 100 p); destruct (Qeq_bool p 100);
  cbn [negb andb app].

(** Up to 100 the status line shows exactly one of its five texts, the last
    one exactly at 100, where the header turns to Complete; above 100 it
    would show none. *)
Lemma status_line_cases (p : Q) :
  (p <= 100 -> exists m, statusMessage p = [m]) /\
  (100 < p -> statusMessage p = []) /\
  (statusMessage p = [lit "Generation complete!"] <-> p == 100) /\
  (progressHeader p = lit "Complete" <-> 100 <= p).
Proof.
  split; [| split; [| split]].
  - intros H. by_cases p; try (exfalso; lra); eauto.
  - intros H. by_cases p; try (exfalso; lra); reflexivity.
  - by_cases p; split; intros H; try (exfalso; lra); try discriminate H;
      try reflexivity; try assumption.
  - by_cases p; split; intros H; try (exfalso; lra); try discriminate H;
      try reflexivity; try assumption.
Qed.


(** Property X17. Whatever the hook went through, the status line the page
    shows for its progress holds exactly one text, and that is the completion
    text exactly when the progress is 100, which is also when the header reads
    Complete. A progress above 100 would leave the line empty. *)
Theorem status_line_shows_one (w : Hook.World) :
  HookSpec.reachable w ->
  let p := Hook.progress (Hook.hook w) in
  (exists m, statusMessage p = [m]) /\
  (statusMessage p = [lit "Generation complete!"] <-> p == 100) /\
  (progressHeader p = lit "Complete" <-> p == 100) /\
  (forall q, 100 < q -> statusMessage q = []).
Proof.
  intros H. cbv zeta.
  destruct (HookMore.reachable_range H) as ([_ Hle] & _).
  destruct (status_line_cases (Hook.progress (Hook.hook w))) as (H1 & _ & H3 & H4).
  split; [exact (H1 Hle) |]. split; [exact H3 |]. split.
  - rewrite H4. split; intros E; [apply Qle_antisym; assumption | rewrite E; apply Qle_refl].
  - intros q Hq. apply (status_line_cases q). exact Hq.
Qed.

Lemma status_line_shows_one_witness :
  statusMessage (Hook.progress (Hook.hook HookSpec.succeeded_world))
  = [lit "Generation complete!"] /\
  progressHeader (Hook.progress (Hook.hook HookSpec.succeeded_world)) = lit "Complete".
Proof.
  assert (Hreach : HookSpec.reachable HookSpec.succeeded_world).
  { apply (HookFacts.run_reachable
             [Hook.Generate; Hook.ResponseSettled 1 (Hook.Fulfilled true);
              Hook.BodySettled 1 (Hook.Decoded HookSpec.sample_response);
              Hook.Elapse 300; Hook.Fire 4]
             HookFacts.ready_world_reachable).
    vm_compute. reflexivity. }
  destruct (status_line_shows_one Hreach) as (_ & Hmsg & Hhead & _).
  assert (E : Hook.progress (Hook.hook HookSpec.succeeded_world) == 100)
    by (vm_compute; reflexivity).
  split; [apply Hmsg; exact E | apply Hhead; exact E].
Defined.

(** ** The agent cards *)

(** Property X18. Every card of the grid gets [isGenerating] false: a draft
    exists only once there is a result, and then [isGenerating && !result] is
    false; with no result the grid is empty. So a card shows its loader only
    for a draft whose own status is processing, the failure text for a failed
    one, and otherwise the draft without its reasoning spans; the copy button
    is there exactly for a complete draft and copies the very text the card
    shows, under the label made of the agent's name. *)
Theorem agent_grid_never_generating (isGenerating : bool)
    (result : option Api.EmailGenerationResponse) :
  agentGrid isGenerating result = map (fun d => AgentCard d false) (agents result) /\
  (result = None -> agentGrid isGenerating result = []) /\
  forall d,
    body (AgentCard d false)
    = match Api.agent_status d with
      | Api.Complete => DraftText (removeThinkTags (Api.draft d))
      | Api.Processing => Loader
      | Api.Failed => FailureNotice
      end /\
    copyButton (AgentCard d false)
    = match Api.agent_status d with
      | Api.Complete =>
          Some (removeThinkTags (Api.draft d), Api.agent_name d ++ lit " draft")
      | Api.Processing | Api.Failed => None
      end /\
    (forall text label,
        copyButton (AgentCard d false) = Some (text, label) ->
        body (AgentCard d false) = DraftText text).
Proof.
  split; [| split].
  - unfold agentGrid. destruct result as [r |]; [| reflexivity].
    cbn [isSome negb]. rewrite andb_false_r. reflexivity.
  - intros ->. reflexivity.
  - intros d. unfold AgentCard. cbn [body copyButton orb].
    destruct (Api.agent_status d); repeat split; try discriminate.
    intros text label H. injection H as <- _. reflexivity.
Qed.

(** ** The final e-mail: what is shown and what is copied *)


Section WithNumbers.

Variable isZero : jsstring -> bool.



End WithNumbers.


End ViewFacts.

(* ================================================================== *)
(** * More facts about the staged reveal *)
(* ================================================================== *)

Module RevealFacts.
Import Js Canvas CanvasSpec CanvasFacts RevealSpec.

Section WithHeap.

Variable heap : Ref -> Api.EmailGenerationResponse.

(** Only a timer's callback sets [showAgents]. *)
Lemma showAgents_set_by_timer (e : Event) (s s' : State) :
  step heap e s = Some s' -> showAgents s = false -> showAgents s' = true ->
  exists t,
    e = Fire (tid t) /\ In t (timers s) /\ callback t = ShowAgents /\
    (armedAt t + delay t <= now s)%Z.
Proof.
  intros Hs H0 H1. destruct e; cbn [step] in Hs.
  - destruct (mounted s); [| discriminate]. injection Hs as <-.
    exfalso. revert H1. unfold render, effectAgents, effectFinal, run_cleanup.
    destruct (negb (Bool.eqb (isGenerating (props s)) (isGenerating p)));
      destruct (negb (same_result (result (props s)) (result p)));
      destruct (isGenerating p);
      destruct (result p) as [r' |];
      try destruct (is_complete (Api.status (heap r')));
      destruct (cleanupAgents s); destruct (cleanupFinal s);
      cbn; congruence.
  - destruct (now s <=? t)%Z; [| discriminate]. injection Hs as <-.
    cbn in H1. congruence.
  - destruct (find (fun t => Nat.eqb (tid t) id) (timers s)) as [t0 |] eqn:Ef;
      [| discriminate].
    destruct (due t0 <=? now s)%Z eqn:Ed; [| discriminate]. injection Hs as <-.
    apply find_some in Ef. destruct Ef as [Hin Hid]. apply Nat.eqb_eq in Hid.
    destruct (callback t0) eqn:Ecb; cbn in H1; [| congruence].
    exists t0. rewrite Hid. apply Z.leb_le in Ed. auto.
  - destruct (mounted s); [| discriminate]. injection Hs as <-.
    exfalso. revert H1. unfold unmount, run_cleanup.
    destruct (cleanupAgents s); destruct (cleanupFinal s); cbn; congruence.
Qed.

(** While the props say that nothing is being generated, no [ShowAgents]
    timer is pending. *)
Lemma no_agents_timer (s : State) :
  current heap s -> isGenerating (props s) = false ->
  forall t, In t (timers s) -> callback t <> ShowAgents.
Proof.
  intros Hcur Hg t Hin Hcb. specialize (Hcur t Hin). rewrite Hcb in Hcur.
  destruct Hcur as (_ & _ & Hg'). congruence.
Qed.

(** An event other than a render that sets [isGenerating] keeps the props
    not generating and [showAgents] as it is. *)
Lemma not_generating_step (e : Event) (s s' : State) :
  current heap s -> isGenerating (props s) = false ->
  (forall p, e = Render p -> isGenerating p = false) ->
  step heap e s = Some s' ->
  isGenerating (props s') = false /\ showAgents s' = showAgents s.
Proof.
  intros Hcur Hg Hp Hs. destruct e; cbn [step] in Hs.
  - destruct (mounted s); [| discriminate]. injection Hs as <-.
    specialize (Hp p eq_refl).
    unfold render, effectAgents, effectFinal, run_cleanup.
    rewrite Hg, Hp. cbn [Bool.eqb negb].
    destruct (negb (same_result (result (props s)) (result p)));
      destruct (result p) as [r' |];
      try destruct (is_complete (Api.status (heap r')));
      destruct (cleanupFinal s); cbn; auto.
  - destruct (now s <=? t)%Z; [| discriminate]. injection Hs as <-. cbn. auto.
  - destruct (find (fun t => Nat.eqb (tid t) id) (timers s)) as [t0 |] eqn:Ef;
      [| discriminate].
    destruct (due t0 <=? now s)%Z; [| discriminate]. injection Hs as <-.
    apply find_some in Ef. destruct Ef as [Hin _].
    pose proof (no_agents_timer Hcur Hg t0 Hin) as Hn.
    destruct (callback t0); [congruence |]. cbn. auto.
  - destruct (mounted s); [| discriminate]. injection Hs as <-.
    unfold unmount, run_cleanup.
    destruct (cleanupAgents s); destruct (cleanupFinal s); cbn; auto.
Qed.

Lemma not_generating_run (es : list Event) :
  forall s s',
    current heap s -> isGenerating (props s) = false ->
    forallb not_generating es = true ->
    run heap es s = Some s' ->
    showAgents s' = showAgents s.
Proof.
  induction es as [| e es IH]; intros s s' Hcur Hg Hes Hr; cbn in Hr.
  - injection Hr as <-. reflexivity.
  - cbn in Hes. apply andb_true_iff in Hes. destruct Hes as [He Hes].
    destruct (step heap e s) as [s1 |] eqn:Es; [| discriminate].
    assert (Hp : forall p, e = Render p -> isGenerating p = false).
    { intros p ->. cbn in He. apply negb_true_iff in He. exact He. }
    destruct (@not_generating_step e s s1 Hcur Hg Hp Es) as [Hg1 Hsa].
    rewrite <- Hsa. apply (IH s1 s'); auto.
    eapply current_step; eassumption.
Qed.

(** Property X21. In every state the component can reach: [showAgents] turns
    true only when a [ShowAgents] timer fires, which was armed for 300 ms, is
    due, and belongs to a request that is still being generated; once the
    props say that nothing is being generated no such timer is pending (the
    effect's clean-up cancelled it), and [showAgents] stays as it is until a
    render sets [isGenerating] again. So a request that ends within 300 ms
    never reveals the agents stage. *)
Theorem agents_reveal_only_while_generating (s : State) :
  reachable heap s ->
  (forall e s',
      step heap e s = Some s' -> showAgents s = false -> showAgents s' = true ->
      exists t,
        e = Fire (tid t) /\ In t (timers s) /\ callback t = ShowAgents /\
        delay t = 300%Z /\ (armedAt t + 300 <= now s)%Z /\
        isGenerating (props s) = true) /\
  (isGenerating (props s) = false ->
   (forall t, In t (timers s) -> callback t <> ShowAgents) /\
   forall es s',
     forallb not_generating es = true -> run heap es s = Some s' ->
     showAgents s' = showAgents s).
Proof.
  intros Hreach. pose proof (reachable_current Hreach) as Hcur. split.
  - intros e s' Hs H0 H1.
    destruct (showAgents_set_by_timer e s Hs H0 H1) as (t & He & Hin & Hcb & Hdue).
    pose proof (Hcur t Hin) as Ht. rewrite Hcb in Ht.
    destruct Ht as (_ & Hd & Hg).
    exists t. rewrite Hd in Hdue. auto 10.
  - intros Hg. split; [apply no_agents_timer; assumption |].
    intros es s' Hes Hr. eapply not_generating_run; eassumption.
Qed.

(** ** Leaving the page *)

Lemma filter_nil {A} (f : A -> bool) (l : list A) :
  (forall x, In x l -> f x = false) -> filter f l = [].
Proof.
  induction l as [| x l IH]; cbn; [reflexivity |].
  intros H. rewrite (H x) by auto. apply IH. intros y Hy. apply H. auto.
Qed.

Lemma no_elements {A} (l : list A) : (forall x, ~ In x l) -> l = [].
Proof.
  destruct l as [| a l]; [reflexivity |].
  intros H. exfalso. apply (H a). left. reflexivity.
Qed.

(** Every pending timer is one that a clean-up clears. *)
Lemma unmount_timers (s : State) :
  current heap s -> timers (unmount s) = [].
Proof.
  intros Hcur. apply no_elements. intros t. unfold unmount, run_cleanup.
  destruct (cleanupAgents s) as [ida |] eqn:Eca;
    destruct (cleanupFinal s) as [idf |] eqn:Ecf; cbn; intros Hin;
    repeat (apply filter_In in Hin; destruct Hin as [Hin ?]);
    pose proof (Hcur t Hin) as Ht; destruct (callback t);
    [ destruct Ht as (Hc & _) | destruct Ht as (Hc & _)
    | destruct Ht as (Hc & _) | destruct Ht as (Hc & _)
    | destruct Ht as (Hc & _) | destruct Ht as (Hc & _)
    | destruct Ht as (Hc & _) | destruct Ht as (Hc & _) ];
    rewrite ?Eca, ?Ecf in Hc; try discriminate Hc;
    injection Hc as Hc; subst;
    match goal with
    | H : negb (Nat.eqb ?x ?x) = true |- _ =>
        rewrite Nat.eqb_refl in H; discriminate H
    end.
Qed.

Lemma unmounted_step (e : Event) (s s' : State) :
  mounted s = false -> timers s = [] -> step heap e s = Some s' ->
  mounted s' = false /\ timers s' = [] /\
  showAgents s' = showAgents s /\ showFinal s' = showFinal s.
Proof.
  intros Hm Ht Hs. destruct e; cbn [step] in Hs; rewrite ?Hm, ?Ht in Hs;
    try discriminate.
  destruct (now s <=? t)%Z; [| discriminate]. injection Hs as <-. cbn. auto.
Qed.

Lemma unmounted_run (es : list Event) :
  forall s s',
    mounted s = false -> timers s = [] -> run heap es s = Some s' ->
    timers s' = [] /\
    showAgents s' = showAgents s /\ showFinal s' = showFinal s.
Proof.
  induction es as [| e es IH]; intros s s' Hm Ht Hr; cbn in Hr.
  - injection Hr as <-. auto.
  - destruct (step heap e s) as [s1 |] eqn:Es; [| discriminate].
    destruct (@unmounted_step e s s1 Hm Ht Es) as (Hm1 & Ht1 & Ha1 & Hf1).
    destruct (IH s1 s' Hm1 Ht1 Hr) as (H1 & H2 & H3).
    split; [exact H1 |]. split; congruence.
Qed.

(** Property X22. When the component leaves the page both clean-ups run, and
    between them they clear every pending timer: nothing is left that could
    fire, so the two stages stay as they are, whatever happens later. *)
Theorem unmount_cancels_timers (s s' : State) :
  reachable heap s ->
  step heap Unmount s = Some s' ->
  timers s' = [] /\
  showAgents s' = showAgents s /\ showFinal s' = showFinal s /\
  forall es s'',
    run heap es s' = Some s'' ->
    timers s'' = [] /\
    showAgents s'' = showAgents s /\ showFinal s'' = showFinal s.
Proof.
  intros Hreach Hs. pose proof (reachable_current Hreach) as Hcur.
  cbn [step] in Hs. destruct (mounted s); [| discriminate]. injection Hs as <-.
  pose proof (unmount_timers Hcur) as Ht.
  assert (Hm : mounted (unmount s) = false) by reflexivity.
  assert (Ha : showAgents (unmount s) = showAgents s).
  { unfold unmount, run_cleanup.
    destruct (cleanupAgents s); destruct (cleanupFinal s); reflexivity. }
  assert (Hf : showFinal (unmount s) = showFinal s).
  { unfold unmount, run_cleanup.
    destruct (cleanupAgents s); destruct (cleanupFinal s); reflexivity. }
  split; [exact Ht |]. split; [exact Ha |]. split; [exact Hf |].
  intros es s'' Hr.
  destruct (@unmounted_run es (unmount s) s'' Hm Ht Hr) as (Ht' & Ha' & Hf').
  rewrite <- Ha, <- Hf. auto.
Qed.

End WithHeap.

Lemma agents_due_state_reachable : reachable sample_heap agents_due_state.
Proof.
  apply (@render_run_reachable sample_heap [Elapse 300]
           (mount sample_heap (requestStarted 0) 0)).
  - apply reach_mount.
  - vm_compute. reflexivity.
Qed.

Lemma agents_reveal_only_while_generating_witness :
  exists t,
    In t (timers agents_due_state) /\ callback t = ShowAgents /\
    delay t = 300%Z /\ isGenerating (props agents_due_state) = true.
Proof.
  destruct (@agents_reveal_only_while_generating sample_heap agents_due_state
              agents_due_state_reachable) as (Hfire & _).
  destruct (step sample_heap (Fire 1) agents_due_state) as [s' |] eqn:Es;
    [| vm_compute in Es; discriminate].
  assert (H0 : showAgents agents_due_state = false) by (vm_compute; reflexivity).
  assert (H1 : showAgents s' = true)
    by (vm_compute in Es; injection Es as <-; reflexivity).
  destruct (Hfire (Fire 1) s' Es H0 H1) as (t & _ & Hin & Hcb & Hd & _ & Hg).
  exists t. auto.
Defined.

Lemma unmount_cancels_timers_witness :
  timers revealing_state <> [] /\
  exists s', step sample_heap Unmount revealing_state = Some s' /\ timers s' = [].
Proof.
  split; [vm_compute; discriminate |].
  destruct (step sample_heap Unmount revealing_state) as [s' |] eqn:Es;
    [| vm_compute in Es; discriminate].
  exists s'. split; [reflexivity |].
  apply (@unmount_cancels_timers sample_heap revealing_state s'
           revealing_state_reachable Es).
Defined.

End RevealFacts.

(* ================================================================== *)
(** * Facts about the copy feedback *)
(* ================================================================== *)

Module ClipboardFacts.
Import Js Clipboard.

Section WithText.

Variable V : Type.
Variable secureContext : bool.

Lemma clip_inv_step (e : Event V) (s s' : State V) :
  clip_inv secureContext s -> step secureContext e s = Some s' ->
  clip_inv secureContext s'.
Proof.
  unfold clip_inv. intros (Hc & Hnd & Hlt & Hsec) Hs. destruct e; cbn [step] in Hs.
  - injection Hs as <-. unfold copyToClipboard.
    destruct secureContext eqn:Esec; cbn; [| auto].
    split; [discriminate |]. split; [| split].
    + constructor; [| exact Hnd].
      intros Hin. apply in_map_iff in Hin. destruct Hin as (u & Hu & Hin).
      rewrite Forall_forall in Hlt. apply Hlt in Hin. lia.
    + constructor; [cbn; lia |].
      eapply Forall_impl; [| exact Hlt]. cbn. intros u Hu. lia.
    + discriminate.
  - destruct (now s <=? t)%Z; [| discriminate]. injection Hs as <-. cbn. auto.
  - destruct (find (fun t => Nat.eqb (tid t) id) (timers s)) as [t |]; [| discriminate].
    destruct (due t <=? now s)%Z; [| discriminate]. injection Hs as <-. cbn.
    split; [discriminate |]. split; [| split].
    + clear - Hnd. induction (timers s) as [| u ts IH]; cbn; [constructor |].
      inversion Hnd as [| ? ? Hnin Hnd']; subst.
      destruct (negb (Nat.eqb (tid u) id)); cbn; [| auto].
      constructor; [| auto].
      intros Hin. apply Hnin. apply in_map_iff in Hin.
      destruct Hin as (y & Hy & Hin). apply filter_In in Hin.
      apply in_map_iff. exists y. tauto.
    + clear - Hlt. induction Hlt as [| u ts Hu _ IH]; cbn; [constructor |].
      destruct (negb (Nat.eqb (tid u) id)); [constructor |]; assumption.
    + intros Hf. destruct (Hsec Hf) as (H1 & H2 & H3). auto.
Qed.

Lemma reachable_clip_inv (s : State V) : reachable secureContext s -> clip_inv secureContext s.
Proof.
  induction 1 as [t | s e s' _ IH Hs].
  - unfold clip_inv. cbn. repeat split; try discriminate; constructor.
  - eapply clip_inv_step; eassumption.
Qed.

Lemma clip_run_reachable (es : list (Event V)) :
  forall s s',
    reachable secureContext s -> run secureContext es s = Some s' ->
    reachable secureContext s'.
Proof.
  induction es as [| e es IH]; intros s s' Hs Hr; cbn in Hr.
  - injection Hr as <-. exact Hs.
  - destruct (step secureContext e s) as [s1 |] eqn:Es; [| discriminate].
    eapply IH; [eapply reach_step; eassumption | exact Hr].
Qed.

Lemma same_id (ts : list Timer) (a b : Timer) :
  NoDup (map tid ts) -> In a ts -> In b ts -> tid a = tid b -> a = b.
Proof.
  induction ts as [| t ts IH]; cbn; [tauto |].
  intros H Ha Hb E. inversion H as [| ? ? Hnin Hnd]; subst.
  destruct Ha as [-> | Ha], Hb as [-> | Hb]; auto.
  - exfalso. apply Hnin. rewrite E. apply in_map. exact Hb.
  - exfalso. apply Hnin. rewrite <- E. apply in_map. exact Ha.
Qed.

(** Property X23. The hook's [copied] is true only while a reset timer is
    pending, so the feedback always goes away. Where [navigator.clipboard] is
    missing every copy throws before anything is written or shown. Where it is
    there, a copy made while an earlier reset timer is due does not get its
    own two seconds: that earlier timer fires and turns [copied] off, with the
    new copy's timer still pending. *)
Theorem copied_flag_resets (s : State V) :
  reachable secureContext s ->
  (copied s = true -> timers s <> []) /\
  (secureContext = false ->
   copied s = false /\ written s = [] /\ toasts s = [] /\
   forall text label,
     copyToClipboard secureContext text label s = (Throw noClipboard, s)) /\
  (secureContext = true ->
   forall text label t,
     In t (timers s) -> (due t <= now s)%Z ->
     exists s',
       run secureContext [Copy text label; Fire V (tid t)] s = Some s' /\
       copied s' = false /\
       written s' = text :: written s /\
       In {| tid := nextId s; armedAt := now s |} (timers s')).
Proof.
  intros Hreach. destruct (reachable_clip_inv Hreach) as (Hc & Hnd & Hlt & Hsec).
  split; [exact Hc |]. split.
  - intros Hf. destruct (Hsec Hf) as (H1 & H2 & H3).
    repeat split; try assumption.
    intros text label. unfold copyToClipboard. rewrite Hf. reflexivity.
  - intros Ht text label t Hin Hdue.
    assert (Hid : (tid t < nextId s)%nat).
    { rewrite Forall_forall in Hlt. apply Hlt. exact Hin. }
    cbn [run step]. unfold copyToClipboard. rewrite Ht. cbn [snd timers find tid].
    assert (E1 : Nat.eqb (nextId s) (tid t) = false) by (apply Nat.eqb_neq; lia).
    rewrite E1.
    destruct (find (fun u => Nat.eqb (tid u) (tid t)) (timers s)) as [t0 |] eqn:Ef.
    + apply find_some in Ef. destruct Ef as [Hin0 E0]. apply Nat.eqb_eq in E0.
      assert (t0 = t) by (eapply same_id; eassumption). subst t0.
      cbn [now]. apply Z.leb_le in Hdue. rewrite Hdue.
      eexists. split; [reflexivity |]. cbn.
      rewrite E1. cbn. auto.
    + exfalso. pose proof (find_none _ _ Ef t Hin) as Hn. cbn in Hn.
      rewrite Nat.eqb_refl in Hn. discriminate.
Qed.

End WithText.

Lemma copied_flag_resets_witness :
  exists s',
    run true [Copy (lit "draft") None; Elapse jsstring 2000;
              Copy (lit "draft") None; Fire jsstring 1]
        (initial jsstring 0) = Some s' /\
    copied s' = false /\ length (timers s') = 1%nat.
Proof.
  assert (Hreach : reachable true (twice_copied true (lit "draft") 2000)).
  { apply (@clip_run_reachable jsstring true
             [Copy (lit "draft") None; Elapse jsstring 2000] (initial jsstring 0)).
    - apply reach_initial.
    - vm_compute. reflexivity. }
  destruct (@copied_flag_resets jsstring true (twice_copied true (lit "draft") 2000) Hreach)
    as (_ & _ & Hearly).
  destruct (Hearly eq_refl (lit "draft") None {| tid := 1; armedAt := 0 |})
    as (s' & Hrun & Hcop & _).
  - left. reflexivity.
  - vm_compute. discriminate.
  - exists s'. split; [exact Hrun |]. split; [exact Hcop |].
    vm_compute in Hrun. injection Hrun as <-. reflexivity.
Defined.

End ClipboardFacts.
